(** * kamera: PTZ camera controller and person follower

    A shallow embedding of [camera_controller.py] (class [CameraController])
    and [ai_camera_control.py] (class [AIFollower] and the launcher), and
    the properties of the serial command channel, the operations, the
    autofocus sweep, the per-frame control law and the follower's loop.

    Python values are modelled as follows.
    - [int] is [Z] (unbounded).
    - [float] is IEEE-754 binary64, as specified by the standard library's
      [SpecFloat] with [prec = 53] and [emax = 1024].
    - [str] is a list of Unicode code points; [bytes] is a list of [byte].
    - Exceptions are an explicit outcome that keeps the state reached when
      the exception was raised.

    What lies outside the two files is an input of the model: whether the
    serial port opens, the text the controller firmware answers, the frames
    of the video source (reduced to what the code reads from them: the
    Laplacian variance in the sweep, the detector's boxes in the follower)
    and the key returned by [cv2.waitKey].  Writing to an open port and
    printing a log message are taken to succeed.  The delays ([time.sleep]) and [cap.release()] have
    no counterpart, and a log message is kept as a constructor carrying its
    arguments rather than as formatted text.

    The world also records, as a history variable, the calls made to the
    controller's operations ([issued]); no operation reads it. *)

From Stdlib Require Import ZArith NArith PArith List Sorted Bool Lia String Ascii.
From Stdlib Require Import Strings.Byte DecimalString SpecFloat.
From Stdlib Require DecimalPos DecimalZ.
From ExtLib Require Import Structures.Monad.
Import ListNotations.
Import MonadNotation.

Local Open Scope Z_scope.
Local Open Scope monad_scope.

(* ===================================================================== *)
(** * Python primitives *)
(* ===================================================================== *)

(** The exceptions the modelled code can raise. *)
Inductive PyExc : Type :=
| ValueError
| OverflowError
| UnicodeEncodeError.

(** A pure computation that may raise. *)
Inductive result (A : Type) : Type :=
| Ok (a : A)
| Err (e : PyExc).
Arguments Ok {A} a.
Arguments Err {A} e.

#[global] Instance Monad_result : Monad result :=
  {| ret := fun _ a => Ok a;
     bind := fun _ _ r k => match r with Ok a => k a | Err e => Err e end |}.

(** ** Floats *)
Module PyFloat.

Definition float : Type := spec_float.

Definition prec : Z := 53.
Definition emax : Z := 1024.

Definition add : float -> float -> float := SFadd prec emax.
Definition sub : float -> float -> float := SFsub prec emax.
Definition mul : float -> float -> float := SFmul prec emax.
Definition div : float -> float -> float := SFdiv prec emax.

(** [a < b], [a <= b], [a > b] and [a == b]; all are false when a NaN is
    involved. *)
Definition ltb : float -> float -> bool := SFltb.
Definition leb : float -> float -> bool := SFleb.
Definition gtb (a b : float) : bool := SFltb b a.
Definition eqb : float -> float -> bool := SFeqb.

(** The values a Python float can take: canonical binary64 data. *)
Definition valid (x : float) : bool := valid_binary prec emax x.

(** The binary64 nearest to an integer (ties to even); an infinity when
    the integer is beyond the range. *)
Definition of_Z (n : Z) : float := binary_normalize prec emax n 0 false.

(** The implicit [int -> float] conversion of mixed arithmetic
    ([PyLong_AsDouble]): [OverflowError] when out of range. *)
Definition of_int (n : Z) : result float :=
  match of_Z n with
  | S754_infinity _ => Err OverflowError
  | x => Ok x
  end.

(** [int(x)]: truncation toward zero; [ValueError] on NaN and
    [OverflowError] on an infinity. *)
Definition to_int (x : float) : result Z :=
  match x with
  | S754_zero _ => Ok 0
  | S754_infinity _ => Err OverflowError
  | S754_nan => Err ValueError
  | S754_finite s m e => Ok (cond_Zopp s (Z.shiftl (Zpos m) e))
  end.

(** The literals of the source. *)
Definition lit_0_1 : float := S754_finite false 7205759403792794 (-56).
Definition lit_neg_1_0 : float := S754_finite true 4503599627370496 (-52).
Definition zero : float := S754_zero false.

End PyFloat.

(** ** Strings and bytes *)
Module PyStr.

(** A [str] is a sequence of code points. *)
Definition str : Type := list N.
Definition bytes : Type := list byte.

(** A literal of the source (ASCII). *)
Definition lit (s : string) : str := map N_of_ascii (list_ascii_of_string s).

(** [str(n)] for an [int], as used by the f-strings (without the limit
    CPython puts on the number of digits, see [printable]). *)
Definition of_int (n : Z) : str := lit (NilZero.string_of_int (Z.to_int n)).

(** [str.isspace] on one code point: the characters [str.strip()]
    removes (CPython's [Py_UNICODE_ISSPACE]). *)
Definition is_space (c : N) : bool :=
  (((9 <=? c) && (c <=? 13)) || ((28 <=? c) && (c <=? 32))
   || (c =? 133) || (c =? 160) || (c =? 5760)
   || ((8192 <=? c) && (c <=? 8202))
   || (c =? 8232) || (c =? 8233) || (c =? 8239) || (c =? 8287)
   || (c =? 12288))%N.

Fixpoint lstrip (s : str) : str :=
  match s with
  | [] => []
  | c :: r => if is_space c then lstrip r else s
  end.

Definition rstrip (s : str) : str := rev (lstrip (rev s)).

(** [s.strip()] *)
Definition strip (s : str) : str := rstrip (lstrip s).

Definition byte_of_N (n : N) : byte :=
  match Byte.of_N n with
  | Some b => b
  | None => x00
  end.

(** A continuation byte carrying the six bits of [c] at offset [sh]. *)
Definition cont (c sh : N) : byte :=
  byte_of_N (128 + N.land (N.shiftr c sh) 63).

(** UTF-8 encoding of one code point, strict: a surrogate (or a value
    that is no code point) is refused. *)
Definition encode_char (c : N) : option bytes :=
  (if c <? 128 then Some [byte_of_N c]
   else if c <? 2048 then Some [byte_of_N (192 + N.shiftr c 6); cont c 0]
   else if (55296 <=? c) && (c <=? 57343) then None
   else if c <? 65536 then
     Some [byte_of_N (224 + N.shiftr c 12); cont c 6; cont c 0]
   else if c <? 1114112 then
     Some [byte_of_N (240 + N.shiftr c 18); cont c 12; cont c 6; cont c 0]
   else None)%N.

(** [s.encode("utf-8")] *)
Fixpoint encode (s : str) : result bytes :=
  match s with
  | [] => Ok []
  | c :: r =>
      match encode_char c with
      | None => Err UnicodeEncodeError
      | Some bs => rest <- encode r ;; ret (bs ++ rest)
      end
  end.

Definition CRLF : str := [13; 10]%N.

End PyStr.

(** ** [range] *)

(** [len(range(start, stop, step))] for a positive [step]. *)
Definition range_len (start stop step : Z) : nat :=
  if start <? stop then Z.to_nat ((stop - start - 1) / step + 1) else O.

(** [range(start, stop, step)]: item [i] is [start + i * step].  A zero
    step raises [ValueError]; a negative step counts down. *)
Definition py_range (start stop step : Z) : result (list Z) :=
  if step =? 0 then Err ValueError
  else
    let n := if 0 <? step then range_len start stop step
             else range_len stop start (- step) in
    Ok (map (fun i => start + Z.of_nat i * step) (seq 0 n)).

(* ===================================================================== *)
(** * The world the controller acts on *)
(* ===================================================================== *)

Import PyStr.

(** The operations of the controller's public interface; a call to one of
    them is recorded in [issued] when it is entered. *)
Inductive ControlCommand : Type :=
| WakeUp
| Autofocus
| SetZoom (value : Z)
| SetFocus (value : Z)
| IrOn
| IrOff
| ModeDay
| ModeNight
| Pan (value : Z)
| Tilt (value : Z).

(** What [_log] is given, without the text formatting. *)
Inductive LogEntry : Type :=
| LogEstablished
| LogOpenFailed
| LogNotOpen
| LogOut (cmd : str)
| LogIn (response : str)
| LogNoVideo
| LogSweepStart
| LogSample (focus : Z) (value : PyFloat.float)
| LogBest (focus : Z) (value : PyFloat.float).

(** The [serial.Serial] object held by the controller. *)
Record Serial : Type := { is_open : bool }.

Record World : Type := {
  (** [self.serial]; [None] after a failed open *)
  serial : option Serial;
  (** every byte the device has been sent, oldest first *)
  wire : bytes;
  (** what [read_all().decode("utf-8", errors="ignore")] will yield at the
      coming reads, one text per read; the empty text once exhausted *)
  replies : list str;
  (** the messages passed to [_log], oldest first *)
  log : list LogEntry;
  (** history of the interface calls, oldest first *)
  issued : list ControlCommand
}.

(** The result of running a method: it returns or raises, in a world. *)
Inductive outcome (A : Type) : Type :=
| Returns (a : A) (w : World)
| Raises (e : PyExc) (w : World).
Arguments Returns {A} a w.
Arguments Raises {A} e w.

Definition world_of {A} (o : outcome A) : World :=
  match o with
  | Returns _ w => w
  | Raises _ w => w
  end.

Definition Py (A : Type) : Type := World -> outcome A.

#[global] Instance Monad_Py : Monad Py :=
  {| ret := fun _ a w => Returns a w;
     bind := fun _ _ m k w =>
       match m w with
       | Returns a w' => k a w'
       | Raises e w' => Raises e w'
       end |}.

(** A pure step that may raise. *)
Definition lift {A} (r : result A) : Py A :=
  fun w => match r with Ok a => Returns a w | Err e => Raises e w end.

Definition get_serial : Py (option Serial) := fun w => Returns (serial w) w.

Definition _log (entry : LogEntry) : Py unit :=
  fun w => Returns tt
    {| serial := serial w; wire := wire w; replies := replies w;
       log := log w ++ [entry]; issued := issued w |}.

Definition note (c : ControlCommand) : Py unit :=
  fun w => Returns tt
    {| serial := serial w; wire := wire w; replies := replies w;
       log := log w; issued := issued w ++ [c] |}.

(** [self.serial.write(data)] *)
Definition serial_write (data : bytes) : Py unit :=
  fun w => Returns tt
    {| serial := serial w; wire := wire w ++ data; replies := replies w;
       log := log w; issued := issued w |}.

(** [self.serial.read_all().decode("utf-8", errors="ignore")] *)
Definition serial_read_all : Py str :=
  fun w => Returns (hd [] (replies w))
    {| serial := serial w; wire := wire w; replies := tl (replies w);
       log := log w; issued := issued w |}.

(* ===================================================================== *)
(** * camera_controller.py *)
(* ===================================================================== *)
Module CameraController.

(** [__init__]: [opened] is the [Serial] object when [serial.Serial(...)]
    succeeds and [None] when it raises. *)
Definition init (opened : option Serial) (device_replies : list str) : World :=
  {| serial := opened; wire := []; replies := device_replies;
     log := [match opened with
             | Some _ => LogEstablished
             | None => LogOpenFailed
             end];
     issued := [] |}.

Definition send_command (cmd : str) : Py (option str) :=
  s <- get_serial ;;
  match s with
  | Some {| is_open := true |} =>
      full_cmd <- lift (encode (strip cmd ++ CRLF)) ;;
      serial_write full_cmd ;;
      _log (LogOut cmd) ;;
      response <- serial_read_all ;;
      _log (LogIn (strip response)) ;;
      ret (Some (strip response))
  | _ =>
      _log LogNotOpen ;;
      ret None
  end.

Definition ir_on : Py unit :=
  note IrOn ;;
  send_command (lit "M242 A1") ;;
  ret tt.

Definition ir_off : Py unit :=
  note IrOff ;;
  send_command (lit "M242 A0") ;;
  ret tt.

Definition wake_up : Py unit :=
  note WakeUp ;;
  send_command (lit "M238") ;;
  send_command (lit "M8") ;;
  send_command (lit "version") ;;
  ir_off.

Definition autofocus : Py unit :=
  note Autofocus ;;
  send_command (lit "G91") ;;
  send_command (lit "M246") ;;
  send_command (lit "M240 A50") ;;
  send_command (lit "G0 A30000") ;;
  send_command (lit "M0 A") ;;
  ret tt.

Definition set_zoom (value : Z) : Py unit :=
  note (SetZoom value) ;;
  send_command (lit "G0 A" ++ of_int value) ;;
  send_command (lit "M0 A") ;;
  ret tt.

Definition set_focus (value : Z) : Py unit :=
  note (SetFocus value) ;;
  send_command (lit "G0 B" ++ of_int value) ;;
  send_command (lit "M0 B") ;;
  ret tt.

Definition set_mode_day : Py unit :=
  note ModeDay ;;
  send_command (lit "M241 A0") ;;
  send_command (lit "M240 A50") ;;
  send_command (lit "M250 A10") ;;
  ir_off.

Definition set_mode_night : Py unit :=
  note ModeNight ;;
  send_command (lit "M241 A0") ;;
  send_command (lit "M240 A5") ;;
  send_command (lit "M250 A40") ;;
  ir_on.

Definition pan (value : Z) : Py unit :=
  note (Pan value) ;;
  send_command (lit "G0 X" ++ of_int value) ;;
  send_command (lit "M0 X") ;;
  ret tt.

Definition tilt (value : Z) : Py unit :=
  note (Tilt value) ;;
  send_command (lit "G0 Y" ++ of_int value) ;;
  send_command (lit "M0 Y") ;;
  ret tt.

(** The video device of [autofocus_loop]: for the candidate just
    commanded, [cap.read()] fails ([None]) or yields a frame, of which
    the loop uses [cv2.Laplacian(gray, cv2.CV_64F).var()] only.  A sweep
    commands each candidate once, so indexing the reads by candidate
    loses nothing. *)
Definition Camera : Type := Z -> option PyFloat.float.

(** The best sample seen so far: [(best_focus, best_value)]. *)
Definition Best : Type := (Z * PyFloat.float)%type.

(** The body of the [for] loop, over the candidates left. *)
Fixpoint sweep (cap : Camera) (candidates : list Z) (best : Best) : Py Best :=
  match candidates with
  | [] => ret best
  | focus :: rest =>
      set_focus focus ;;
      match cap focus with
      | None => sweep cap rest best
      | Some value =>
          _log (LogSample focus value) ;;
          if PyFloat.gtb value (snd best)
          then sweep cap rest (focus, value)
          else sweep cap rest best
      end
  end.

(** [autofocus_loop]; [video] is [None] when [cap.isOpened()] is false. *)
Definition autofocus_loop (video : option Camera) (min_focus max_focus step : Z)
  : Py unit :=
  match video with
  | None => _log LogNoVideo
  | Some cap =>
      let best_focus := min_focus in
      let best_value := PyFloat.lit_neg_1_0 in
      _log LogSweepStart ;;
      candidates <- lift (py_range min_focus (max_focus + 1) step) ;;
      best <- sweep cap candidates (best_focus, best_value) ;;
      _log (LogBest (fst best) (snd best)) ;;
      set_focus (fst best)
  end.

End CameraController.

(* ===================================================================== *)
(** * ai_camera_control.py *)
(* ===================================================================== *)
Module AIFollower.

Import CameraController.

(** One detection of [results.boxes]: [box.cls[0]] and the four
    coordinates of [box.xyxy[0].cpu().tolist()]. *)
Record Box : Type := {
  cls : PyFloat.float;
  x1 : PyFloat.float;
  y1 : PyFloat.float;
  x2 : PyFloat.float;
  y2 : PyFloat.float
}.

(** The [for box in boxes] loop: the first box of class 0. *)
Fixpoint first_person (boxes : list Box) : result (option Box) :=
  match boxes with
  | [] => Ok None
  | box :: rest =>
      c <- PyFloat.to_int (cls box) ;;
      if c =? 0 then Ok (Some box) else first_person rest
  end.

(** [int((a + b) / 2)] *)
Definition center (a b : PyFloat.float) : result Z :=
  PyFloat.to_int (PyFloat.div (PyFloat.add a b) (PyFloat.of_Z 2)).

(** [int(d * 0.1)] for an [int] [d] *)
Definition proportional (d : Z) : result Z :=
  fd <- PyFloat.of_int d ;;
  PyFloat.to_int (PyFloat.mul fd PyFloat.lit_0_1).

(** [int(10000 + (frame_width - bbox_width) * 5)] *)
Definition zoom_value (frame_width : Z) (bbox_width : PyFloat.float) : result Z :=
  fw <- PyFloat.of_int frame_width ;;
  PyFloat.to_int
    (PyFloat.add (PyFloat.of_Z 10000)
                 (PyFloat.mul (PyFloat.sub fw bbox_width) (PyFloat.of_Z 5))).

(** The body of [if person is not None]. *)
Definition follow (frame_width frame_height : Z) (person : Box) : Py unit :=
  let center_x := frame_width / 2 in
  let center_y := frame_height / 2 in
  obj_center_x <- lift (center (x1 person) (x2 person)) ;;
  obj_center_y <- lift (center (y1 person) (y2 person)) ;;
  let dx := obj_center_x - center_x in
  let dy := obj_center_y - center_y in
  pan_val <- lift (proportional dx) ;;
  tilt_val <- lift (proportional dy) ;;
  (if 1 <? Z.abs pan_val then pan pan_val else ret tt) ;;
  (if 1 <? Z.abs tilt_val then tilt tilt_val else ret tt) ;;
  let bbox_width := PyFloat.sub (x2 person) (x1 person) in
  zoom <- lift (zoom_value frame_width bbox_width) ;;
  set_zoom zoom.

(** One frame that was read: the detector's boxes for it and the key
    [cv2.waitKey(1)] returns afterwards. *)
Record Frame : Type := {
  boxes : list Box;
  key : Z
}.

(** One pass of the [while True] body on a frame that was read; the
    boolean tells whether the loop goes on. *)
Definition step (frame_width frame_height : Z) (frame : Frame) : Py bool :=
  person <- lift (first_person (boxes frame)) ;;
  match person with
  | Some p => follow frame_width frame_height p
  | None => ret tt
  end ;;
  ret (negb (key frame =? 27)).

(** The [while True] loop over the frames the source still has; when
    they are exhausted [cap.read()] fails and the loop ends. *)
Fixpoint loop (frame_width frame_height : Z) (frames : list Frame) : Py unit :=
  match frames with
  | [] => ret tt
  | frame :: rest =>
      continue <- step frame_width frame_height frame ;;
      if continue : bool then loop frame_width frame_height rest else ret tt
  end.

(** An opened video source. *)
Record Video : Type := {
  frame_width : Z;
  frame_height : Z;
  frames : list Frame
}.

(** [run]; [video] is [None] when [cap.isOpened()] is false. *)
Definition run (video : option Video) : Py unit :=
  match video with
  | None => ret tt
  | Some v => loop (frame_width v) (frame_height v) (frames v)
  end.

End AIFollower.

(* ===================================================================== *)
(** * Vocabulary of the properties *)
(* ===================================================================== *)

(** The channel states of the command channel. *)
Definition channel_open (w : World) : Prop := serial w = Some {| is_open := true |}.
Definition channel_closed (w : World) : Prop := serial w = None.



(** A text made of whitespace only. *)
Definition blank (s : str) : Prop := Forall (fun c => is_space c = true) s.

(** The entry points a caller of the controller has. *)
Inductive Call : Type :=
| CallSend (cmd : str)
| CallOp (c : ControlCommand)
| CallAutofocusLoop (video : option CameraController.Camera)
                    (min_focus max_focus step : Z)
| CallRun (video : option AIFollower.Video).

Definition perform (c : ControlCommand) : Py unit :=
  match c with
  | WakeUp => CameraController.wake_up
  | Autofocus => CameraController.autofocus
  | SetZoom v => CameraController.set_zoom v
  | SetFocus v => CameraController.set_focus v
  | IrOn => CameraController.ir_on
  | IrOff => CameraController.ir_off
  | ModeDay => CameraController.set_mode_day
  | ModeNight => CameraController.set_mode_night
  | Pan v => CameraController.pan v
  | Tilt v => CameraController.tilt v
  end.

Definition invoke (c : Call) : Py unit :=
  match c with
  | CallSend cmd => CameraController.send_command cmd ;; ret tt
  | CallOp op => perform op
  | CallAutofocusLoop video lo hi step =>
      CameraController.autofocus_loop video lo hi step
  | CallRun video => AIFollower.run video
  end.

(** The world after a caller made the calls one after the other, going on
    after a call that raised. *)
Definition after (calls : list Call) (w : World) : World :=
  fold_left (fun w c => world_of (invoke c w)) calls w.

(** A sharpness sample is a variance: not negative (and so not a NaN). *)
Definition is_variance (v : PyFloat.float) : Prop :=
  PyFloat.leb PyFloat.zero v = true.

(** The method returned, having made [SetFocus f] its last call. *)
Definition commits (o : outcome unit) (f : Z) : Prop :=
  exists w' before, o = Returns tt w' /\ issued w' = before ++ [SetFocus f].

(** The calls made between two worlds. *)
Definition issued_since (w w' : World) : list ControlCommand :=
  skipn (List.length (issued w)) (issued w').

(** The focus values [lo], [lo + step], ... that do not exceed [hi], in
    increasing order ([step] positive). *)
Definition grid (lo hi step : Z) : list Z :=
  map (fun i => lo + Z.of_nat i * step) (seq 0 (range_len lo (hi + 1) step)).

(** The best sample kept by the sweep is a capture of one of the focus
    values [seen] and no capture among them is sharper. *)
Definition dominates (cap : CameraController.Camera) (seen : list Z)
  (best : CameraController.Best) : Prop :=
  cap (fst best) = Some (snd best) /\ In (fst best) seen /\
  forall g u, In g seen -> cap g = Some u -> PyFloat.leb u (snd best) = true.

(** Rounding to the nearest integer (ties to even), the [round] of the
    specification's [round(dx * Kp)]. *)
Definition round_nearest (x : PyFloat.float) : result Z :=
  match x with
  | S754_zero _ => Ok 0
  | S754_infinity _ => Err OverflowError
  | S754_nan => Err ValueError
  | S754_finite s m e =>
      if 0 <=? e then Ok (cond_Zopp s (Z.shiftl (Zpos m) e))
      else
        let unit := Z.shiftl 1 (- e) in
        let q := Zpos m / unit in
        let r := Zpos m mod unit in
        let up :=
          match 2 * r ?= unit with
          | Lt => false
          | Eq => Z.odd q
          | Gt => true
          end in
        Ok (cond_Zopp s (if up then q + 1 else q))
  end.

(** The control output as the specification words it: [round(d * 0.1)]. *)
Definition proportional_as_specified (d : Z) : result Z :=
  fd <- PyFloat.of_int d ;;
  round_nearest (PyFloat.mul fd PyFloat.lit_0_1).

(** The control law as the specification states it: the calls to [pan]
    and [tilt] of a frame are decided by, and carry, the rounded outputs. *)
Definition control_law_rounds : Prop :=
  forall (fw fh : Z) (frame : AIFollower.Frame) (person : AIFollower.Box)
         (w : World) (cx cy pv tv : Z),
    AIFollower.first_person (AIFollower.boxes frame) = Ok (Some person) ->
    AIFollower.center (AIFollower.x1 person) (AIFollower.x2 person) = Ok cx ->
    AIFollower.center (AIFollower.y1 person) (AIFollower.y2 person) = Ok cy ->
    proportional_as_specified (cx - fw / 2) = Ok pv ->
    proportional_as_specified (cy - fh / 2) = Ok tv ->
    let w' := world_of (AIFollower.step fw fh frame w) in
    (forall v, In (Pan v) (issued_since w w') <-> v = pv /\ 1 < Z.abs pv) /\
    (forall v, In (Tilt v) (issued_since w w') <-> v = tv /\ 1 < Z.abs tv).

(** The calls the control law makes for the outputs [pan_val], [tilt_val]
    and the zoom computation [zoom]. *)
Definition control_calls (pan_val tilt_val : Z) (zoom : result Z)
  : list ControlCommand :=
  (if 1 <? Z.abs pan_val then [Pan pan_val] else []) ++
  (if 1 <? Z.abs tilt_val then [Tilt tilt_val] else []) ++
  match zoom with Ok z => [SetZoom z] | Err _ => [] end.

(** A detection of a person with the corners given as integers. *)
Definition person_box (a b c d : Z) : AIFollower.Box :=
  {| AIFollower.cls := PyFloat.zero;
     AIFollower.x1 := PyFloat.of_Z a; AIFollower.y1 := PyFloat.of_Z b;
     AIFollower.x2 := PyFloat.of_Z c; AIFollower.y2 := PyFloat.of_Z d |}.

(** The sweep without its effects: the best sample after the candidates. *)
Fixpoint scan (cap : CameraController.Camera) (candidates : list Z)
  (best : CameraController.Best) : CameraController.Best :=
  match candidates with
  | [] => best
  | focus :: rest =>
      match cap focus with
      | None => scan cap rest best
      | Some value =>
          if PyFloat.gtb value (snd best)
          then scan cap rest (focus, value)
          else scan cap rest best
      end
  end.

(** A computation that always returns, leaves [self.serial] alone, makes
    the calls [cs] and only adds to the log. *)
Definition steps {A} (m : Py A) (cs : list ControlCommand) : Prop :=
  forall w, exists a w',
    m w = Returns a w' /\ serial w' = serial w /\ issued w' = issued w ++ cs /\
    exists entries, log w' = log w ++ entries.

(** A computation that, on a closed channel, leaves it closed and the wire
    untouched, whether it returns or raises. *)
Definition inert {A} (m : Py A) : Prop :=
  forall w, channel_closed w ->
    channel_closed (world_of (m w)) /\ wire (world_of (m w)) = wire w.

(** A text every code point of which UTF-8 can encode for sure. *)
Definition plain (s : str) : Prop := Forall (fun c => (c < 55296)%N) s.

(** Worlds to run examples in. *)
Definition open_world : World :=
  CameraController.init (Some {| is_open := true |}) [].
Definition closed_world : World := CameraController.init None [].

(* ===================================================================== *)
(** * Rounding to a binary format, in arithmetic *)
(* ===================================================================== *)

(** The definitions below restate the rounding of [SpecFloat] with
    integer division, so that it can be reasoned about; the lemmas further
    down relate them to [binary_round_aux] and [binary_normalize]. *)

(** The record reached after shifting [M] right by [k] bits. *)
Definition shifted (M : Z) (k : nat) : shr_record :=
  {| shr_m := M / 2 ^ Z.of_nat k;
     shr_r := match k with O => false | S j => Z.odd (M / 2 ^ Z.of_nat j) end;
     shr_s := match k with O => false | S j => negb (M mod 2 ^ Z.of_nat j =? 0) end |}.

(** Rounding [M / 2^n] to the nearest integer, ties to even. *)
Definition rne (M n : Z) : Z :=
  let q := M / 2 ^ n in
  match 2 * (M mod 2 ^ n) ?= 2 ^ n with
  | Lt => q
  | Eq => if Z.even q then q else q + 1
  | Gt => q + 1
  end.

Definition is_nan (f : spec_float) : bool :=
  match f with S754_nan => true | _ => false end.

Definition finite_or_zero (x : spec_float) : bool :=
  match x with
  | S754_zero _ | S754_finite _ _ _ => true
  | _ => false
  end.

Section FloatFormat.

Variables prec emax : Z.

Local Abbreviation emin := (SpecFloat.emin prec emax).
Local Abbreviation fexp := (SpecFloat.fexp prec emax).

(** The end of [binary_round_aux]: a zero, a finite float or an overflow. *)
Definition finish (s : bool) (m e : Z) : spec_float :=
  match m with
  | Z0 => S754_zero s
  | Zpos p => if e <=? emax - prec then S754_finite s p e else S754_infinity s
  | Zneg _ => S754_nan
  end.

(** [binary_round_aux] on an exact location, in arithmetic. *)
Definition round_aux (s : bool) (m e : Z) : spec_float :=
  let n1 := fexp (Zdigits2 m + e) - e in
  let m1 := if 0 <? n1 then rne m n1 else m in
  let e1 := if 0 <? n1 then e + n1 else e in
  let n2 := fexp (Zdigits2 m1 + e1) - e1 in
  let m2 := if 0 <? n2 then m1 / 2 ^ n2 else m1 in
  let e2 := if 0 <? n2 then e1 + n2 else e1 in
  finish s m2 e2.

(** The value, in units of [2^e], that rounding [m * 2^e] yields. *)
Definition rounded (m e : Z) : Z :=
  let n := fexp (Zdigits2 m + e) - e in rne m n * 2 ^ n.

(** The value of a float in units of [2^e0], an infinity counting as
    [2^emax]. *)
Definition value_at (e0 : Z) (f : spec_float) : Z :=
  match f with
  | S754_zero _ => 0
  | S754_infinity s => cond_Zopp s (2 ^ (emax - e0))
  | S754_nan => 0
  | S754_finite s m e => cond_Zopp s (Zpos m * 2 ^ (e - e0))
  end.

(** [binary_round] in arithmetic: align to the target exponent when the
    mantissa is short, then round. *)
Definition round_at (s : bool) (m e : Z) : spec_float :=
  let t := fexp (Zdigits2 m + e) in
  if t <? e then round_aux s (m * 2 ^ (e - t)) t else round_aux s m e.

(** The value rounding yields for the integer [m] at a low exponent. *)
Definition rounded_value (m e : Z) : Z :=
  match m with
  | Z0 => 0
  | Zpos _ => Z.min (rounded m e) (2 ^ (emax - e))
  | Zneg _ => - Z.min (rounded (- m) e) (2 ^ (emax - e))
  end.

(** A float that is a number: valid data and not a NaN. *)
Definition number (x : spec_float) : Prop :=
  valid_binary prec emax x = true /\ is_nan x = false.

End FloatFormat.

(** Video devices to run the sweep over [0, 2, ..., 10] on. *)
Definition peak_at_4 : CameraController.Camera :=
  fun f => Some (PyFloat.of_Z (100 - Z.abs (f - 4))).

Definition plateau_4_6 : CameraController.Camera :=
  fun f => Some (if (f =? 4) || (f =? 6) then PyFloat.of_Z 7 else PyFloat.of_Z 3).

Definition flaky : CameraController.Camera :=
  fun f => if f =? 8 then Some PyFloat.zero else None.

(* ===================================================================== *)
(** * The launcher and further vocabulary *)
(* ===================================================================== *)

(** The [__main__] block of [ai_camera_control.py], once the arguments are
    parsed and the detector model is loaded: the controller is built, woken
    up and put in day mode, then the follower runs on the video. *)
Definition main (opened : option Serial) (device_replies : list str)
  (video : option AIFollower.Video) : outcome unit :=
  (CameraController.wake_up ;;
   CameraController.set_mode_day ;;
   AIFollower.run video) (CameraController.init opened device_replies).

(** The bytes of an ASCII text, one per character. *)
Definition raw (s : str) : bytes := map byte_of_N s.

(** The bytes of one protocol line: the text and the terminator. *)
Definition line (s : str) : bytes := raw s ++ [x0d; x0a].

(** The bytes the log says were written: for each [LogOut cmd], the
    encoding of [strip cmd] and the terminator. *)
Definition sent_bytes (entries : list LogEntry) : bytes :=
  flat_map
    (fun entry =>
       match entry with
       | LogOut cmd =>
           match encode (strip cmd ++ CRLF) with
           | Ok data => data
           | Err _ => []
           end
       | _ => []
       end)
    entries.

(** A computation that never touches [self.serial] and whose writes are
    those its new log entries tell, whether it returns or raises. *)
Definition orderly {A} (m : Py A) : Prop :=
  forall w,
    serial (world_of (m w)) = serial w /\
    (exists calls, issued (world_of (m w)) = issued w ++ calls) /\
    exists entries,
      log (world_of (m w)) = log w ++ entries /\
      wire (world_of (m w)) = wire w ++ sent_bytes entries.

(** A text that [strip] leaves alone and that is plain ASCII: it neither
    starts nor ends with whitespace. *)
Definition clean (s : str) : Prop :=
  Forall (fun c => (c < 128)%N) s /\
  match s with [] => True | c :: _ => is_space c = false end /\
  match rev s with [] => True | c :: _ => is_space c = false end.

(** The video device in which a capture of NaN sharpness counts as a
    failed capture. *)
Definition ignore_nan (cap : CameraController.Camera) : CameraController.Camera :=
  fun focus =>
    match cap focus with
    | Some S754_nan => None
    | other => other
    end.

(** The text of the axis command of an operation with a value. *)
Definition axis_lines (axis : string) (value : Z) : bytes :=
  line (lit ("G0 " ++ axis) ++ of_int value) ++ line (lit ("M0 " ++ axis)).

(** The characters of a decimal numeral: the digits and the minus sign. *)
Definition numeral_char (c : N) : Prop := (c = 45 \/ (48 <= c /\ c <= 57))%N.

(** The float [x] is the integer [n], exactly. *)
Definition represents (x : PyFloat.float) (n : Z) : Prop :=
  PyFloat.valid x = true /\ finite_or_zero x = true /\
  value_at PyFloat.emax (SpecFloat.emin PyFloat.prec PyFloat.emax) x = n * 2 ^ 1074.

(** A detection the follower takes for a person, and one it passes over. *)
Definition is_person (box : AIFollower.Box) : Prop :=
  PyFloat.to_int (AIFollower.cls box) = Ok 0.
Definition not_person (box : AIFollower.Box) : Prop :=
  exists c, PyFloat.to_int (AIFollower.cls box) = Ok c /\ c <> 0.

(** The lines of the start-up sequence: [wake_up], then [set_mode_day]. *)
Definition startup_lines : bytes :=
  flat_map (fun cmd => line (lit cmd))
    ["M238"; "M8"; "version"; "M242 A0";
     "M241 A0"; "M240 A50"; "M250 A10"; "M242 A0"]%string.

(** CPython (3.11 and later) refuses to convert to text an [int] of more
    than [sys.int_max_str_digits] digits, 4300 unless configured otherwise:
    the f-string of such a value raises [ValueError].  [of_int] has no
    such limit; a value is printable when it is within it. *)
Definition max_str_digits : Z := 4300.
Definition printable (value : Z) : Prop := Z.abs value < 10 ^ max_str_digits.

(** The value an operation is given, if any, is printable. *)
Definition printable_command (c : ControlCommand) : Prop :=
  match c with
  | SetZoom value | SetFocus value | Pan value | Tilt value => printable value
  | _ => True
  end.

(** The commands an operation sends, in order. *)
Definition commands_of (c : ControlCommand) : list str :=
  match c with
  | WakeUp => [lit "M238"; lit "M8"; lit "version"; lit "M242 A0"]
  | Autofocus =>
      [lit "G91"; lit "M246"; lit "M240 A50"; lit "G0 A30000"; lit "M0 A"]
  | SetZoom value => [lit "G0 A" ++ of_int value; lit "M0 A"]
  | SetFocus value => [lit "G0 B" ++ of_int value; lit "M0 B"]
  | IrOn => [lit "M242 A1"]
  | IrOff => [lit "M242 A0"]
  | ModeDay => [lit "M241 A0"; lit "M240 A50"; lit "M250 A10"; lit "M242 A0"]
  | ModeNight => [lit "M241 A0"; lit "M240 A5"; lit "M250 A40"; lit "M242 A1"]
  | Pan value => [lit "G0 X" ++ of_int value; lit "M0 X"]
  | Tilt value => [lit "G0 Y" ++ of_int value; lit "M0 Y"]
  end.

(** A computation that always returns, leaves [self.serial] alone and
    sends the commands [cmds]: on an open channel it writes their lines
    and takes one reply per line; otherwise it writes and reads nothing. *)
Definition sends {A} (m : Py A) (cmds : list str) : Prop :=
  forall w, exists a w',
    m w = Returns a w' /\ serial w' = serial w /\
    (channel_open w ->
     wire w' = wire w ++ flat_map line cmds /\
     replies w' = skipn (List.length cmds) (replies w)) /\
    (~ channel_open w -> wire w' = wire w /\ replies w' = replies w).

(* ===================================================================== *)
(** * The command channel *)
(* ===================================================================== *)

Section Channel.

Import CameraController.

Lemma send_command_closed (cmd : str) (w : World) :
    channel_closed w ->
    send_command cmd w =
      Returns None {| serial := None; wire := wire w; replies := replies w;
                      log := log w ++ [LogNotOpen]; issued := issued w |}.
  Proof.
    unfold channel_closed. destruct w as [s wi re lo iss]; cbn.
    intros ->. reflexivity.
  Qed.

Lemma send_command_open (cmd : str) (w : World) :
    channel_open w ->
    send_command cmd w =
      match encode (strip cmd ++ CRLF) with
      | Ok data =>
          Returns (Some (strip (hd [] (replies w))))
            {| serial := serial w; wire := wire w ++ data;
               replies := tl (replies w);
               log := log w ++ [LogOut cmd] ++ [LogIn (strip (hd [] (replies w)))];
               issued := issued w |}
      | Err e => Raises e w
      end.
  Proof.
    unfold channel_open. destruct w as [s wi re lo iss]; cbn.
    intros ->. unfold send_command; cbn.
    destruct (encode (strip cmd ++ CRLF)); cbn.
    - rewrite <- app_assoc. reflexivity.
    - reflexivity.
  Qed.

End Channel.

(* ===================================================================== *)
(** * Strings: stripping and encoding *)
(* ===================================================================== *)

Section Strings.

Lemma to_N_byte_of_N (n : N) : (n < 256)%N -> Byte.to_N (byte_of_N n) = n.
  Proof.
    intros Hn. unfold byte_of_N.
    destruct (Byte.of_N n) as [b|] eqn:E.
    - now apply Byte.to_of_N.
    - apply Byte.of_N_None_iff in E. lia.
  Qed.



Lemma encode_app (a b : str) :
    encode (a ++ b) = (x <- encode a ;; y <- encode b ;; ret (x ++ y)).
  Proof.
    induction a as [|c a IH]; cbn.
    - destruct (encode b); reflexivity.
    - destruct (encode_char c) as [bs|]; [|reflexivity].
      rewrite IH. cbn.
      destruct (encode a); cbn; [|reflexivity].
      destruct (encode b); cbn; [|reflexivity].
      now rewrite app_assoc.
  Qed.

Lemma encode_CRLF : encode CRLF = Ok [x0d; x0a].
  Proof. reflexivity. Qed.

  (** The bytes of [strip cmd + "\r\n"]. *)
Lemma encode_terminated (s : str) :
    encode (s ++ CRLF) =
      match encode s with
      | Ok body => Ok (body ++ [x0d; x0a])
      | Err e => Err e
      end.
  Proof.
    rewrite encode_app, encode_CRLF. cbn. destruct (encode s); reflexivity.
  Qed.

Lemma lstrip_head (s : str) :
    lstrip s = [] \/ exists c r, lstrip s = c :: r /\ is_space c = false.
  Proof.
    induction s as [|c s IH]; cbn; [now left|].
    destruct (is_space c) eqn:E; [exact IH|].
    right. now exists c, s.
  Qed.

Lemma lstrip_app (a b : str) :
    lstrip (a ++ b) = match lstrip a with [] => lstrip b | _ => lstrip a ++ b end.
  Proof.
    induction a as [|c a IH]; cbn; [reflexivity|].
    destruct (is_space c); [exact IH | reflexivity].
  Qed.

Lemma lstrip_blank (s : str) : blank s -> lstrip s = [].
  Proof.
    induction 1 as [|c s Hc _ IH]; cbn; [reflexivity|].
    now rewrite Hc.
  Qed.

Lemma blank_rev (s : str) : blank s -> blank (rev s).
  Proof. unfold blank. apply Forall_rev. Qed.

Lemma rstrip_blank (s : str) : blank s -> rstrip s = [].
  Proof.
    intros H. unfold rstrip. now rewrite lstrip_blank by now apply blank_rev.
  Qed.

Lemma rstrip_app (a b : str) :
    rstrip (a ++ b) = match rstrip b with [] => rstrip a | _ => a ++ rstrip b end.
  Proof.
    unfold rstrip. rewrite rev_app_distr, lstrip_app.
    destruct (lstrip (rev b)) as [|c r] eqn:E; cbn; [reflexivity|].
    destruct (rev r ++ [c]) eqn:E2.
    - now destruct (rev r).
    - rewrite <- E2. rewrite rev_app_distr, rev_involutive. cbn.
      now rewrite <- app_assoc.
  Qed.

Lemma rstrip_last (s : str) :
    rstrip s = [] \/ exists p c, rstrip s = p ++ [c] /\ is_space c = false.
  Proof.
    unfold rstrip.
    destruct (lstrip_head (rev s)) as [->|(c & r & -> & Hc)]; [now left|].
    right. exists (rev r), c. cbn. now split.
  Qed.

  (** Whitespace around a text does not survive [strip]. *)
Lemma strip_surrounded (pre core post : str) :
    blank pre -> blank post -> strip (pre ++ core ++ post) = strip core.
  Proof.
    intros Hpre Hpost. unfold strip.
    rewrite lstrip_app, (lstrip_blank pre Hpre), lstrip_app.
    destruct (lstrip core) as [|c r] eqn:E.
    - now rewrite (lstrip_blank post Hpost).
    - rewrite rstrip_app, (rstrip_blank post Hpost). reflexivity.
  Qed.




End Strings.

Section StripShape.

Lemma lstrip_split (s : str) : exists pre, blank pre /\ s = pre ++ lstrip s.
  Proof.
    induction s as [|c s (pre & Hb & Hs)]; cbn.
    - exists []. split; [constructor|reflexivity].
    - destruct (is_space c) eqn:E.
      + exists (c :: pre). split; [now constructor|]. cbn. now rewrite <- Hs.
      + exists []. split; [constructor|reflexivity].
  Qed.

Lemma rstrip_split (s : str) : exists post, blank post /\ s = rstrip s ++ post.
  Proof.
    unfold rstrip. destruct (lstrip_split (rev s)) as (pre & Hb & Hs).
    exists (rev pre). split; [now apply blank_rev|].
    rewrite <- rev_app_distr, <- Hs. now rewrite rev_involutive.
  Qed.

Lemma rstrip_keeps_head (c : N) (r : str) :
    is_space c = false -> exists r', rstrip (c :: r) = c :: r'.
  Proof.
    intros Hc. destruct (rstrip_split (c :: r)) as (post & Hb & Hs).
    destruct (rstrip (c :: r)) as [|c' r'].
    - cbn in Hs. subst post. inversion Hb; congruence.
    - injection Hs as <- _. now exists r'.
  Qed.

  (** What [strip] does: it removes a blank prefix and a blank suffix, and
      what is left neither starts nor ends with whitespace. *)
Lemma strip_shape (s : str) :
    (exists pre post, blank pre /\ blank post /\ s = pre ++ strip s ++ post) /\
    (strip s = [] \/
     exists a b mid mid', strip s = a :: mid /\ strip s = mid' ++ [b] /\
                          is_space a = false /\ is_space b = false).
  Proof.
    unfold strip. split.
    - destruct (lstrip_split s) as (pre & Hpre & Hs).
      destruct (rstrip_split (lstrip s)) as (post & Hpost & Hl).
      exists pre, post. repeat split; trivial. now rewrite <- Hl.
    - destruct (rstrip_last (lstrip s)) as [E|(p & b & E & Hb)]; [now left|].
      right. destruct (lstrip_head s) as [E0|(a & r & E0 & Ha)].
      + rewrite E0 in E. now destruct p.
      + destruct (rstrip_keeps_head a r Ha) as (r' & Er).
        exists a, b, r', p. rewrite E0 in *. now repeat split.
  Qed.

Lemma encode_error (s : str) (e : PyExc) :
    encode s = Err e -> e = UnicodeEncodeError.
  Proof.
    revert e. induction s as [|c s IH]; cbn; intros e; [discriminate|].
    destruct (encode_char c); [|now intros [= <-]].
    destruct (encode s); cbn; [discriminate|].
    intros [= <-]. now apply IH.
  Qed.

End StripShape.


(** C9. On an open channel the bytes [send_command] writes are the
    encoding of [strip cmd] followed by CR LF, where [strip cmd] is [cmd]
    without its leading and trailing whitespace; two texts that differ only
    in the whitespace around them put the same bytes on the wire. *)
Theorem send_command_writes_stripped (cmd : str) (w : World) :
  channel_open w ->
  (forall body, encode (strip cmd) = Ok body ->
     exists r w', CameraController.send_command cmd w = Returns r w' /\
                  wire w' = wire w ++ body ++ [x0d; x0a]) /\
  (forall e, encode (strip cmd) = Err e ->
     CameraController.send_command cmd w = Raises e w) /\
  (exists pre post, blank pre /\ blank post /\ cmd = pre ++ strip cmd ++ post) /\
  (strip cmd = [] \/
   exists a b mid mid', strip cmd = a :: mid /\ strip cmd = mid' ++ [b] /\
                        is_space a = false /\ is_space b = false) /\
  (forall pre post, blank pre -> blank post ->
     wire (world_of (CameraController.send_command (pre ++ cmd ++ post) w)) =
     wire (world_of (CameraController.send_command cmd w))).
Proof.
  intros Ho. repeat split.
  - intros body E. rewrite (send_command_open cmd w Ho), encode_terminated, E.
    eexists _, _. split; reflexivity.
  - intros e E. now rewrite (send_command_open cmd w Ho), encode_terminated, E.
  - apply strip_shape.
  - apply strip_shape.
  - intros pre post Hpre Hpost.
    rewrite !(send_command_open _ w Ho), (strip_surrounded pre cmd post Hpre Hpost).
    now destruct (encode (strip cmd ++ CRLF)).
Qed.


(** A run of C9. *)
Lemma send_command_writes_stripped_witness :
  channel_open open_world /\
  wire (world_of (CameraController.send_command
                    ([32; 9]%N ++ lit "G0 B100" ++ CRLF) open_world)) =
  wire (world_of (CameraController.send_command (lit "G0 B100") open_world)).
Proof.
  split; [reflexivity|].
  apply (send_command_writes_stripped (lit "G0 B100") open_world); try reflexivity.
  - repeat constructor.
  - repeat constructor.
Defined.

(* ===================================================================== *)
(** * A closed channel stays closed *)
(* ===================================================================== *)

Section Closed.

Import CameraController.

Lemma inert_ret {A} (a : A) : inert (ret a : Py A).
Proof. intros w Hc. now split. Qed.

Lemma inert_bind {A B} (m : Py A) (k : A -> Py B) :
  inert m -> (forall a, inert (k a)) -> inert (bind m k).
Proof.
  intros Hm Hk w Hc. specialize (Hm w Hc). cbn in *.
  destruct (m w) as [a w'|e w']; cbn in *.
  - destruct Hm as [Hc' Hw]. destruct (Hk a w' Hc') as [H1 H2].
    split; [exact H1 | congruence].
  - exact Hm.
Qed.

Lemma inert_lift {A} (r : result A) : inert (lift r).
Proof. intros w Hc. unfold lift. destruct r; now split. Qed.

Lemma inert_log (e : LogEntry) : inert (_log e).
Proof. intros w Hc. now split. Qed.

Lemma inert_note (c : ControlCommand) : inert (note c).
Proof. intros w Hc. now split. Qed.

Lemma inert_send_command (cmd : str) : inert (send_command cmd).
Proof. intros w Hc. rewrite (send_command_closed cmd w Hc). now split. Qed.

Lemma inert_if {A} (b : bool) (m1 m2 : Py A) :
  inert m1 -> inert m2 -> inert (if b then m1 else m2).
Proof. now destruct b. Qed.

Ltac inert_tac :=
  repeat match goal with
    | |- inert (send_command _) => apply inert_send_command
    | |- inert (ret _) => apply inert_ret
    | |- inert (lift _) => apply inert_lift
    | |- inert (_log _) => apply inert_log
    | |- inert (note _) => apply inert_note
    | |- inert (bind _ _) => apply inert_bind; [|intros ?]
    | |- inert (if _ then _ else _) => apply inert_if
    | |- inert ir_on => unfold ir_on
    | |- inert ir_off => unfold ir_off
    end.

Lemma inert_perform (c : ControlCommand) : inert (perform c).
Proof.
  destruct c; cbn [perform];
    unfold wake_up, autofocus, set_zoom, set_focus,
      set_mode_day, set_mode_night, pan, tilt; inert_tac.
Qed.

Lemma inert_sweep (cap : Camera) (candidates : list Z) (best : Best) :
  inert (sweep cap candidates best).
Proof.
  revert best. induction candidates as [|f rest IH]; intros best; cbn [sweep].
  - apply inert_ret.
  - apply inert_bind; [apply (inert_perform (SetFocus f))|intros _].
    destruct (cap f); [|apply IH].
    apply inert_bind; [apply inert_log|intros _].
    apply inert_if; apply IH.
Qed.

Lemma inert_autofocus_loop video lo hi step :
  inert (autofocus_loop video lo hi step).
Proof.
  unfold autofocus_loop. destruct video as [cap|]; [|apply inert_log].
  apply inert_bind; [apply inert_log|intros _].
  apply inert_bind; [apply inert_lift|intros candidates].
  apply inert_bind; [apply inert_sweep|intros best].
  apply inert_bind; [apply inert_log|intros _].
  apply (inert_perform (SetFocus (fst best))).
Qed.

Lemma inert_follow fw fh person : inert (AIFollower.follow fw fh person).
Proof.
  unfold AIFollower.follow.
  repeat (apply inert_bind; [apply inert_lift|intros ?]).
  apply inert_bind.
  { apply inert_if; [apply (inert_perform (Pan _))|apply inert_ret]. }
  intros _. apply inert_bind.
  { apply inert_if; [apply (inert_perform (Tilt _))|apply inert_ret]. }
  intros _. apply inert_bind; [apply inert_lift|intros ?].
  apply (inert_perform (SetZoom _)).
Qed.

Lemma inert_loop fw fh frames : inert (AIFollower.loop fw fh frames).
Proof.
  induction frames as [|frame rest IH]; cbn [AIFollower.loop].
  - apply inert_ret.
  - apply inert_bind.
    + unfold AIFollower.step.
      apply inert_bind; [apply inert_lift|intros person].
      apply inert_bind; [|intros _; apply inert_ret].
      destruct person; [apply inert_follow|apply inert_ret].
    + intros continue. apply inert_if; [exact IH|apply inert_ret].
Qed.

Lemma inert_invoke (c : Call) : inert (invoke c).
Proof.
  destruct c as [cmd|op|video lo hi step|video]; cbn [invoke].
  - apply inert_bind; [apply inert_send_command|intros _; apply inert_ret].
  - apply inert_perform.
  - apply inert_autofocus_loop.
  - unfold AIFollower.run. destruct video; [apply inert_loop|apply inert_ret].
Qed.

Lemma after_closed (calls : list Call) (w : World) :
  channel_closed w ->
  channel_closed (after calls w) /\ wire (after calls w) = wire w.
Proof.
  unfold after.
  revert w. induction calls as [|c calls IH]; intros w Hc; cbn [fold_left].
  - now split.
  - destruct (inert_invoke c w Hc) as [Hc' Hw].
    destruct (IH _ Hc') as [H1 H2]. split; [exact H1|].
    now rewrite H2.
Qed.

End Closed.

(** C3. A controller whose serial port failed to open starts with a closed
    channel; whatever calls are made on it afterwards, the channel is still
    closed and the device has received nothing, and a send then returns
    [None] without raising, writes no byte and leaves the channel closed. *)
Theorem closed_channel_is_permanent
  (device_replies : list str) (calls : list Call) (cmd : str) :
  let w := after calls (CameraController.init None device_replies) in
  channel_closed w /\ wire w = [] /\
  exists w', CameraController.send_command cmd w = Returns None w' /\
             channel_closed w' /\ wire w' = wire w /\ issued w' = issued w.
Proof.
  cbn zeta.
  destruct (after_closed calls (CameraController.init None device_replies))
    as [Hc Hw]; [reflexivity|].
  repeat split; trivial.
  eexists. split; [apply send_command_closed; exact Hc|].
  now repeat split.
Qed.

(* ===================================================================== *)
(** * The actuator operations always go through *)
(* ===================================================================== *)

Section Steps.

Import CameraController.

Lemma plain_lit (s : string) : plain (lit s).
Proof.
  unfold plain, lit. apply Forall_map, Forall_forall. intros a _.
  pose proof (N_ascii_bounded a). lia.
Qed.

Lemma plain_app (a b : str) : plain a -> plain b -> plain (a ++ b).
Proof. unfold plain. intros. now apply Forall_app. Qed.

Lemma plain_lstrip (s : str) : plain s -> plain (lstrip s).
Proof.
  unfold plain. induction 1 as [|c s Hc Hs IH]; cbn; [constructor|].
  destruct (is_space c); [exact IH|now constructor].
Qed.

Lemma plain_strip (s : str) : plain s -> plain (strip s).
Proof.
  intros H. unfold strip, rstrip.
  apply Forall_rev, plain_lstrip, Forall_rev, plain_lstrip, H.
Qed.

Lemma encode_plain (s : str) : plain s -> exists data, encode s = Ok data.
Proof.
  unfold plain. induction 1 as [|c s Hc Hs (data & IH)]; cbn.
  - now exists [].
  - assert (exists bs, encode_char c = Some bs) as (bs & ->).
    { unfold encode_char.
      destruct (c <? 128)%N; [eauto|].
      destruct (c <? 2048)%N; [eauto|].
      destruct (N.leb_spec 55296 c); [lia|]. cbn.
      destruct (c <? 65536)%N; [eauto|].
      destruct (N.ltb_spec c 1114112); [eauto|lia]. }
    rewrite IH. cbn. eauto.
Qed.

Lemma send_command_not_open (cmd : str) (w : World) :
  serial w <> Some {| is_open := true |} ->
  send_command cmd w =
    Returns None {| serial := serial w; wire := wire w; replies := replies w;
                    log := log w ++ [LogNotOpen]; issued := issued w |}.
Proof.
  destruct w as [s wi re lo iss]; cbn. intros Hs.
  unfold send_command; cbn.
  destruct s as [[[|]]|]; try reflexivity. now contradiction Hs.
Qed.

Lemma steps_ret {A} (a : A) : steps (ret a : Py A) [].
Proof.
  intros w. exists a, w. rewrite app_nil_r. repeat split.
  exists []. now rewrite app_nil_r.
Qed.

Lemma steps_bind {A B} (m : Py A) (k : A -> Py B) (c1 c2 : list ControlCommand) :
  steps m c1 -> (forall a, steps (k a) c2) -> steps (bind m k) (c1 ++ c2).
Proof.
  intros Hm Hk w. destruct (Hm w) as (a & w1 & E1 & S1 & I1 & l1 & L1).
  destruct (Hk a w1) as (b & w2 & E2 & S2 & I2 & l2 & L2).
  exists b, w2. cbn. rewrite E1. repeat split; trivial.
  - congruence.
  - now rewrite I2, I1, app_assoc.
  - exists (l1 ++ l2). now rewrite L2, L1, app_assoc.
Qed.

Lemma steps_log (e : LogEntry) : steps (_log e) [].
Proof.
  intros w. eexists _, _. split; [reflexivity|]. cbn. rewrite app_nil_r.
  repeat split. now exists [e].
Qed.

Lemma steps_note (c : ControlCommand) : steps (note c) [c].
Proof.
  intros w. eexists _, _. split; [reflexivity|]. cbn.
  repeat split. exists []. now rewrite app_nil_r.
Qed.

Lemma steps_send_command (cmd : str) : plain cmd -> steps (send_command cmd) [].
Proof.
  intros Hp w.
  destruct (encode_plain (strip cmd ++ CRLF)) as (data & E).
  { apply plain_app; [now apply plain_strip|]. repeat constructor. }
  destruct (serial w) as [[[|]]|] eqn:Es.
  - rewrite (send_command_open cmd w Es), E.
    eexists _, _. split; [reflexivity|]. cbn. rewrite app_nil_r.
    split; [congruence|]. split; [reflexivity|]. eexists. reflexivity.
  - rewrite send_command_not_open by congruence.
    eexists _, _. split; [reflexivity|]. cbn. rewrite app_nil_r.
    split; [congruence|]. split; [reflexivity|]. eexists. reflexivity.
  - rewrite send_command_not_open by congruence.
    eexists _, _. split; [reflexivity|]. cbn. rewrite app_nil_r.
    split; [congruence|]. split; [reflexivity|]. eexists. reflexivity.
Qed.

Lemma plain_command (prefix : string) (value : Z) :
  plain (lit prefix ++ of_int value).
Proof. apply plain_app; apply plain_lit. Qed.

(** An operation that sends two plain commands makes exactly one call. *)
Lemma steps_two_commands (c : ControlCommand) (cmd1 cmd2 : str) :
  plain cmd1 -> plain cmd2 ->
  steps (note c ;; send_command cmd1 ;; send_command cmd2 ;; ret tt) [c].
Proof.
  intros H1 H2.
  change [c] with ([c] ++ [] ++ [] ++ []).
  apply steps_bind; [apply steps_note|intros _].
  apply steps_bind; [now apply steps_send_command|intros _].
  apply steps_bind; [now apply steps_send_command|intros _].
  apply steps_ret.
Qed.

Lemma steps_set_focus (value : Z) : steps (set_focus value) [SetFocus value].
Proof. apply steps_two_commands; [apply plain_command|apply plain_lit]. Qed.

Lemma steps_set_zoom (value : Z) : steps (set_zoom value) [SetZoom value].
Proof. apply steps_two_commands; [apply plain_command|apply plain_lit]. Qed.

Lemma steps_pan (value : Z) : steps (pan value) [Pan value].
Proof. apply steps_two_commands; [apply plain_command|apply plain_lit]. Qed.

Lemma steps_tilt (value : Z) : steps (tilt value) [Tilt value].
Proof. apply steps_two_commands; [apply plain_command|apply plain_lit]. Qed.

(** The sweep commands every candidate in turn and returns what [scan]
    computes. *)
Lemma sweep_scan (cap : Camera) (candidates : list Z) (best : Best) (w : World) :
  exists w',
    sweep cap candidates best w = Returns (scan cap candidates best) w' /\
    serial w' = serial w /\
    issued w' = issued w ++ map SetFocus candidates.
Proof.
  revert best w. induction candidates as [|f rest IH]; intros best w.
  - exists w. cbn. now rewrite app_nil_r.
  - cbn [sweep scan map].
    destruct (steps_set_focus f w) as ([] & w1 & E1 & S1 & I1 & _).
    cbn [bind Monad_Py]. rewrite E1.
    destruct (cap f) as [value|].
    + cbn.
      set (w2 := {| serial := serial w1; wire := wire w1; replies := replies w1;
                    log := log w1 ++ [LogSample f value]; issued := issued w1 |}).
      destruct (PyFloat.gtb value (snd best)).
      * destruct (IH (f, value) w2) as (w' & E & S & I).
        exists w'. split; [exact E|]. split; [now rewrite S, <- S1|].
        rewrite I. cbn. rewrite I1, <- app_assoc. reflexivity.
      * destruct (IH best w2) as (w' & E & S & I).
        exists w'. split; [exact E|]. split; [now rewrite S, <- S1|].
        rewrite I. cbn. rewrite I1, <- app_assoc. reflexivity.
    + destruct (IH best w1) as (w' & E & S & I).
      exists w'. split; [exact E|]. split; [congruence|].
      rewrite I, I1, <- app_assoc. reflexivity.
Qed.

(** The whole of [autofocus_loop] on an opened video device: it sweeps the
    candidates of the range, reports the best of them and commands it. *)
Lemma autofocus_loop_trace (cap : Camera) (lo hi step : Z)
  (candidates : list Z) (w : World) :
  py_range lo (hi + 1) step = Ok candidates ->
  let best := scan cap candidates (lo, PyFloat.lit_neg_1_0) in
  exists w',
    autofocus_loop (Some cap) lo hi step w = Returns tt w' /\
    serial w' = serial w /\
    issued w' = issued w ++ map SetFocus candidates ++ [SetFocus (fst best)] /\
    In (LogBest (fst best) (snd best)) (log w').
Proof.
  intros Hr best. unfold autofocus_loop. cbn [bind Monad_Py].
  cbn [_log]. rewrite Hr. cbn [lift].
  match goal with |- context [sweep cap candidates ?b ?w1] =>
    destruct (sweep_scan cap candidates b w1) as (w2 & E2 & S2 & I2) end.
  rewrite E2. fold best. cbn [_log].
  match goal with |- context [set_focus (fst best) ?w3] =>
    destruct (steps_set_focus (fst best) w3) as ([] & w4 & E4 & S4 & I4 & l & L4) end.
  exists w4. split; [exact E4|]. cbn in S4, I4, L4, S2, I2.
  repeat split.
  - congruence.
  - now rewrite I4, I2, <- app_assoc.
  - rewrite L4. apply in_or_app. left. apply in_or_app. right. now left.
Qed.

End Steps.

(* ===================================================================== *)
(** * The order of floats *)
(* ===================================================================== *)

Section FloatOrder.

Ltac cmp_cases :=
  repeat match goal with
    | |- context [Pos.compare_cont Eq ?a ?b] =>
        change (Pos.compare_cont Eq a b) with (Pos.compare a b)
    | H : context [Pos.compare_cont Eq ?a ?b] |- _ =>
        change (Pos.compare_cont Eq a b) with (Pos.compare a b) in H
    end;
  repeat match goal with
    | |- context [Z.compare ?a ?b] => destruct (Z.compare_spec a b)
    | H : context [Z.compare ?a ?b] |- _ => destruct (Z.compare_spec a b)
    | |- context [Pos.compare ?a ?b] => destruct (Pos.compare_spec a b)
    | H : context [Pos.compare ?a ?b] |- _ => destruct (Pos.compare_spec a b)
    end;
  cbn in *; subst; try congruence; try lia.

Lemma SFcompare_antisym (a b : spec_float) (c : comparison) :
  SFcompare a b = Some c -> SFcompare b a = Some (CompOpp c).
Proof.
  destruct a as [sa|sa| |sa ma ea], b as [sb|sb| |sb mb eb]; cbn;
    try destruct sa; try destruct sb; cbn; intros [= <-]; try reflexivity;
    cmp_cases.
Qed.

Lemma SFcompare_refl (a : spec_float) : a <> S754_nan -> SFcompare a a = Some Eq.
Proof.
  destruct a as [sa|sa| |sa ma ea]; cbn; intros H; try congruence;
    try destruct sa; try reflexivity; cmp_cases.
Qed.

Lemma SFcompare_some (a b : spec_float) :
  a <> S754_nan -> b <> S754_nan -> exists c, SFcompare a b = Some c.
Proof.
  destruct a, b; cbn; intros; try congruence; eauto.
Qed.

Lemma SFcompare_trans (a b c : spec_float) (c1 c2 : comparison) :
  SFcompare a b = Some c1 -> SFcompare b c = Some c2 ->
  c1 <> Gt -> c2 <> Gt ->
  SFcompare a c = Some (match c1, c2 with Eq, Eq => Eq | _, _ => Lt end).
Proof.
  destruct a as [sa|sa| |sa ma ea], b as [sb|sb| |sb mb eb],
    c as [sc|sc| |sc mc ec]; cbn;
    try destruct sa; try destruct sb; try destruct sc; cbn;
    intros [= <-] [= <-] H1 H2; try congruence; try reflexivity;
    cmp_cases.
Qed.

End FloatOrder.

Section Sharpness.

Lemma leb_refl (v : PyFloat.float) : is_variance v -> PyFloat.leb v v = true.
Proof.
  unfold is_variance, PyFloat.leb, SFleb. intros H.
  rewrite SFcompare_refl; [reflexivity|]. intros ->. discriminate.
Qed.

Lemma variance_beats_sentinel (v : PyFloat.float) :
  is_variance v -> PyFloat.gtb v PyFloat.lit_neg_1_0 = true.
Proof.
  unfold is_variance, PyFloat.leb, PyFloat.gtb, SFleb, SFltb.
  destruct v as [s|s| |s m e]; cbn; try discriminate; try reflexivity;
    destruct s; cbn; try discriminate; reflexivity.
Qed.

(** Among variances the order is total. *)
Lemma not_gtb_leb (v b : PyFloat.float) :
  is_variance v -> PyFloat.leb b b = true ->
  PyFloat.gtb v b = false -> PyFloat.leb v b = true.
Proof.
  unfold is_variance, PyFloat.leb, PyFloat.gtb, SFleb, SFltb. intros Hv Hb.
  destruct (SFcompare_some b v) as (c & Hc).
  { intros ->. discriminate. }
  { intros ->. discriminate. }
  rewrite Hc, (SFcompare_antisym b v c Hc). now destruct c.
Qed.

Lemma leb_gtb_trans (u b v : PyFloat.float) :
  PyFloat.leb u b = true -> PyFloat.gtb v b = true -> PyFloat.leb u v = true.
Proof.
  unfold PyFloat.leb, PyFloat.gtb, SFleb, SFltb.
  destruct (SFcompare u b) as [c1|] eqn:E1; [|discriminate].
  destruct (SFcompare b v) as [c2|] eqn:E2; [|discriminate].
  intros H1 H2.
  rewrite (SFcompare_trans u b v c1 c2 E1 E2).
  - now destruct c1, c2.
  - now destruct c1.
  - now destruct c2.
Qed.

Lemma leb_not_gtb (v b : PyFloat.float) :
  PyFloat.leb v b = true -> PyFloat.gtb v b = false.
Proof.
  unfold PyFloat.leb, PyFloat.gtb, SFleb, SFltb.
  destruct (SFcompare v b) as [c|] eqn:E; [|discriminate].
  rewrite (SFcompare_antisym v b c E). now destruct c.
Qed.

Lemma leb_neq_ltb (v b : PyFloat.float) :
  PyFloat.leb v b = true -> PyFloat.eqb v b = false -> PyFloat.ltb v b = true.
Proof.
  unfold PyFloat.leb, PyFloat.eqb, PyFloat.ltb, SFleb, SFeqb, SFltb.
  now destruct (SFcompare v b) as [[]|].
Qed.

Variable cap : CameraController.Camera.

(** Once a capture is the best, the rest of the sweep keeps a best that
    dominates everything seen. *)
Lemma scan_dominates (candidates seen : list Z) (best : CameraController.Best) :
  (forall f v, In f candidates -> cap f = Some v -> is_variance v) ->
  PyFloat.leb (snd best) (snd best) = true ->
  dominates cap seen best ->
  dominates cap (seen ++ candidates) (scan cap candidates best).
Proof.
  revert seen best.
  induction candidates as [|f rest IH]; intros seen best Hvar Hb Hd; cbn [scan].
  - now rewrite app_nil_r.
  - change (f :: rest) with ([f] ++ rest). rewrite app_assoc.
    assert (forall f' v, In f' rest -> cap f' = Some v -> is_variance v) as Hvar'.
    { intros f' v Hin. apply Hvar. now right. }
    destruct Hd as (Hcap & Hin & Hmax).
    destruct (cap f) as [v|] eqn:Ef.
    + assert (is_variance v) as Hv by (apply (Hvar f); [now left|exact Ef]).
      destruct (PyFloat.gtb v (snd best)) eqn:Eg.
      * apply IH; trivial; [now apply leb_refl|].
        repeat split; cbn [fst snd]; trivial.
        { apply in_or_app. right. now left. }
        intros g u Hg Hu. apply in_app_or in Hg as [Hg|[<-|[]]].
        -- apply (leb_gtb_trans u (snd best) v); [now apply (Hmax g)|exact Eg].
        -- rewrite Ef in Hu. injection Hu as <-. now apply leb_refl.
      * apply IH; trivial.
        repeat split; trivial.
        { apply in_or_app. now left. }
        intros g u Hg Hu. apply in_app_or in Hg as [Hg|[<-|[]]].
        -- now apply (Hmax g).
        -- rewrite Ef in Hu. injection Hu as <-. now apply not_gtb_leb.
    + apply IH; trivial.
      repeat split; trivial.
      { apply in_or_app. now left. }
      intros g u Hg Hu. apply in_app_or in Hg as [Hg|[<-|[]]].
      * now apply (Hmax g).
      * congruence.
Qed.

(** From the sentinel: as soon as one capture succeeds, the best is a
    capture that dominates. *)
Lemma scan_from_sentinel (candidates seen : list Z) (lo : Z) :
  (forall f v, In f candidates -> cap f = Some v -> is_variance v) ->
  (forall g, In g seen -> cap g = None) ->
  (exists f v, In f candidates /\ cap f = Some v) ->
  dominates cap (seen ++ candidates)
    (scan cap candidates (lo, PyFloat.lit_neg_1_0)).
Proof.
  revert seen.
  induction candidates as [|f rest IH]; intros seen Hvar Hseen (f0 & v0 & Hin0 & E0).
  - destruct Hin0.
  - cbn [scan]. change (f :: rest) with ([f] ++ rest). rewrite app_assoc.
    assert (forall f' v, In f' rest -> cap f' = Some v -> is_variance v) as Hvar'.
    { intros f' v Hin. apply Hvar. now right. }
    destruct (cap f) as [v|] eqn:Ef.
    + assert (is_variance v) as Hv by (apply (Hvar f); [now left|exact Ef]).
      cbn [snd]. rewrite (variance_beats_sentinel v Hv).
      apply scan_dominates; trivial; [now apply leb_refl|].
      repeat split; cbn [fst snd]; trivial.
      { apply in_or_app. right. now left. }
      intros g u Hg Hu. apply in_app_or in Hg as [Hg|[<-|[]]].
      * rewrite (Hseen g Hg) in Hu. discriminate.
      * rewrite Ef in Hu. injection Hu as <-. now apply leb_refl.
    + apply IH; trivial.
      * intros g Hg. apply in_app_or in Hg as [Hg|[<-|[]]]; [now apply Hseen|exact Ef].
      * destruct Hin0 as [<-|Hin0]; [congruence|]. now exists f0, v0.
Qed.

(** No capture: the best is untouched. *)
Lemma scan_no_capture (candidates : list Z) (best : CameraController.Best) :
  (forall f, In f candidates -> cap f = None) ->
  scan cap candidates best = best.
Proof.
  induction candidates as [|f rest IH]; intros Hnone; cbn [scan]; [reflexivity|].
  rewrite (Hnone f) by now left. apply IH. intros g Hg. apply Hnone. now right.
Qed.

(** The first of the sharpest captures wins. *)
Lemma scan_first_sharpest (before later : list Z) (fstar : Z)
  (vstar : PyFloat.float) (best : CameraController.Best) :
  cap fstar = Some vstar ->
  PyFloat.gtb vstar (snd best) = true ->
  (forall f v, In f before -> cap f = Some v -> PyFloat.ltb v vstar = true) ->
  (forall f v, In f later -> cap f = Some v -> PyFloat.leb v vstar = true) ->
  scan cap (before ++ fstar :: later) best = (fstar, vstar).
Proof.
  intros Estar. revert best.
  induction before as [|f rest IH]; intros best Hgt Hbefore Hlater; cbn [app scan].
  - rewrite Estar, Hgt. clear Hgt Hbefore.
    induction later as [|f rest IH]; cbn [scan]; [reflexivity|].
    assert (forall f v, In f rest -> cap f = Some v -> PyFloat.leb v vstar = true)
      as Hrest by (intros g u Hg; apply Hlater; now right).
    destruct (cap f) as [v|] eqn:Ef; [|now apply IH].
    cbn [snd]. rewrite (leb_not_gtb v vstar); [now apply IH|].
    apply (Hlater f); [now left|exact Ef].
  - assert (forall f v, In f rest -> cap f = Some v -> PyFloat.ltb v vstar = true)
      as Hrest by (intros g u Hg; apply Hbefore; now right).
    destruct (cap f) as [v|] eqn:Ef; [|now apply IH].
    destruct (PyFloat.gtb v (snd best)); [|now apply IH].
    apply IH; trivial. cbn [snd]. apply (Hbefore f); [now left|exact Ef].
Qed.

End Sharpness.

(* ===================================================================== *)
(** * The candidates of the sweep *)
(* ===================================================================== *)

Section Grid.

Variables lo hi step : Z.
Hypothesis step_pos : 0 < step.

Lemma py_range_grid : py_range lo (hi + 1) step = Ok (grid lo hi step).
Proof.
  unfold py_range, grid.
  destruct (Z.eqb_spec step 0); [lia|].
  destruct (Z.ltb_spec 0 step); [reflexivity|lia].
Qed.

(** The number of candidates: index [k] is one exactly when
    [lo + k * step] does not exceed [hi]. *)
Lemma range_len_spec (k : Z) :
  0 <= k ->
  (Z.to_nat k < range_len lo (hi + 1) step)%nat <-> lo + k * step <= hi.
Proof.
  intros Hk. unfold range_len.
  destruct (Z.ltb_spec lo (hi + 1)) as [H|H].
  - replace (hi + 1 - lo - 1) with (hi - lo) by lia.
    pose proof (Z.div_pos (hi - lo) step ltac:(lia) step_pos) as Hq.
    pose proof (Z.mul_div_le (hi - lo) step step_pos) as Hle.
    pose proof (Z.mul_succ_div_gt (hi - lo) step step_pos) as Hgt.
    split; intros Hlt.
    + assert (k <= (hi - lo) / step) by lia. nia.
    + assert (k <= (hi - lo) / step) by nia. lia.
  - split; [cbn; lia|]. intros. nia.
Qed.

Lemma in_grid (f : Z) :
  In f (grid lo hi step) <->
  exists k, 0 <= k /\ f = lo + k * step /\ f <= hi.
Proof.
  unfold grid. rewrite in_map_iff. split.
  - intros (i & <- & Hi). apply in_seq in Hi.
    exists (Z.of_nat i). repeat split; [lia|].
    apply range_len_spec; [lia|]. rewrite Nat2Z.id. lia.
  - intros (k & Hk & -> & Hle). exists (Z.to_nat k).
    split; [now rewrite Z2Nat.id|].
    apply in_seq. apply range_len_spec in Hle; lia.
Qed.

Lemma affine_sorted (start n : nat) :
  StronglySorted Z.lt (map (fun i => lo + Z.of_nat i * step) (seq start n)).
Proof.
  revert start. induction n as [|n IH]; intros start; cbn; constructor.
  - apply IH.
  - apply Forall_forall. intros f Hf. apply in_map_iff in Hf as (i & <- & Hi).
    apply in_seq in Hi. nia.
Qed.

Lemma grid_sorted : StronglySorted Z.lt (grid lo hi step).
Proof. apply affine_sorted. Qed.

End Grid.

(** A member of a strictly increasing list splits it into the smaller
    members before it and the greater ones after it. *)
Lemma sorted_split (l : list Z) (x : Z) :
  StronglySorted Z.lt l -> In x l ->
  exists before later,
    l = before ++ x :: later /\
    (forall y, In y before -> y < x) /\ (forall y, In y later -> x < y).
Proof.
  induction 1 as [|a l Hs IH Ha]; intros Hin; [destruct Hin|].
  rewrite Forall_forall in Ha.
  destruct (Z.eq_dec a x) as [->|Hne].
  - exists [], l. repeat split; [intros y []|exact Ha].
  - destruct Hin as [->|Hin]; [contradiction|].
    destruct (IH Hin) as (before & later & -> & Hb & Hl).
    exists (a :: before), later. repeat split; trivial.
    intros y [<-|Hy]; [|now apply Hb].
    apply Ha. apply in_or_app. right. now left.
Qed.

(* ===================================================================== *)
(** * The autofocus sweep *)
(* ===================================================================== *)

Lemma py_range_ok (start stop step : Z) :
  step <> 0 -> exists l, py_range start stop step = Ok l.
Proof.
  intros H. unfold py_range. destruct (Z.eqb_spec step 0); [contradiction|eauto].
Qed.

Lemma trace_commits (cap : CameraController.Camera) (lo hi step : Z)
  (candidates : list Z) (w : World) :
  py_range lo (hi + 1) step = Ok candidates ->
  commits (CameraController.autofocus_loop (Some cap) lo hi step w)
          (fst (scan cap candidates (lo, PyFloat.lit_neg_1_0))).
Proof.
  intros Hr.
  destruct (autofocus_loop_trace cap lo hi step candidates w Hr)
    as (w' & E & _ & I & _).
  exists w', (issued w ++ map SetFocus candidates).
  split; [exact E|]. now rewrite I, app_assoc.
Qed.

(** C2. With a positive step the sweep commands, in this order and nothing
    else before the final commit, the focus values [lo], [lo + step], ...
    that do not exceed [hi]: the candidates are exactly the values
    [lo + k * step] with [k >= 0] that are at most [hi], they come in
    increasing order, and [hi] itself is one of them when it lies on the
    grid. *)
Theorem autofocus_sweep_candidates
  (cap : CameraController.Camera) (lo hi step : Z) (w : World) :
  0 < step ->
  (exists w' best,
     CameraController.autofocus_loop (Some cap) lo hi step w = Returns tt w' /\
     issued w' = issued w ++ map SetFocus (grid lo hi step) ++ [SetFocus best]) /\
  (forall f, In f (grid lo hi step) <->
             exists k, 0 <= k /\ f = lo + k * step /\ f <= hi) /\
  StronglySorted Z.lt (grid lo hi step) /\
  (In hi (grid lo hi step) <-> lo <= hi /\ (step | hi - lo)).
Proof.
  intros Hs. repeat split.
  - destruct (autofocus_loop_trace cap lo hi step (grid lo hi step) w
                (py_range_grid lo hi step Hs)) as (w' & E & _ & I & _).
    eauto.
  - now apply in_grid.
  - now apply in_grid.
  - now apply grid_sorted.
  - apply (in_grid lo hi step Hs) in H as (k & Hk & E & _). nia.
  - apply (in_grid lo hi step Hs) in H as (k & Hk & E & _).
    exists k. lia.
  - intros (Hle & k & E). apply (in_grid lo hi step Hs).
    exists k. repeat split; nia.
Qed.


Lemma autofocus_sweep_candidates_witness :
  0 < 2 /\ In 10 (grid 0 10 2) /\ ~ In 9 (grid 0 9 2).
Proof.
  split; [lia|].
  destruct (autofocus_sweep_candidates peak_at_4 0 10 2 open_world ltac:(lia))
    as (_ & _ & _ & H10).
  destruct (autofocus_sweep_candidates peak_at_4 0 9 2 open_world ltac:(lia))
    as (_ & _ & _ & H9).
  split.
  - apply H10. split; [lia|]. exists 5. lia.
  - intros H. apply H9 in H as (_ & k & E). lia.
Defined.

(** C6. When every capture of the sweep fails, the best sample is still
    the initial one, [min_focus] with the sentinel score -1.0, when the
    sweep ends; it is reported as such and [min_focus] is committed. *)
Theorem autofocus_all_captures_fail
  (cap : CameraController.Camera) (lo hi step : Z) (candidates : list Z)
  (w : World) :
  py_range lo (hi + 1) step = Ok candidates ->
  (forall f, In f candidates -> cap f = None) ->
  commits (CameraController.autofocus_loop (Some cap) lo hi step w) lo /\
  In (LogBest lo PyFloat.lit_neg_1_0)
     (log (world_of (CameraController.autofocus_loop (Some cap) lo hi step w))).
Proof.
  intros Hr Hnone.
  pose proof (trace_commits cap lo hi step candidates w Hr) as Hc.
  destruct (autofocus_loop_trace cap lo hi step candidates w Hr)
    as (w' & E & _ & _ & L).
  rewrite (scan_no_capture cap candidates _ Hnone) in Hc, L.
  split; [exact Hc|]. now rewrite E.
Qed.

Lemma autofocus_all_captures_fail_witness :
  commits (CameraController.autofocus_loop (Some (fun _ => None)) 3 9 2 open_world) 3.
Proof.
  refine (proj1 (autofocus_all_captures_fail
                   (fun _ => None) 3 9 2 [3; 5; 7; 9] open_world _ _)).
  - vm_compute. reflexivity.
  - intros f _. reflexivity.
Defined.

(** The sharpest capture commits, when it comes first among its equals. *)
Lemma commits_first_sharpest (cap : CameraController.Camera) (lo hi step : Z)
  (w : World) (fstar : Z) (vstar : PyFloat.float) :
  0 < step ->
  In fstar (grid lo hi step) ->
  cap fstar = Some vstar ->
  is_variance vstar ->
  (forall f v, In f (grid lo hi step) -> cap f = Some v -> f < fstar ->
               PyFloat.ltb v vstar = true) ->
  (forall f v, In f (grid lo hi step) -> cap f = Some v -> fstar < f ->
               PyFloat.leb v vstar = true) ->
  commits (CameraController.autofocus_loop (Some cap) lo hi step w) fstar.
Proof.
  intros Hs Hin Estar Hvar Hbefore Hlater.
  pose proof (trace_commits cap lo hi step _ w (py_range_grid lo hi step Hs)) as Hc.
  destruct (sorted_split _ fstar (grid_sorted lo hi step Hs) Hin)
    as (before & later & Eg & Hb & Hl).
  rewrite Eg in Hc at 1.
  rewrite (scan_first_sharpest cap before later fstar vstar) in Hc; trivial.
  - now apply variance_beats_sentinel.
  - intros f v Hf Ef. apply (Hbefore f); trivial; [|now apply Hb].
    rewrite Eg. apply in_or_app. now left.
  - intros f v Hf Ef. apply (Hlater f); trivial; [|now apply Hl].
    rewrite Eg. apply in_or_app. right. now right.
Qed.

(** C4. When every capture of the sweep succeeds and the sharpness, a
    variance, is strictly greater at one swept focus value than at every
    other one, the search commits that focus value. *)
Theorem autofocus_unique_maximum
  (cap : CameraController.Camera) (sharpness : Z -> PyFloat.float)
  (lo hi step : Z) (w : World) (fstar : Z) :
  0 < step ->
  (forall f, In f (grid lo hi step) -> cap f = Some (sharpness f)) ->
  (forall f, In f (grid lo hi step) -> is_variance (sharpness f)) ->
  In fstar (grid lo hi step) ->
  (forall f, In f (grid lo hi step) -> f <> fstar ->
             PyFloat.ltb (sharpness f) (sharpness fstar) = true) ->
  commits (CameraController.autofocus_loop (Some cap) lo hi step w) fstar.
Proof.
  intros Hs Hcap Hvar Hin Hmax.
  apply (commits_first_sharpest cap lo hi step w fstar (sharpness fstar));
    auto.
  - intros f v Hf Ef Hlt. rewrite (Hcap f Hf) in Ef. injection Ef as <-.
    apply Hmax; [exact Hf|lia].
  - intros f v Hf Ef Hlt. rewrite (Hcap f Hf) in Ef. injection Ef as <-.
    unfold PyFloat.leb, SFleb. specialize (Hmax f Hf ltac:(lia)).
    unfold PyFloat.ltb, SFltb in Hmax.
    now destruct (SFcompare (sharpness f) (sharpness fstar)) as [[]|].
Qed.

(** C5. When several swept focus values attain the maximal sharpness, the
    search commits the lowest of them: no later capture is strictly
    sharper, so none replaces it. *)
Theorem autofocus_tie_break
  (cap : CameraController.Camera) (lo hi step : Z) (w : World)
  (fstar : Z) (vstar : PyFloat.float) :
  0 < step ->
  In fstar (grid lo hi step) ->
  cap fstar = Some vstar ->
  is_variance vstar ->
  (forall f v, In f (grid lo hi step) -> cap f = Some v ->
               PyFloat.leb v vstar = true) ->
  (forall f v, In f (grid lo hi step) -> cap f = Some v -> f < fstar ->
               PyFloat.eqb v vstar = false) ->
  commits (CameraController.autofocus_loop (Some cap) lo hi step w) fstar.
Proof.
  intros Hs Hin Estar Hvar Hmax Hfirst.
  apply (commits_first_sharpest cap lo hi step w fstar vstar); auto.
  - intros f v Hf Ef Hlt. apply leb_neq_ltb; eauto.
  - intros f v Hf Ef _. eauto.
Qed.

(** C10. When at least one capture of the sweep succeeds (captures being
    variances), the committed focus value is a swept one whose capture
    succeeded and no successful capture of the sweep is sharper; the best
    score reported is that capture's and it exceeds the sentinel. *)
Theorem autofocus_commits_sharpest_capture
  (cap : CameraController.Camera) (lo hi step : Z) (w : World) :
  0 < step ->
  (forall f v, In f (grid lo hi step) -> cap f = Some v -> is_variance v) ->
  (exists f v, In f (grid lo hi step) /\ cap f = Some v) ->
  exists f v,
    commits (CameraController.autofocus_loop (Some cap) lo hi step w) f /\
    In f (grid lo hi step) /\ cap f = Some v /\
    (forall g u, In g (grid lo hi step) -> cap g = Some u ->
                 PyFloat.leb u v = true) /\
    In (LogBest f v)
       (log (world_of (CameraController.autofocus_loop (Some cap) lo hi step w))) /\
    PyFloat.gtb v PyFloat.lit_neg_1_0 = true.
Proof.
  intros Hs Hvar Hsome.
  pose proof (py_range_grid lo hi step Hs) as Hr.
  pose proof (trace_commits cap lo hi step _ w Hr) as Hc.
  destruct (autofocus_loop_trace cap lo hi step _ w Hr) as (w' & E & _ & _ & L).
  destruct (scan_from_sentinel cap (grid lo hi step) [] lo Hvar
              ltac:(intros g []) Hsome) as (Hcap & Hin & Hmax).
  cbn [app] in Hin, Hmax.
  set (best := scan cap (grid lo hi step) (lo, PyFloat.lit_neg_1_0)) in *.
  exists (fst best), (snd best). repeat split; trivial.
  - now rewrite E.
  - apply variance_beats_sentinel. now apply (Hvar (fst best)).
Qed.

(** Example video devices for the sweep over [0, 2, ..., 10]. *)


Ltac each_candidate H :=
  vm_compute in H;
  repeat match type of H with
    | _ \/ _ => destruct H as [H|H]
    | False => destruct H
    end;
  subst.

Lemma autofocus_unique_maximum_witness :
  commits (CameraController.autofocus_loop (Some peak_at_4) 0 10 2 open_world) 4.
Proof.
  refine (autofocus_unique_maximum peak_at_4
            (fun f => PyFloat.of_Z (100 - Z.abs (f - 4)))
            0 10 2 open_world 4 _ _ _ _ _).
  - lia.
  - intros f Hf. reflexivity.
  - intros f Hf. each_candidate Hf; vm_compute; reflexivity.
  - vm_compute. tauto.
  - intros f Hf Hne. each_candidate Hf; try contradiction; vm_compute; reflexivity.
Defined.

Lemma autofocus_tie_break_witness :
  commits (CameraController.autofocus_loop (Some plateau_4_6) 0 10 2 open_world) 4.
Proof.
  refine (autofocus_tie_break plateau_4_6 0 10 2 open_world 4 (PyFloat.of_Z 7)
            _ _ _ _ _ _).
  - lia.
  - vm_compute. tauto.
  - reflexivity.
  - vm_compute. reflexivity.
  - intros f v Hf Ef. each_candidate Hf; injection Ef as <-; vm_compute; reflexivity.
  - intros f v Hf Ef Hlt.
    each_candidate Hf; try lia; injection Ef as <-; vm_compute; reflexivity.
Defined.

Lemma autofocus_commits_sharpest_capture_witness :
  exists f v,
    commits (CameraController.autofocus_loop (Some flaky) 0 10 2 open_world) f /\
    In f (grid 0 10 2) /\ flaky f = Some v.
Proof.
  destruct (autofocus_commits_sharpest_capture flaky 0 10 2 open_world)
    as (f & v & Hc & Hin & Ecap & _).
  - lia.
  - intros f v Hf Ef. each_candidate Hf; try discriminate.
    injection Ef as <-. vm_compute. reflexivity.
  - exists 8, PyFloat.zero. split; [vm_compute; tauto|reflexivity].
  - exists f, v. auto.
Defined.

Example flaky_commits_8 :
  commits (CameraController.autofocus_loop (Some flaky) 0 10 2 open_world) 8.
Proof.
  eexists _, _. split; vm_compute; [reflexivity|].
  instantiate (1 := [SetFocus 0; SetFocus 2; SetFocus 4; SetFocus 6;
                     SetFocus 8; SetFocus 10]).
  reflexivity.
Qed.

(* ===================================================================== *)
(** * Rounding is monotone *)
(* ===================================================================== *)

Section Basics.

Lemma digits2_pos_bounds (p : positive) :
  2 ^ (Zpos (digits2_pos p) - 1) <= Zpos p < 2 ^ Zpos (digits2_pos p).
Proof.
  induction p as [p IH|p IH|]; cbn [digits2_pos].
  - rewrite Pos2Z.inj_succ.
    replace (Z.succ (Zpos (digits2_pos p)) - 1) with (Zpos (digits2_pos p) - 1 + 1) by lia.
    rewrite Z.pow_succ_r by lia.
    rewrite Z.pow_add_r by lia. change (2 ^ 1) with 2. lia.
  - rewrite Pos2Z.inj_succ.
    replace (Z.succ (Zpos (digits2_pos p)) - 1) with (Zpos (digits2_pos p) - 1 + 1) by lia.
    rewrite Z.pow_succ_r by lia.
    rewrite Z.pow_add_r by lia. change (2 ^ 1) with 2. lia.
  - cbn. lia.
Qed.

Lemma iter_pos_nat {A} (f : A -> A) (n : positive) (x : A) :
  iter_pos f n x = Nat.iter (Pos.to_nat n) f x.
Proof.
  revert x. induction n as [n IH|n IH|]; intros x; cbn [iter_pos].
  - rewrite !IH, Pos2Nat.inj_xI.
    replace (S (2 * Pos.to_nat n)) with (Pos.to_nat n + (Pos.to_nat n + 1))%nat by lia.
    rewrite !Nat.iter_add. reflexivity.
  - rewrite !IH, Pos2Nat.inj_xO.
    replace (2 * Pos.to_nat n)%nat with (Pos.to_nat n + Pos.to_nat n)%nat by lia.
    rewrite Nat.iter_add. reflexivity.
  - reflexivity.
Qed.

Lemma shr_1_nonneg (m : Z) (r s : bool) :
  0 <= m ->
  shr_1 {| shr_m := m; shr_r := r; shr_s := s |} =
  {| shr_m := m / 2; shr_r := Z.odd m; shr_s := r || s |}.
Proof.
  intros Hm. destruct m as [|p|p]; [reflexivity| |lia].
  destruct p as [p|p|]; cbn [shr_1].
  - f_equal. rewrite Pos2Z.inj_xI.
    apply (Z.div_unique _ _ _ 1); lia.
  - f_equal. rewrite Pos2Z.inj_xO.
    apply (Z.div_unique _ _ _ 0); lia.
  - reflexivity.
Qed.


Lemma mod_pow2_succ (M : Z) (j : nat) :
  M mod 2 ^ Z.of_nat (S j) =
  M mod 2 ^ Z.of_nat j + 2 ^ Z.of_nat j * (if Z.odd (M / 2 ^ Z.of_nat j) then 1 else 0).
Proof.
  rewrite Nat2Z.inj_succ, Z.pow_succ_r by lia.
  rewrite (Z.mul_comm 2), Z.rem_mul_r by lia.
  rewrite Zmod_odd. reflexivity.
Qed.

Lemma shr_1_shifted (M : Z) (k : nat) :
  0 <= M -> shr_1 (shifted M k) = shifted M (S k).
Proof.
  intros HM. unfold shifted at 1.
  rewrite shr_1_nonneg by (apply Z.div_pos; lia).
  unfold shifted. f_equal.
  - rewrite Z.div_div by lia. f_equal.
    rewrite Nat2Z.inj_succ, Z.pow_succ_r by lia. lia.
  - destruct k as [|j]; [cbn; now rewrite Z.mod_1_r|].
    rewrite (mod_pow2_succ M j).
    pose proof (Z.mod_pos_bound M (2 ^ Z.of_nat j) ltac:(lia)) as Hb.
    destruct (Z.odd (M / 2 ^ Z.of_nat j)); cbn [orb].
    + symmetry. apply negb_true_iff, Z.eqb_neq. lia.
    + f_equal. f_equal. lia.
Qed.

Lemma iter_shr_1 (M : Z) (k : nat) :
  0 <= M ->
  Nat.iter k shr_1 {| shr_m := M; shr_r := false; shr_s := false |} = shifted M k.
Proof.
  intros HM. induction k as [|k IH].
  - cbn. unfold shifted. cbn. now rewrite Z.div_1_r.
  - rewrite Nat.iter_succ, IH. now apply shr_1_shifted.
Qed.

End Basics.


Lemma rne_shifted (M : Z) (k : nat) :
  0 <= M ->
  round_nearest_even (shr_m (shifted M k)) (loc_of_shr_record (shifted M k)) =
  rne M (Z.of_nat k).
Proof.
  intros HM. unfold rne. destruct k as [|j].
  - cbn. now rewrite Z.mod_1_r.
  - rewrite (mod_pow2_succ M j).
    assert (2 ^ Z.of_nat (S j) = 2 * 2 ^ Z.of_nat j) as EP
      by (rewrite Nat2Z.inj_succ, Z.pow_succ_r; lia).
    pose proof (Z.mod_pos_bound M (2 ^ Z.of_nat j) ltac:(lia)) as Hb.
    unfold shifted, loc_of_shr_record, round_nearest_even. cbn [shr_m shr_r shr_s].
    cbv zeta. set (q := M / 2 ^ Z.of_nat (S j)). rewrite EP.
    change (IntDef.Z.even q) with (Z.even q).
    set (P := 2 ^ Z.of_nat j) in *. set (r := M mod P) in *.
    destruct (Z.odd (M / P)).
    + destruct (Z.eqb_spec r 0) as [E|E]; cbn [negb].
      * destruct (Z.compare_spec (2 * (r + P * 1)) (2 * P)); lia || reflexivity.
      * destruct (Z.compare_spec (2 * (r + P * 1)) (2 * P)); lia || reflexivity.
    + destruct (Z.compare_spec (2 * (r + P * 0)) (2 * P)); try lia;
        now destruct (negb _).
Qed.

Lemma rne_bounds (M n : Z) :
  0 <= n -> M / 2 ^ n <= rne M n <= M / 2 ^ n + 1.
Proof.
  intros Hn. unfold rne.
  destruct (2 * (M mod 2 ^ n) ?= 2 ^ n); [destruct (Z.even _)| |]; lia.
Qed.

Lemma rne_exact (M n : Z) : 0 <= n -> M mod 2 ^ n = 0 -> rne M n = M / 2 ^ n.
Proof.
  intros Hn E. unfold rne. rewrite E.
  assert (0 < 2 ^ n) by (apply Z.pow_pos_nonneg; lia).
  destruct (Z.compare_spec (2 * 0) (2 ^ n)); lia || reflexivity.
Qed.

Lemma rne_mono (M1 M2 n : Z) : 0 <= n -> M1 <= M2 -> rne M1 n <= rne M2 n.
Proof.
  intros Hn HM.
  assert (0 < 2 ^ n) as Hp by (apply Z.pow_pos_nonneg; lia).
  pose proof (Z.div_le_mono M1 M2 (2 ^ n) Hp HM) as Hq.
  destruct (Z.eq_dec (M1 / 2 ^ n) (M2 / 2 ^ n)) as [E|E].
  - pose proof (Z.div_mod M1 (2 ^ n) ltac:(lia)) as D1.
    pose proof (Z.div_mod M2 (2 ^ n) ltac:(lia)) as D2.
    assert (M1 mod 2 ^ n <= M2 mod 2 ^ n) as Hr by (rewrite E in D1; lia).
    unfold rne. rewrite E.
    destruct (Z.compare_spec (2 * (M1 mod 2 ^ n)) (2 ^ n));
      destruct (Z.compare_spec (2 * (M2 mod 2 ^ n)) (2 ^ n));
      try destruct (Z.even _); lia.
  - pose proof (rne_bounds M1 n Hn). pose proof (rne_bounds M2 n Hn). lia.
Qed.

Lemma Zdigits2_bounds (m : Z) :
  0 < m -> 2 ^ (Zdigits2 m - 1) <= m < 2 ^ Zdigits2 m.
Proof.
  destruct m as [|p|p]; try lia. intros _. apply digits2_pos_bounds.
Qed.

Lemma Zdigits2_pos (m : Z) : 0 < m -> 0 < Zdigits2 m.
Proof. destruct m; cbn; lia. Qed.

Lemma pow2_lt_inv (a b : Z) : 0 <= a -> 0 <= b -> 2 ^ a < 2 ^ b -> a < b.
Proof. intros Ha Hb H. apply (Z.pow_lt_mono_r_iff 2); lia. Qed.

Lemma Zdigits2_unique (m k : Z) :
  0 < k -> 2 ^ (k - 1) <= m < 2 ^ k -> Zdigits2 m = k.
Proof.
  intros Hk [Hl Hu].
  assert (0 < m) as Hm by (pose proof (Z.pow_pos_nonneg 2 (k - 1)); lia).
  pose proof (Zdigits2_bounds m Hm) as [Dl Du].
  pose proof (Zdigits2_pos m Hm) as Dp.
  assert (Zdigits2 m - 1 < k) by (apply pow2_lt_inv; lia).
  assert (k - 1 < Zdigits2 m) by (apply pow2_lt_inv; lia).
  lia.
Qed.

Lemma pow2_pos (a : Z) : 0 <= a -> 0 < 2 ^ a.
Proof. intros. apply Z.pow_pos_nonneg; lia. Qed.

Lemma pow2_split (a b : Z) : 0 <= a -> 0 <= b -> 2 ^ (a + b) = 2 ^ a * 2 ^ b.
Proof. intros. apply Z.pow_add_r; lia. Qed.

Lemma pow2_le (a b : Z) : 0 <= a <= b -> 2 ^ a <= 2 ^ b.
Proof. intros. apply Z.pow_le_mono_r; lia. Qed.

Lemma pow2_lt (a b : Z) : 0 <= a < b -> 2 ^ a < 2 ^ b.
Proof. intros. apply Z.pow_lt_mono_r; lia. Qed.

Lemma rne_0 (M : Z) : rne M 0 = M.
Proof. unfold rne. cbn. now rewrite Z.mod_1_r, Z.div_1_r. Qed.

Lemma rne_nonneg (M n : Z) : 0 <= n -> 0 <= M -> 0 <= rne M n.
Proof.
  intros Hn HM. pose proof (rne_bounds M n Hn).
  pose proof (Z.div_pos M (2 ^ n) HM (pow2_pos n Hn)). lia.
Qed.

Lemma rne_shift (M n i : Z) :
  0 <= n -> 0 <= i -> rne (M * 2 ^ i) (n + i) = rne M n.
Proof.
  intros Hn Hi. unfold rne.
  pose proof (pow2_pos n Hn). pose proof (pow2_pos i Hi).
  rewrite pow2_split by lia.
  rewrite Z.div_mul_cancel_r by lia.
  rewrite Z.mul_mod_distr_r by lia.
  replace (2 * (M mod 2 ^ n * 2 ^ i)) with (2 * (M mod 2 ^ n) * 2 ^ i) by lia.
  rewrite <- Zmult_compare_compat_r by lia. reflexivity.
Qed.

Lemma pow2_div_mul (a n : Z) : 0 <= n <= a -> 2 ^ a mod 2 ^ n = 0 /\ 2 ^ a / 2 ^ n * 2 ^ n = 2 ^ a.
Proof.
  intros H. replace a with (a - n + n) by lia.
  rewrite pow2_split by lia. pose proof (pow2_pos n ltac:(lia)).
  rewrite Z.mod_mul, Z.div_mul by lia. split; reflexivity.
Qed.

Lemma Zdigits2_mono (m1 m2 : Z) : 0 < m1 <= m2 -> Zdigits2 m1 <= Zdigits2 m2.
Proof.
  intros [H1 H12].
  pose proof (Zdigits2_bounds m1 H1) as [L1 U1].
  pose proof (Zdigits2_bounds m2 ltac:(lia)) as [L2 U2].
  pose proof (Zdigits2_pos m1 H1). pose proof (Zdigits2_pos m2 ltac:(lia)).
  assert (Zdigits2 m1 - 1 < Zdigits2 m2); [|lia]. apply pow2_lt_inv; lia.
Qed.

Lemma Zdigits2_shift (m i : Z) : 0 < m -> 0 <= i -> Zdigits2 (m * 2 ^ i) = Zdigits2 m + i.
Proof.
  intros Hm Hi. pose proof (Zdigits2_bounds m Hm) as [L U].
  pose proof (Zdigits2_pos m Hm). pose proof (pow2_pos i Hi).
  apply Zdigits2_unique; [lia|].
  replace (Zdigits2 m + i - 1) with (Zdigits2 m - 1 + i) by lia.
  rewrite !pow2_split by lia. split; nia.
Qed.

Section Rounding.

Variables prec emax : Z.
Hypothesis prec_pos : 0 < prec.
Hypothesis prec_lt_emax : prec < emax.

Local Abbreviation emin := (SpecFloat.emin prec emax).
Local Abbreviation fexp := (SpecFloat.fexp prec emax).
Local Abbreviation finish := (finish prec emax).
Local Abbreviation round_aux := (round_aux prec emax).
Local Abbreviation round_at := (round_at prec emax).
Local Abbreviation rounded := (rounded prec emax).
Local Abbreviation rounded_value := (rounded_value prec emax).
Local Abbreviation value_at := (value_at emax).
Local Abbreviation number := (number prec emax).



Lemma shr_fexp_exact (m e : Z) :
  0 <= m ->
  let n := fexp (Zdigits2 m + e) - e in
  shr_fexp prec emax m e loc_Exact =
    if 0 <? n then (shifted m (Z.to_nat n), e + n)
    else ({| shr_m := m; shr_r := false; shr_s := false |}, e).
Proof.
  intros Hm n. unfold shr_fexp. fold n. cbn [shr_record_of_loc]. unfold shr.
  destruct n as [|p|p]; try reflexivity.
  cbn [Z.ltb Z.compare]. rewrite iter_pos_nat, iter_shr_1 by exact Hm.
  now rewrite Z2Nat.inj_pos.
Qed.

Lemma binary_round_aux_exact (s : bool) (m e : Z) :
  0 <= m -> binary_round_aux prec emax s m e loc_Exact = round_aux s m e.
Proof.
  intros Hm. unfold binary_round_aux, round_aux.
  rewrite (shr_fexp_exact m e Hm).
  set (n1 := fexp (Zdigits2 m + e) - e).
  destruct (Z.ltb_spec 0 n1) as [H1|H1].
  - rewrite rne_shifted by exact Hm. rewrite Z2Nat.id by lia.
    assert (0 <= rne m n1) as Hr.
    { pose proof (rne_bounds m n1 ltac:(lia)).
      pose proof (Z.div_pos m (2 ^ n1) Hm ltac:(apply Z.pow_pos_nonneg; lia)). lia. }
    rewrite (shr_fexp_exact _ _ Hr).
    set (n2 := fexp (Zdigits2 (rne m n1) + (e + n1)) - (e + n1)).
    destruct (Z.ltb_spec 0 n2) as [H2|H2].
    + cbn [shifted shr_m]. rewrite Z2Nat.id by lia. reflexivity.
    + reflexivity.
  - cbn [shr_m loc_of_shr_record round_nearest_even].
    rewrite (shr_fexp_exact _ _ Hm). fold n1.
    destruct (Z.ltb_spec 0 n1) as [H2|H2]; [lia|]. reflexivity.
Qed.

Lemma fexp_spec (x : Z) : fexp x = Z.max (x - prec) emin.
Proof. reflexivity. Qed.

Lemma emin_spec : emin = 3 - emax - prec.
Proof. reflexivity. Qed.

(** The renormalisation after rounding: a rounded mantissa [m1] at an
    exponent [t] it is at most one bit too long for. *)
Lemma renormalise (m1 t : Z) :
  emin <= t -> 0 < m1 <= 2 ^ prec ->
  (t = emin \/ 2 ^ (prec - 1) <= m1) ->
  let n2 := fexp (Zdigits2 m1 + t) - t in
  let m2 := if 0 <? n2 then m1 / 2 ^ n2 else m1 in
  let e2 := if 0 <? n2 then t + n2 else t in
  0 < m2 /\ m2 * 2 ^ (e2 - t) = m1 /\ fexp (Zdigits2 m2 + e2) = e2 /\ t <= e2.
Proof.
  intros Ht [Hpos Hle] Hnorm. cbv zeta.
  pose proof (Zdigits2_bounds m1 Hpos) as [Dl Du].
  pose proof (Zdigits2_pos m1 Hpos) as Dp.
  destruct (Z.eq_dec m1 (2 ^ prec)) as [E|E].
  - assert (Zdigits2 m1 = prec + 1) as Ed.
    { apply Zdigits2_unique; [lia|]. rewrite E.
      replace (prec + 1 - 1) with prec by lia. split; [lia|apply pow2_lt; lia]. }
    rewrite Ed, fexp_spec.
    replace (Z.max (prec + 1 + t - prec) emin - t) with 1 by lia.
    cbn [Z.ltb Z.compare].
    assert (m1 / 2 ^ 1 = 2 ^ (prec - 1)) as Eq.
    { rewrite E. replace prec with (prec - 1 + 1) at 1 by lia.
      rewrite pow2_split by lia. apply Z.div_mul. discriminate. }
    rewrite Eq.
    assert (Zdigits2 (2 ^ (prec - 1)) = prec) as Ed2.
    { apply Zdigits2_unique; [lia|]. split; [lia|apply pow2_lt; lia]. }
    rewrite Ed2, fexp_spec.
    replace (t + 1 - t) with 1 by lia.
    split; [apply pow2_pos; lia|].
    split; [|split; lia].
    rewrite E. replace prec with (prec - 1 + 1) at 2 by lia.
    now rewrite pow2_split by lia.
  - assert (Zdigits2 m1 <= prec) as Hd.
    { assert (Zdigits2 m1 - 1 < prec); [|lia]. apply pow2_lt_inv; lia. }
    assert (fexp (Zdigits2 m1 + t) = t) as Ef.
    { rewrite fexp_spec. destruct Hnorm as [->|Hn]; [lia|].
      assert (prec - 1 < Zdigits2 m1); [|lia]. apply pow2_lt_inv; lia. }
    rewrite Ef, Z.sub_diag. cbn [Z.ltb Z.compare].
    rewrite Ef, Z.sub_diag. cbn [Z.pow Z.pow_pos Pos.iter]. 
    split; [|split; [|split]]; lia.
Qed.


Lemma round_aux_pos (s : bool) (m e : Z) :
  0 < m -> e <= emin ->
  exists m2 e2,
    round_aux s m e = finish s m2 e2 /\ 0 <= m2 /\
    m2 * 2 ^ (e2 - e) = rounded m e /\ emin <= e2 /\
    (0 < m2 -> fexp (Zdigits2 m2 + e2) = e2).
Proof.
  intros Hm He.
  pose proof (Zdigits2_bounds m Hm) as [Dl Du].
  pose proof (Zdigits2_pos m Hm) as Dp.
  unfold round_aux, rounded.
  set (d := Zdigits2 m) in *. set (t := fexp (d + e)).
  assert (t = Z.max (d + e - prec) emin) as Et by reflexivity.
  set (n := t - e). assert (0 <= n) as Hn by lia.
  assert ((if 0 <? n then rne m n else m) = rne m n) as ->.
  { destruct (Z.ltb_spec 0 n); [reflexivity|].
    replace n with 0 by lia. now rewrite rne_0. }
  assert ((if 0 <? n then e + n else e) = t) as -> by (destruct (Z.ltb_spec 0 n); lia).
  set (m1 := rne m n).
  assert (0 <= m1) as H1 by (apply rne_nonneg; lia).
  pose proof (rne_bounds m n Hn) as [Rl Ru]. fold m1 in Rl, Ru.
  pose proof (pow2_pos n Hn) as Pn.
  destruct (Z.eq_dec m1 0) as [E0|E0].
  - rewrite E0. cbn [Zdigits2]. rewrite fexp_spec.
    destruct (Z.ltb_spec 0 (Z.max (0 + t - prec) emin - t)); [lia|].
    exists 0, t. cbn. repeat split; lia.
  - assert (m1 <= 2 ^ prec) as Hle.
    { destruct (Z_lt_le_dec d n) as [Hdn|Hdn].
      - assert (m / 2 ^ n = 0) as Eq0.
        { apply Z.div_small. split; [lia|].
          apply Z.lt_le_trans with (2 ^ d); [lia|]. apply pow2_le; lia. }
        pose proof (pow2_pos prec ltac:(lia)). lia.
      - assert (m / 2 ^ n < 2 ^ (d - n)).
        { apply Z.div_lt_upper_bound; [lia|].
          rewrite <- pow2_split by lia. now replace (n + (d - n)) with d by lia. }
        assert (2 ^ (d - n) <= 2 ^ prec) by (apply pow2_le; lia). lia. }
    assert (t = emin \/ 2 ^ (prec - 1) <= m1) as Hnorm.
    { destruct (Z.eq_dec t emin) as [?|Hne]; [now left|right].
      assert (n = d - prec) as En by lia.
      apply Z.le_trans with (m / 2 ^ n); [|lia].
      apply Z.div_le_lower_bound; [lia|].
      rewrite <- pow2_split by lia.
      now replace (n + (prec - 1)) with (d - 1) by lia. }
    destruct (renormalise m1 t ltac:(lia) ltac:(lia) Hnorm) as (P2 & V2 & C2 & T2).
    cbv zeta in P2, V2, C2, T2.
    set (n2 := fexp (Zdigits2 m1 + t) - t) in *.
    set (m2 := if 0 <? n2 then m1 / 2 ^ n2 else m1) in *.
    set (e2 := if 0 <? n2 then t + n2 else t) in *.
    exists m2, e2. split; [reflexivity|]. split; [lia|].
    split; [|split; [lia|intros _; exact C2]].
    replace (e2 - e) with ((e2 - t) + n) by lia.
    rewrite pow2_split by lia. rewrite Z.mul_assoc, V2. reflexivity.
Qed.

Lemma rounded_mono (m1 m2 e : Z) :
  0 < m1 <= m2 -> e <= emin -> rounded m1 e <= rounded m2 e.
Proof.
  intros [H1 H12] He. unfold rounded.
  pose proof (Zdigits2_mono m1 m2 ltac:(lia)) as Hd.
  pose proof (Zdigits2_bounds m1 H1) as [L1 U1].
  pose proof (Zdigits2_bounds m2 ltac:(lia)) as [L2 U2].
  pose proof (Zdigits2_pos m1 H1) as P1.
  set (d1 := Zdigits2 m1) in *. set (d2 := Zdigits2 m2) in *.
  rewrite !fexp_spec.
  set (n1 := Z.max (d1 + e - prec) emin - e).
  set (n2 := Z.max (d2 + e - prec) emin - e).
  assert (0 <= n1 <= n2) as [Hn1 Hn12] by lia.
  destruct (Z.eq_dec n1 n2) as [E|E].
  - rewrite <- E. apply Z.mul_le_mono_nonneg_r; [pose proof (pow2_pos n1 Hn1); lia|].
    apply rne_mono; lia.
  - assert (n2 = d2 - prec) as En2 by lia.
    assert (d1 < d2) as Hlt by lia.
    set (B := 2 ^ (d2 - 1)).
    assert (m1 <= B) as HB1.
    { apply Z.le_trans with (2 ^ d1); [lia|]. apply pow2_le; lia. }
    apply Z.le_trans with B.
    + destruct (pow2_div_mul (d2 - 1) n1 ltac:(lia)) as [Hmod Hdiv]. fold B in Hmod, Hdiv.
      rewrite <- Hdiv. apply Z.mul_le_mono_nonneg_r; [pose proof (pow2_pos n1 Hn1); lia|].
      rewrite <- (rne_exact B n1 Hn1 Hmod). apply rne_mono; lia.
    + destruct (pow2_div_mul (d2 - 1) n2 ltac:(lia)) as [Hmod Hdiv]. fold B in Hmod, Hdiv.
      rewrite <- Hdiv at 1.
      apply Z.mul_le_mono_nonneg_r; [pose proof (pow2_pos n2 ltac:(lia)); lia|].
      rewrite <- (rne_exact B n2 ltac:(lia) Hmod). apply rne_mono; lia.
Qed.

Lemma rounded_nonneg (m e : Z) : 0 < m -> e <= emin -> 0 <= rounded m e.
Proof.
  intros Hm He. unfold rounded. rewrite fexp_spec.
  set (n := Z.max (Zdigits2 m + e - prec) emin - e).
  assert (0 <= n) by lia.
  pose proof (rne_nonneg m n ltac:(lia) ltac:(lia)). pose proof (pow2_pos n ltac:(lia)).
  nia.
Qed.



(** The outcome of rounding a positive mantissa at a low exponent. *)
Lemma round_aux_value (s : bool) (m e : Z) :
  0 < m -> e <= emin ->
  valid_binary prec emax (round_aux s m e) = true /\
  is_nan (round_aux s m e) = false /\
  value_at e (round_aux s m e) =
    cond_Zopp s (Z.min (rounded m e) (2 ^ (emax - e))).
Proof.
  intros Hm He.
  destruct (round_aux_pos s m e Hm He) as (m2 & e2 & -> & P2 & V2 & T2 & C2).
  assert (emin = 3 - emax - prec) as Emin by reflexivity.
  pose proof (pow2_pos (emax - e) ltac:(lia)) as Pcap.
  destruct m2 as [|p|p]; [| |lia]; cbn [finish].
  - cbn. rewrite <- V2. cbn. split; [reflexivity|]. split; [reflexivity|].
    rewrite Z.min_l by lia. now destruct s.
  - specialize (C2 ltac:(lia)).
    pose proof (Zdigits2_bounds (Zpos p) ltac:(lia)) as [Dl Du].
    rewrite fexp_spec in C2. cbn [Zdigits2] in C2, Dl, Du.
    set (d := Zpos (digits2_pos p)) in *.
    assert (0 < d) as Dp by (unfold d; lia).
    pose proof (pow2_pos (e2 - e) ltac:(lia)) as Pe.
    destruct (Z.leb_spec e2 (emax - prec)) as [Hb|Hb]; cbn [valid_binary is_nan value_at].
    + split.
      { unfold bounded, canonical_mantissa. apply andb_true_intro. split.
        - apply Z.eqb_eq. rewrite fexp_spec. exact C2.
        - apply Z.leb_le. lia. }
      split; [reflexivity|]. f_equal. rewrite V2. symmetry. apply Z.min_l.
      rewrite <- V2.
      apply Z.le_trans with (2 ^ d * 2 ^ (e2 - e)).
      * apply Z.mul_le_mono_nonneg_r; lia.
      * rewrite <- pow2_split by lia. apply pow2_le. lia.
    + split; [reflexivity|]. split; [reflexivity|]. f_equal. symmetry. apply Z.min_r.
      rewrite <- V2.
      apply Z.le_trans with (2 ^ (d - 1) * 2 ^ (e2 - e)).
      * rewrite <- pow2_split by lia. apply pow2_le. lia.
      * apply Z.mul_le_mono_nonneg_r; lia.
Qed.


Lemma shl_align_spec (p : positive) (e e' : Z) :
  Zpos (fst (shl_align p e e')) = (if e' <? e then Zpos p * 2 ^ (e - e') else Zpos p) /\
  snd (shl_align p e e') = (if e' <? e then e' else e).
Proof.
  unfold shl_align.
  destruct (e' - e) as [|d|d] eqn:E; cbn [fst snd].
  - destruct (Z.ltb_spec e' e); [lia|]. now split.
  - destruct (Z.ltb_spec e' e); [lia|]. now split.
  - destruct (Z.ltb_spec e' e); [|lia]. split; [|reflexivity].
    change (Pos.iter xO p d) with (shift_pos d p).
    rewrite shift_pos_correct. replace (e - e') with (Zpos d) by lia.
    rewrite Z.mul_comm. reflexivity.
Qed.

Lemma binary_round_spec (s : bool) (p : positive) (e : Z) :
  binary_round prec emax s p e = round_at s (Zpos p) e.
Proof.
  unfold binary_round, round_at. cbn [Zdigits2].
  set (t := fexp (Zpos (digits2_pos p) + e)).
  destruct (shl_align_spec p e t) as [Hm He].
  destruct (shl_align p e t) as [mz ez]. cbn [fst snd] in Hm, He.
  rewrite binary_round_aux_exact by lia. rewrite Hm, He.
  now destruct (t <? e).
Qed.

(** Rounding depends on the value only: trailing zero bits of the mantissa
    can be moved into the exponent. *)
Lemma round_aux_shift (s : bool) (m e i : Z) :
  0 < m -> 0 <= i -> e <= fexp (Zdigits2 m + e) ->
  round_aux s (m * 2 ^ i) (e - i) = round_aux s m e.
Proof.
  intros Hm Hi Hn. unfold round_aux.
  rewrite Zdigits2_shift by lia.
  replace (Zdigits2 m + i + (e - i)) with (Zdigits2 m + e) by lia.
  set (t := fexp (Zdigits2 m + e)) in *.
  replace (t - (e - i)) with ((t - e) + i) by lia.
  destruct (Z.ltb_spec 0 (t - e + i)) as [H1|H1].
  - rewrite rne_shift by lia.
    replace (e - i + (t - e + i)) with t by lia.
    destruct (Z.ltb_spec 0 (t - e)) as [H2|H2].
    + replace (e + (t - e)) with t by lia. reflexivity.
    + replace (t - e) with 0 by lia. rewrite rne_0.
      replace e with t by lia. reflexivity.
  - assert (i = 0) as -> by lia. assert (t = e) as E by lia.
    destruct (Z.ltb_spec 0 (t - e)); [lia|].
    rewrite Z.mul_1_r, Z.sub_0_r. reflexivity.
Qed.

Lemma round_at_shift (s : bool) (m e i : Z) :
  0 < m -> 0 <= i -> round_at s (m * 2 ^ i) (e - i) = round_at s m e.
Proof.
  intros Hm Hi. unfold round_at.
  rewrite Zdigits2_shift by lia.
  replace (Zdigits2 m + i + (e - i)) with (Zdigits2 m + e) by lia.
  set (d := Zdigits2 m). set (t := fexp (d + e)).
  pose proof (pow2_pos i Hi) as Pi.
  destruct (Z.ltb_spec t (e - i)) as [H1|H1].
  - destruct (Z.ltb_spec t e); [|lia].
    f_equal. rewrite <- Z.mul_assoc, <- pow2_split by lia. f_equal. f_equal. lia.
  - destruct (Z.ltb_spec t e) as [H2|H2].
    + pose proof (pow2_pos (e - t) ltac:(lia)).
      rewrite <- (round_aux_shift s (m * 2 ^ (e - t)) t (i - (e - t))).
      * f_equal; [|lia]. rewrite <- Z.mul_assoc, <- pow2_split by lia.
        f_equal. f_equal. lia.
      * nia.
      * lia.
      * rewrite Zdigits2_shift by lia. fold d.
        replace (d + (e - t) + t) with (d + e) by lia. fold t. lia.
    + apply round_aux_shift; trivial.
Qed.

Lemma binary_normalize_shift (m e i : Z) (sz : bool) :
  0 <= i ->
  binary_normalize prec emax (m * 2 ^ i) (e - i) sz =
  binary_normalize prec emax m e sz.
Proof.
  intros Hi. pose proof (pow2_pos i Hi) as Pi.
  destruct m as [|p|p].
  - reflexivity.
  - assert (exists q, Zpos p * 2 ^ i = Zpos q) as (q & Eq).
    { destruct (Zpos p * 2 ^ i) eqn:E; try nia. eauto. }
    rewrite Eq. cbn [binary_normalize]. rewrite !binary_round_spec, <- Eq.
    apply round_at_shift; lia.
  - assert (exists q, Zneg p * 2 ^ i = Zneg q /\ Zpos p * 2 ^ i = Zpos q) as (q & Eq & Eq').
    { destruct (Zpos p * 2 ^ i) eqn:E; try nia. exists p0. split; [|reflexivity].
      rewrite <- Pos2Z.opp_pos, Z.mul_opp_l, E. reflexivity. }
    rewrite Eq. cbn [binary_normalize]. rewrite !binary_round_spec, <- Eq'.
    apply round_at_shift; lia.
Qed.


Lemma binary_normalize_value (m e : Z) (sz : bool) :
  e <= emin ->
  valid_binary prec emax (binary_normalize prec emax m e sz) = true /\
  is_nan (binary_normalize prec emax m e sz) = false /\
  value_at e (binary_normalize prec emax m e sz) = rounded_value m e.
Proof.
  intros He.
  assert (forall s p, round_at s (Zpos p) e = round_aux s (Zpos p) e) as Hat.
  { intros s p. unfold round_at. rewrite fexp_spec.
    destruct (Z.ltb_spec (Z.max (Zdigits2 (Zpos p) + e - prec) emin) e); [lia|reflexivity]. }
  destruct m as [|p|p]; cbn [binary_normalize rounded_value].
  - now cbn.
  - rewrite binary_round_spec, Hat. apply (round_aux_value false); lia.
  - rewrite binary_round_spec, Hat. apply (round_aux_value true); lia.
Qed.

Lemma rounded_value_mono (m1 m2 e : Z) :
  e <= emin -> m1 <= m2 -> rounded_value m1 e <= rounded_value m2 e.
Proof.
  intros He H12.
  assert (emin = 3 - emax - prec) as Emin by reflexivity.
  pose proof (pow2_pos (emax - e) ltac:(lia)) as Pcap.
  assert (forall p, 0 <= Z.min (rounded (Zpos p) e) (2 ^ (emax - e))) as Hnn.
  { intros p. pose proof (rounded_nonneg (Zpos p) e ltac:(lia) He). lia. }
  destruct m1 as [|p1|p1], m2 as [|p2|p2]; cbn [rounded_value Z.opp]; try lia.
  - apply Hnn.
  - pose proof (rounded_mono (Zpos p1) (Zpos p2) e ltac:(lia) He). lia.
  - pose proof (Hnn p1). lia.
  - pose proof (Hnn p1). pose proof (Hnn p2). lia.
  - pose proof (rounded_mono (Zpos p2) (Zpos p1) e ltac:(lia) He). lia.
Qed.

(** ** Valid floats and their order *)

Lemma bounded_facts (m : positive) (e : Z) :
  bounded prec emax m e = true ->
  emin <= e <= emax - prec /\ Zpos m < 2 ^ prec /\
  (emin < e -> 2 ^ (prec - 1) <= Zpos m).
Proof.
  unfold bounded, canonical_mantissa. intros H.
  apply andb_prop in H as [Hc Hb]. apply Z.eqb_eq in Hc. apply Z.leb_le in Hb.
  rewrite fexp_spec in Hc.
  pose proof (digits2_pos_bounds m) as [Dl Du].
  set (d := Zpos (digits2_pos m)) in *.
  assert (0 < d) by (unfold d; lia).
  split; [lia|]. split.
  - apply Z.lt_le_trans with (2 ^ d); [lia|]. apply pow2_le; lia.
  - intros He. apply Z.le_trans with (2 ^ (d - 1)); [|lia]. apply pow2_le; lia.
Qed.

Lemma finite_lt_cap (m : positive) (e : Z) :
  bounded prec emax m e = true -> Zpos m * 2 ^ (e - emin) < 2 ^ (emax - emin).
Proof.
  intros H. destruct (bounded_facts m e H) as ((He1 & He2) & Hm & _).
  assert (emin = 3 - emax - prec) as Emin by reflexivity.
  pose proof (pow2_pos (e - emin) ltac:(lia)).
  apply Z.lt_le_trans with (2 ^ prec * 2 ^ (e - emin)); [nia|].
  rewrite <- pow2_split by lia. apply pow2_le. lia.
Qed.

Lemma finite_pos (m : positive) (e : Z) :
  emin <= e -> 0 < Zpos m * 2 ^ (e - emin).
Proof. intros. pose proof (pow2_pos (e - emin) ltac:(lia)). nia. Qed.

Lemma finite_compare (m1 m2 : positive) (e1 e2 : Z) :
  bounded prec emax m1 e1 = true -> bounded prec emax m2 e2 = true ->
  match e1 ?= e2 with
  | Lt => Lt
  | Gt => Gt
  | Eq => Pos.compare_cont Eq m1 m2
  end = (Zpos m1 * 2 ^ (e1 - emin) ?= Zpos m2 * 2 ^ (e2 - emin)).
Proof.
  intros H1 H2.
  destruct (bounded_facts m1 e1 H1) as ((A1 & B1) & M1 & N1).
  destruct (bounded_facts m2 e2 H2) as ((A2 & B2) & M2 & N2).
  assert (forall ma mb ea eb, emin <= ea < eb -> Zpos ma < 2 ^ prec ->
            2 ^ (prec - 1) <= Zpos mb ->
            Zpos ma * 2 ^ (ea - emin) < Zpos mb * 2 ^ (eb - emin)) as Hlt.
  { intros ma mb ea eb He Ha Hb.
    pose proof (pow2_pos (ea - emin) ltac:(lia)).
    pose proof (pow2_pos (eb - emin) ltac:(lia)).
    apply Z.lt_le_trans with (2 ^ prec * 2 ^ (ea - emin)); [nia|].
    apply Z.le_trans with (2 ^ (prec - 1) * 2 ^ (eb - emin)); [|nia].
    rewrite <- !pow2_split by lia. apply pow2_le. lia. }
  symmetry. destruct (Z.compare_spec e1 e2) as [E|E|E].
  - subst e2. change (Pos.compare_cont Eq m1 m2) with (Z.compare (Zpos m1) (Zpos m2)).
    pose proof (pow2_pos (e1 - emin) ltac:(lia)).
    symmetry. apply Zmult_compare_compat_r. lia.
  - apply Z.compare_lt_iff. apply Hlt; [lia|lia|apply N2; lia].
  - apply Z.compare_gt_iff. apply Hlt; [lia|lia|apply N1; lia].
Qed.

(** On valid floats the comparison is the comparison of the values. *)
Lemma SFcompare_value (x y : spec_float) :
  valid_binary prec emax x = true -> valid_binary prec emax y = true ->
  is_nan x = false -> is_nan y = false ->
  SFcompare x y = Some (value_at emin x ?= value_at emin y).
Proof.
  assert (emin = 3 - emax - prec) as Emin by reflexivity.
  pose proof (pow2_pos (emax - emin) ltac:(lia)) as Pcap.
  intros Vx Vy Nx Ny.
  destruct x as [sx|sx| |sx mx ex], y as [sy|sy| |sy my ey];
    try discriminate; cbn [valid_binary] in Vx, Vy; cbn [SFcompare value_at].
  - reflexivity.
  - destruct sy; cbn [cond_Zopp]; f_equal; symmetry;
      [apply Z.compare_gt_iff|apply Z.compare_lt_iff]; lia.
  - destruct (bounded_facts my ey Vy) as ((A & _) & _).
    pose proof (finite_pos my ey A).
    destruct sy; cbn [cond_Zopp]; f_equal; symmetry;
      [apply Z.compare_gt_iff|apply Z.compare_lt_iff]; lia.
  - destruct sx; cbn [cond_Zopp]; f_equal; symmetry;
      [apply Z.compare_lt_iff|apply Z.compare_gt_iff]; lia.
  - destruct sx, sy; cbn [cond_Zopp]; f_equal; symmetry;
      [apply Z.compare_eq_iff|apply Z.compare_lt_iff
      |apply Z.compare_gt_iff|apply Z.compare_eq_iff]; lia.
  - pose proof (finite_lt_cap my ey Vy).
    destruct (bounded_facts my ey Vy) as ((A & _) & _).
    pose proof (finite_pos my ey A).
    destruct sx, sy; cbn [cond_Zopp]; f_equal; symmetry;
      [apply Z.compare_lt_iff|apply Z.compare_lt_iff
      |apply Z.compare_gt_iff|apply Z.compare_gt_iff]; lia.
  - destruct (bounded_facts mx ex Vx) as ((A & _) & _).
    pose proof (finite_pos mx ex A).
    destruct sx; cbn [cond_Zopp]; f_equal; symmetry;
      [apply Z.compare_lt_iff|apply Z.compare_gt_iff]; lia.
  - pose proof (finite_lt_cap mx ex Vx).
    destruct (bounded_facts mx ex Vx) as ((A & _) & _).
    pose proof (finite_pos mx ex A).
    destruct sx, sy; cbn [cond_Zopp]; f_equal; symmetry;
      [apply Z.compare_gt_iff|apply Z.compare_lt_iff
      |apply Z.compare_gt_iff|apply Z.compare_lt_iff]; lia.
  - destruct (bounded_facts mx ex Vx) as ((Ax & _) & _).
    destruct (bounded_facts my ey Vy) as ((Ay & _) & _).
    pose proof (finite_pos mx ex Ax). pose proof (finite_pos my ey Ay).
    destruct sx, sy; cbn [cond_Zopp]; f_equal.
    + rewrite Z.compare_opp. rewrite <- (finite_compare my mx ey ex Vy Vx).
      rewrite (Z.compare_antisym ey ex).
      destruct (ey ?= ex); cbn [CompOpp]; try reflexivity.
      change (Pos.compare_cont Eq mx my) with (Pos.compare mx my).
      change (Pos.compare_cont Eq my mx) with (Pos.compare my mx).
      now rewrite (Pos.compare_antisym mx my).
    + symmetry. apply Z.compare_lt_iff. lia.
    + symmetry. apply Z.compare_gt_iff. lia.
    + apply finite_compare; trivial.
Qed.

Lemma value_bounds (x : spec_float) :
  valid_binary prec emax x = true ->
  - 2 ^ (emax - emin) <= value_at emin x <= 2 ^ (emax - emin).
Proof.
  assert (emin = 3 - emax - prec) as Emin by reflexivity.
  pose proof (pow2_pos (emax - emin) ltac:(lia)) as Pcap.
  intros V. destruct x as [s|s| |s m e]; cbn [value_at valid_binary] in *; try lia.
  - destruct s; cbn; lia.
  - pose proof (finite_lt_cap m e V).
    destruct (bounded_facts m e V) as ((A & _) & _).
    pose proof (finite_pos m e A). destruct s; cbn [cond_Zopp]; lia.
Qed.

Lemma value_rescale (e' : Z) (x : spec_float) :
  e' <= emin -> valid_binary prec emax x = true ->
  value_at e' x = value_at emin x * 2 ^ (emin - e').
Proof.
  assert (emin = 3 - emax - prec) as Emin by reflexivity.
  intros He V. destruct x as [s|s| |s m e]; cbn [value_at valid_binary] in *; try lia.
  - replace (emax - e') with ((emax - emin) + (emin - e')) by lia.
    rewrite pow2_split by lia. destruct s; cbn [cond_Zopp]; lia.
  - destruct (bounded_facts m e V) as ((A & _) & _).
    replace (e - e') with ((e - emin) + (emin - e')) by lia.
    rewrite pow2_split by lia. destruct s; cbn [cond_Zopp]; lia.
Qed.

(** ** The operations on finite floats round the exact result *)


Lemma round_at_canonical (s : bool) (m : positive) (e : Z) :
  bounded prec emax m e = true -> round_at s (Zpos m) e = S754_finite s m e.
Proof.
  intros H. pose proof H as H'. unfold bounded, canonical_mantissa in H'.
  apply andb_prop in H' as [Hc Hb]. apply Z.eqb_eq in Hc. apply Z.leb_le in Hb.
  unfold round_at, round_aux. cbn [Zdigits2]. rewrite Hc, Z.ltb_irrefl, Z.sub_diag.
  cbn [Z.ltb Z.compare Zdigits2]. rewrite Hc, Z.sub_diag. cbn [Z.ltb Z.compare finish].
  destruct (Z.leb_spec e (emax - prec)); [reflexivity|lia].
Qed.

Lemma cond_Zopp_mul (s : bool) (a b : Z) : cond_Zopp s a * b = cond_Zopp s (a * b).
Proof. destruct s; cbn [cond_Zopp]; lia. Qed.

Lemma normalize_cond_Zopp (s : bool) (m : positive) (e : Z) (sz : bool) :
  binary_normalize prec emax (cond_Zopp s (Zpos m)) e sz = round_at s (Zpos m) e.
Proof. destruct s; cbn [cond_Zopp Z.opp binary_normalize]; apply binary_round_spec. Qed.

(** Rounding a value that is a float gives that float. *)
Lemma rounded_value_exact (x : spec_float) :
  valid_binary prec emax x = true -> finite_or_zero x = true ->
  rounded_value (value_at emin x) emin = value_at emin x.
Proof.
  intros V F. destruct x as [s|s| |s m e]; try discriminate; [reflexivity|].
  cbn [valid_binary] in V. destruct (bounded_facts m e V) as ((A & _) & _).
  assert (value_at emin (S754_finite s m e) =
          cond_Zopp s (Zpos m) * 2 ^ (e - emin)) as Ev
    by (cbn [value_at]; now rewrite cond_Zopp_mul).
  rewrite Ev.
  destruct (binary_normalize_value (cond_Zopp s (Zpos m) * 2 ^ (e - emin)) emin false
              ltac:(lia)) as (_ & _ & <-).
  assert (binary_normalize prec emax (cond_Zopp s (Zpos m) * 2 ^ (e - emin)) emin false =
          S754_finite s m e) as ->.
  { rewrite <- (round_at_canonical s m e V), <- (normalize_cond_Zopp s m e false).
    rewrite <- (binary_normalize_shift (cond_Zopp s (Zpos m)) e (e - emin) false)
      by lia.
    f_equal. lia. }
  exact Ev.
Qed.

Lemma aligned (s : bool) (m : positive) (e ez : Z) :
  ez <= e -> emin <= ez ->
  cond_Zopp s (Zpos (fst (shl_align m e ez))) * 2 ^ (ez - emin) =
  cond_Zopp s (Zpos m * 2 ^ (e - emin)).
Proof.
  intros H1 H2. destruct (shl_align_spec m e ez) as [-> _].
  rewrite cond_Zopp_mul. f_equal.
  destruct (Z.ltb_spec ez e).
  - rewrite <- Z.mul_assoc, <- pow2_split by lia. f_equal. f_equal. lia.
  - f_equal. f_equal. lia.
Qed.

Lemma SFadd_value (x y : spec_float) :
  valid_binary prec emax x = true -> valid_binary prec emax y = true ->
  finite_or_zero x = true -> finite_or_zero y = true ->
  valid_binary prec emax (SFadd prec emax x y) = true /\
  is_nan (SFadd prec emax x y) = false /\
  value_at emin (SFadd prec emax x y) =
    rounded_value (value_at emin x + value_at emin y) emin.
Proof.
  intros Vx Vy Fx Fy.
  destruct x as [sx|sx| |sx mx ex], y as [sy|sy| |sy my ey]; try discriminate.
  - cbn. now destruct sx, sy.
  - cbn [SFadd]. change (value_at emin (S754_zero sx)) with 0.
    rewrite Z.add_0_l, rounded_value_exact by trivial. now repeat split.
  - cbn [SFadd]. change (value_at emin (S754_zero sy)) with 0.
    rewrite Z.add_0_r, rounded_value_exact by trivial.
    now repeat split.
  - cbn [SFadd valid_binary] in *.
    destruct (bounded_facts mx ex Vx) as ((Ax & _) & _).
    destruct (bounded_facts my ey Vy) as ((Ay & _) & _).
    set (ez := Z.min ex ey).
    rewrite <- (binary_normalize_shift _ ez (ez - emin) false ltac:(lia)).
    replace (ez - (ez - emin)) with emin by lia.
    rewrite Z.mul_add_distr_r, !aligned by lia.
    apply binary_normalize_value. lia.
Qed.

Lemma SFsub_value (x y : spec_float) :
  valid_binary prec emax x = true -> valid_binary prec emax y = true ->
  finite_or_zero x = true -> finite_or_zero y = true ->
  valid_binary prec emax (SFsub prec emax x y) = true /\
  is_nan (SFsub prec emax x y) = false /\
  value_at emin (SFsub prec emax x y) =
    rounded_value (value_at emin x - value_at emin y) emin.
Proof.
  intros Vx Vy Fx Fy.
  destruct x as [sx|sx| |sx mx ex], y as [sy|sy| |sy my ey]; try discriminate.
  - cbn. now destruct sx, sy.
  - cbn [SFsub]. change (value_at emin (S754_zero sx)) with 0. rewrite Z.sub_0_l.
    assert (- value_at emin (S754_finite sy my ey) =
            value_at emin (S754_finite (negb sy) my ey)) as ->.
    { cbn [value_at]. destruct sy; cbn [negb cond_Zopp]; lia. }
    rewrite rounded_value_exact by trivial. now repeat split.
  - cbn [SFsub]. change (value_at emin (S754_zero sy)) with 0.
    rewrite Z.sub_0_r, rounded_value_exact by trivial.
    now repeat split.
  - cbn [SFsub valid_binary] in *.
    destruct (bounded_facts mx ex Vx) as ((Ax & _) & _).
    destruct (bounded_facts my ey Vy) as ((Ay & _) & _).
    set (ez := Z.min ex ey).
    rewrite <- (binary_normalize_shift _ ez (ez - emin) false ltac:(lia)).
    replace (ez - (ez - emin)) with emin by lia.
    rewrite Z.mul_sub_distr_r, !aligned by lia.
    apply binary_normalize_value. lia.
Qed.

Lemma SFmul_value (x : spec_float) (mc : positive) (ec : Z) :
  valid_binary prec emax x = true -> finite_or_zero x = true ->
  Zpos (digits2_pos mc) = prec -> ec <= 0 ->
  valid_binary prec emax (SFmul prec emax x (S754_finite false mc ec)) = true /\
  is_nan (SFmul prec emax x (S754_finite false mc ec)) = false /\
  value_at (emin + ec) (SFmul prec emax x (S754_finite false mc ec)) =
    rounded_value (value_at emin x * Zpos mc) (emin + ec).
Proof.
  intros Vx Fx Dc Hec.
  destruct x as [sx|sx| |sx mx ex]; try discriminate.
  - cbn. now repeat split.
  - cbn [SFmul valid_binary] in *. rewrite xorb_false_r.
    destruct (bounded_facts mx ex Vx) as ((Ax & _) & _).
    rewrite binary_round_aux_exact by lia.
    assert (round_aux sx (Zpos (mx * mc)) (ex + ec) =
            round_at sx (Zpos (mx * mc)) (ex + ec)) as ->.
    { unfold round_at. rewrite fexp_spec.
      pose proof (Zdigits2_mono (Zpos mc) (Zpos (mx * mc)) ltac:(nia)) as Hd.
      cbn [Zdigits2] in Hd. cbn [Zdigits2].
      destruct (Z.ltb_spec (Z.max (Zpos (digits2_pos (mx * mc)) + (ex + ec) - prec) emin)
                  (ex + ec)); [lia|reflexivity]. }
    rewrite <- (normalize_cond_Zopp sx (mx * mc) (ex + ec) false).
    rewrite <- (binary_normalize_shift _ (ex + ec) (ex - emin) false ltac:(lia)).
    replace (ex + ec - (ex - emin)) with (emin + ec) by lia.
    assert (cond_Zopp sx (Zpos (mx * mc)) * 2 ^ (ex - emin) =
            value_at emin (S754_finite sx mx ex) * Zpos mc) as ->.
    { cbn [value_at]. rewrite !cond_Zopp_mul. f_equal. rewrite Pos2Z.inj_mul. lia. }
    apply binary_normalize_value. lia.
Qed.

Lemma emin_nonpos : emin <= 0.
Proof. unfold SpecFloat.emin. lia. Qed.

(** Truncation toward zero, from the value. *)
Lemma truncate_value (s : bool) (m : positive) (e : Z) :
  emin <= e ->
  cond_Zopp s (Z.shiftl (Zpos m) e) =
  Z.quot (value_at emin (S754_finite s m e)) (2 ^ (- emin)).
Proof.
  intros He. pose proof emin_nonpos as Hn. cbn [value_at].
  pose proof (pow2_pos (- emin) ltac:(lia)) as Pd.
  pose proof (pow2_pos (e - emin) ltac:(lia)) as Pe.
  assert (Z.shiftl (Zpos m) e = Zpos m * 2 ^ (e - emin) / 2 ^ (- emin)) as ->.
  { destruct (Z_le_gt_dec 0 e) as [H0|H0].
    - rewrite Z.shiftl_mul_pow2 by lia.
      replace (e - emin) with (e + - emin) by lia.
      rewrite pow2_split, Z.mul_assoc, Z.div_mul by lia. reflexivity.
    - rewrite Z.shiftl_div_pow2 by lia.
      replace (- emin) with (- e + (e - emin)) by lia.
      rewrite pow2_split by lia.
      rewrite Z.div_mul_cancel_r by (pose proof (pow2_pos (- e) ltac:(lia)); lia).
      reflexivity. }
  destruct s; cbn [cond_Zopp].
  - rewrite Z.quot_opp_l by lia. f_equal. symmetry. apply Z.quot_div_nonneg; lia.
  - symmetry. apply Z.quot_div_nonneg; lia.
Qed.

(** ** Monotonicity, infinities included *)


Lemma number_cases (x : spec_float) :
  number x -> finite_or_zero x = true \/ exists s, x = S754_infinity s.
Proof. intros [_ N]. destruct x; try discriminate; eauto. Qed.

Lemma finite_value_strict (x : spec_float) :
  valid_binary prec emax x = true -> finite_or_zero x = true ->
  - 2 ^ (emax - emin) < value_at emin x < 2 ^ (emax - emin).
Proof.
  pose proof emin_nonpos as Hn.
  pose proof (pow2_pos (emax - emin) ltac:(lia)) as Pcap.
  intros V F. destruct x as [s|s| |s m e]; try discriminate; cbn [value_at valid_binary] in *.
  - lia.
  - pose proof (finite_lt_cap m e V).
    destruct (bounded_facts m e V) as ((A & _) & _).
    pose proof (finite_pos m e A). destruct s; cbn [cond_Zopp]; lia.
Qed.

Lemma value_inf (s : bool) :
  value_at emin (S754_infinity s) = cond_Zopp s (2 ^ (emax - emin)).
Proof. reflexivity. Qed.

Lemma SFsub_number (a x : spec_float) :
  valid_binary prec emax a = true -> finite_or_zero a = true -> number x ->
  number (SFsub prec emax a x).
Proof.
  intros Va Fa Nx. destruct (number_cases x Nx) as [Fx|(s & ->)].
  - destruct Nx as [Vx _].
    destruct (SFsub_value a x Va Vx Fa Fx) as (V & N & _). now split.
  - destruct a; try discriminate; now split.
Qed.

Lemma SFsub_antitone (a x1 x2 : spec_float) :
  valid_binary prec emax a = true -> finite_or_zero a = true ->
  number x1 -> number x2 ->
  value_at emin x1 <= value_at emin x2 ->
  value_at emin (SFsub prec emax a x2) <= value_at emin (SFsub prec emax a x1).
Proof.
  intros Va Fa N1 N2 Hle.
  pose proof emin_nonpos as Hn.
  pose proof (pow2_pos (emax - emin) ltac:(lia)) as Pcap.
  pose proof (value_bounds _ (proj1 (SFsub_number a x1 Va Fa N1))) as B1.
  pose proof (value_bounds _ (proj1 (SFsub_number a x2 Va Fa N2))) as B2.
  assert (forall s, SFsub prec emax a (S754_infinity s) = S754_infinity (negb s)) as Einf
    by (intros s; destruct a; try discriminate; reflexivity).
  destruct (number_cases x2 N2) as [F2|(s2 & ->)];
    destruct (number_cases x1 N1) as [F1|(s1 & ->)].
  - destruct N1 as [V1 _], N2 as [V2 _].
    destruct (SFsub_value a x1 Va V1 Fa F1) as (_ & _ & ->).
    destruct (SFsub_value a x2 Va V2 Fa F2) as (_ & _ & ->).
    apply rounded_value_mono; lia.
  - destruct N2 as [V2 _]. pose proof (finite_value_strict x2 V2 F2).
    rewrite value_inf in Hle. rewrite (Einf s1) in *.
    destruct s1; cbn [negb cond_Zopp] in *; [|lia].
    rewrite value_inf. cbn [cond_Zopp]. lia.
  - destruct N1 as [V1 _]. pose proof (finite_value_strict x1 V1 F1).
    rewrite value_inf in Hle. rewrite (Einf s2) in *.
    destruct s2; cbn [negb cond_Zopp] in *; [lia|].
    rewrite value_inf. cbn [cond_Zopp]. lia.
  - rewrite !value_inf in Hle. rewrite !Einf, !value_inf.
    destruct s1, s2; cbn [negb cond_Zopp] in *; lia.
Qed.

Lemma SFadd_number (a x : spec_float) :
  valid_binary prec emax a = true -> finite_or_zero a = true -> number x ->
  number (SFadd prec emax a x).
Proof.
  intros Va Fa Nx. destruct (number_cases x Nx) as [Fx|(s & ->)].
  - destruct Nx as [Vx _].
    destruct (SFadd_value a x Va Vx Fa Fx) as (V & N & _). now split.
  - destruct a; try discriminate; now split.
Qed.

Lemma SFadd_monotone (a x1 x2 : spec_float) :
  valid_binary prec emax a = true -> finite_or_zero a = true ->
  number x1 -> number x2 ->
  value_at emin x1 <= value_at emin x2 ->
  value_at emin (SFadd prec emax a x1) <= value_at emin (SFadd prec emax a x2).
Proof.
  intros Va Fa N1 N2 Hle.
  pose proof emin_nonpos as Hn.
  pose proof (pow2_pos (emax - emin) ltac:(lia)) as Pcap.
  pose proof (value_bounds _ (proj1 (SFadd_number a x1 Va Fa N1))) as B1.
  pose proof (value_bounds _ (proj1 (SFadd_number a x2 Va Fa N2))) as B2.
  assert (forall s, SFadd prec emax a (S754_infinity s) = S754_infinity s) as Einf
    by (intros s; destruct a; try discriminate; reflexivity).
  destruct (number_cases x2 N2) as [F2|(s2 & ->)];
    destruct (number_cases x1 N1) as [F1|(s1 & ->)].
  - destruct N1 as [V1 _], N2 as [V2 _].
    destruct (SFadd_value a x1 Va V1 Fa F1) as (_ & _ & ->).
    destruct (SFadd_value a x2 Va V2 Fa F2) as (_ & _ & ->).
    apply rounded_value_mono; lia.
  - destruct N2 as [V2 _]. pose proof (finite_value_strict x2 V2 F2).
    rewrite value_inf in Hle. rewrite (Einf s1) in *.
    destruct s1; cbn [cond_Zopp] in *; [|lia].
    rewrite value_inf. cbn [cond_Zopp]. lia.
  - destruct N1 as [V1 _]. pose proof (finite_value_strict x1 V1 F1).
    rewrite value_inf in Hle. rewrite (Einf s2) in *.
    destruct s2; cbn [cond_Zopp] in *; [lia|].
    rewrite value_inf. cbn [cond_Zopp]. lia.
  - rewrite !value_inf in Hle. rewrite !Einf, !value_inf.
    destruct s1, s2; cbn [cond_Zopp] in *; lia.
Qed.

Lemma SFmul_number (x : spec_float) (mc : positive) (ec : Z) :
  Zpos (digits2_pos mc) = prec -> ec <= 0 -> number x ->
  number (SFmul prec emax x (S754_finite false mc ec)).
Proof.
  intros Dc Hec Nx. destruct (number_cases x Nx) as [Fx|(s & ->)].
  - destruct Nx as [Vx _].
    destruct (SFmul_value x mc ec Vx Fx Dc Hec) as (V & N & _). now split.
  - now split.
Qed.

Lemma SFmul_monotone (x1 x2 : spec_float) (mc : positive) (ec : Z) :
  Zpos (digits2_pos mc) = prec -> ec <= 0 ->
  number x1 -> number x2 ->
  value_at emin x1 <= value_at emin x2 ->
  value_at emin (SFmul prec emax x1 (S754_finite false mc ec)) <=
  value_at emin (SFmul prec emax x2 (S754_finite false mc ec)).
Proof.
  intros Dc Hec N1 N2 Hle.
  pose proof emin_nonpos as Hn.
  pose proof (pow2_pos (emax - emin) ltac:(lia)) as Pcap.
  pose proof (value_bounds _ (proj1 (SFmul_number x1 mc ec Dc Hec N1))) as B1.
  pose proof (value_bounds _ (proj1 (SFmul_number x2 mc ec Dc Hec N2))) as B2.
  assert (forall s, SFmul prec emax (S754_infinity s) (S754_finite false mc ec) =
                    S754_infinity s) as Einf
    by (intros s; cbn; now rewrite xorb_false_r).
  destruct (number_cases x2 N2) as [F2|(s2 & ->)];
    destruct (number_cases x1 N1) as [F1|(s1 & ->)].
  - destruct (SFmul_number x1 mc ec Dc Hec N1) as [W1 _].
    destruct (SFmul_number x2 mc ec Dc Hec N2) as [W2 _].
    destruct N1 as [V1 _], N2 as [V2 _].
    destruct (SFmul_value x1 mc ec V1 F1 Dc Hec) as (_ & _ & E1).
    destruct (SFmul_value x2 mc ec V2 F2 Dc Hec) as (_ & _ & E2).
    rewrite (value_rescale (emin + ec)) in E1, E2 by (trivial; lia).
    pose proof (rounded_value_mono (value_at emin x1 * Zpos mc)
                  (value_at emin x2 * Zpos mc) (emin + ec) ltac:(lia) ltac:(nia)) as Hm.
    rewrite <- E1, <- E2 in Hm.
    pose proof (pow2_pos (emin - (emin + ec)) ltac:(lia)). nia.
  - destruct N2 as [V2 _]. pose proof (finite_value_strict x2 V2 F2).
    rewrite value_inf in Hle. rewrite (Einf s1) in *.
    destruct s1; cbn [cond_Zopp] in *; [|lia].
    rewrite value_inf. cbn [cond_Zopp]. lia.
  - destruct N1 as [V1 _]. pose proof (finite_value_strict x1 V1 F1).
    rewrite value_inf in Hle. rewrite (Einf s2) in *.
    destruct s2; cbn [cond_Zopp] in *; [lia|].
    rewrite value_inf. cbn [cond_Zopp]. lia.
  - rewrite !value_inf in Hle. rewrite !Einf, !value_inf.
    destruct s1, s2; cbn [cond_Zopp] in *; lia.
Qed.

(** Converting an integer gives a number. *)
Lemma of_Z_number (n : Z) : number (binary_normalize prec emax n 0 false).
Proof.
  pose proof emin_nonpos as Hn.
  rewrite <- (binary_normalize_shift n 0 (- emin) false ltac:(lia)).
  replace (0 - - emin) with emin by lia.
  destruct (binary_normalize_value (n * 2 ^ (- emin)) emin false ltac:(lia))
    as (V & N & _).
  now split.
Qed.

End Rounding.

Section ExactValues.

Variables prec emax : Z.
Hypothesis prec_pos : 0 < prec.
Hypothesis prec_lt_emax : prec < emax.

Local Abbreviation emin := (SpecFloat.emin prec emax).
Local Abbreviation fexp := (SpecFloat.fexp prec emax).
Local Abbreviation value_at := (value_at emax).

Lemma rounded_value_opp (m e : Z) : rounded_value prec emax (- m) e = - rounded_value prec emax m e.
Proof.
  destruct m as [|p|p]; cbn [Z.opp rounded_value]; lia.
Qed.

(** Rounding at a lower exponent is rounding at [emin], rescaled. *)
Lemma rounded_value_scale (V e : Z) :
  e <= emin ->
  rounded_value prec emax (V * 2 ^ (emin - e)) e =
  rounded_value prec emax V emin * 2 ^ (emin - e).
Proof.
  intros He.
  destruct (binary_normalize_value prec emax prec_pos prec_lt_emax
              (V * 2 ^ (emin - e)) e false He) as (Val & _ & <-).
  destruct (binary_normalize_value prec emax prec_pos prec_lt_emax
              V emin false ltac:(lia)) as (Val' & _ & <-).
  assert (binary_normalize prec emax (V * 2 ^ (emin - e)) e false =
          binary_normalize prec emax V emin false) as E.
  { rewrite <- (binary_normalize_shift prec emax prec_pos prec_lt_emax
                  V emin (emin - e) false) by lia.
    f_equal. lia. }
  rewrite E. apply value_rescale; trivial.
Qed.

(** An integer of at most [prec] bits, times a power of two within the
    range, is a float: rounding leaves it alone. *)
Lemma rounded_value_dyadic (j i : Z) :
  Z.abs j < 2 ^ prec -> 0 <= i <= emax - prec - emin ->
  rounded_value prec emax (j * 2 ^ i) emin = j * 2 ^ i.
Proof.
  assert (forall k, 0 < k < 2 ^ prec -> 0 <= i <= emax - prec - emin ->
            rounded_value prec emax (k * 2 ^ i) emin = k * 2 ^ i) as Hpos.
  { clear j. intros j [Hj Hlt] Hi.
    pose proof (pow2_pos i ltac:(lia)) as Pi.
    assert (0 < j * 2 ^ i) as HM by nia.
    destruct (j * 2 ^ i) as [|p|p] eqn:EM; try lia.
    cbn [rounded_value]. rewrite <- EM.
    pose proof (Zdigits2_bounds j Hj) as [Dl Du].
    pose proof (Zdigits2_pos j Hj) as Dp.
    assert (Zdigits2 j <= prec) as Hd.
    { assert (Zdigits2 j - 1 < prec); [|lia]. apply pow2_lt_inv; lia. }
    assert (rounded prec emax (j * 2 ^ i) emin = j * 2 ^ i) as ->.
    { unfold rounded. rewrite Zdigits2_shift by lia.
      unfold SpecFloat.fexp. fold emin.
      set (n := Z.max (Zdigits2 j + i + emin - prec) emin - emin).
      assert (0 <= n <= i) as Hn by lia.
      pose proof (pow2_pos n ltac:(lia)) as Pn.
      assert (j * 2 ^ i = j * 2 ^ (i - n) * 2 ^ n) as E.
      { rewrite <- Z.mul_assoc, <- pow2_split by lia. do 2 f_equal. lia. }
      rewrite rne_exact by (try lia; rewrite E; apply Z.mod_mul; lia).
      rewrite E at 1. rewrite Z.div_mul by lia. lia. }
    apply Z.min_l.
    apply Z.le_trans with (2 ^ prec * 2 ^ i); [nia|].
    rewrite <- pow2_split by lia. apply pow2_le. lia. }
  intros Hj Hi. destruct (Z.lt_trichotomy j 0) as [Hn|[->|Hp]].
  - replace (j * 2 ^ i) with (- ((- j) * 2 ^ i)) by lia.
    rewrite rounded_value_opp, Hpos by lia. lia.
  - reflexivity.
  - apply Hpos; lia.
Qed.

End ExactValues.

(* ===================================================================== *)
(** * The zoom heuristic *)
(* ===================================================================== *)

Section Zoom.

Local Abbreviation emin64 := (SpecFloat.emin PyFloat.prec PyFloat.emax).
Local Abbreviation value := (value_at PyFloat.emax emin64).
Local Abbreviation number64 := (number PyFloat.prec PyFloat.emax).

Lemma prec64_pos : 0 < PyFloat.prec.
Proof. reflexivity. Qed.

Lemma prec64_lt_emax : PyFloat.prec < PyFloat.emax.
Proof. reflexivity. Qed.

(** [a <= b] on Python floats is the order of the values. *)
Lemma leb_value (a b : PyFloat.float) :
  PyFloat.valid a = true -> PyFloat.valid b = true -> PyFloat.leb a b = true ->
  number64 a /\ number64 b /\ value a <= value b.
Proof.
  unfold PyFloat.valid, PyFloat.leb, SFleb. intros Va Vb H.
  assert (is_nan a = false /\ is_nan b = false) as [Na Nb].
  { destruct a, b; try discriminate; now split. }
  rewrite (SFcompare_value PyFloat.prec PyFloat.emax prec64_pos prec64_lt_emax
             a b Va Vb Na Nb) in H.
  split; [now split|]. split; [now split|].
  destruct (Z.compare_spec (value a) (value b)); try discriminate; lia.
Qed.

(** [int(x)] of a number, when it does not raise, is the value truncated. *)
Lemma to_int_value (x : PyFloat.float) (z : Z) :
  PyFloat.valid x = true -> PyFloat.to_int x = Ok z ->
  z = value x ÷ 2 ^ (- emin64).
Proof.
  unfold PyFloat.valid, PyFloat.to_int. intros V H.
  destruct x as [s|s| |s m e]; try discriminate; injection H as <-.
  - reflexivity.
  - cbn [valid_binary] in V.
    destruct (bounded_facts PyFloat.prec PyFloat.emax prec64_pos m e V)
      as ((A & _) & _).
    now apply truncate_value.
Qed.

Lemma of_int_finite (n : Z) (x : PyFloat.float) :
  PyFloat.of_int n = Ok x -> PyFloat.valid x = true /\ finite_or_zero x = true.
Proof.
  unfold PyFloat.of_int, PyFloat.valid. intros H.
  destruct (of_Z_number PyFloat.prec PyFloat.emax prec64_pos prec64_lt_emax n)
    as [V N].
  fold (PyFloat.of_Z n) in V, N.
  destruct (PyFloat.of_Z n); try discriminate; injection H as <-; now split.
Qed.

End Zoom.

(** C8. For a fixed frame width the zoom value does not increase with the
    width of the bounding box: for two widths [w1 <= w2] (Python floats)
    for which [int(10000 + (frame_width - w) * 5)] is computed, the zoom
    for [w2] is at most the zoom for [w1]. *)
Theorem zoom_value_monotone
  (frame_width : Z) (w1 w2 : PyFloat.float) (z1 z2 : Z) :
  PyFloat.valid w1 = true -> PyFloat.valid w2 = true ->
  PyFloat.leb w1 w2 = true ->
  AIFollower.zoom_value frame_width w1 = Ok z1 ->
  AIFollower.zoom_value frame_width w2 = Ok z2 ->
  z2 <= z1.
Proof.
  intros V1 V2 Hle E1 E2.
  destruct (leb_value w1 w2 V1 V2 Hle) as (N1 & N2 & Hv).
  unfold AIFollower.zoom_value in E1, E2.
  destruct (PyFloat.of_int frame_width) as [fw|] eqn:Efw; [|discriminate].
  cbn [bind Monad_result] in E1, E2.
  destruct (of_int_finite frame_width fw Efw) as [Vfw Ffw].
  pose proof prec64_pos as Hp. pose proof prec64_lt_emax as Hpe.
  (* frame_width - w *)
  pose proof (SFsub_number _ _ Hp Hpe fw w1 Vfw Ffw N1) as Ns1.
  pose proof (SFsub_number _ _ Hp Hpe fw w2 Vfw Ffw N2) as Ns2.
  pose proof (SFsub_antitone _ _ Hp Hpe fw w1 w2 Vfw Ffw N1 N2 Hv) as Hs.
  fold (PyFloat.sub fw w1) in Ns1, Hs. fold (PyFloat.sub fw w2) in Ns2, Hs.
  (* ... * 5 *)
  assert (PyFloat.of_Z 5 = S754_finite false 5629499534213120 (-50)) as E5
    by (vm_compute; reflexivity).
  rewrite E5 in E1, E2.
  pose proof (SFmul_number _ _ Hp Hpe (PyFloat.sub fw w1) 5629499534213120 (-50)
                eq_refl ltac:(lia) Ns1) as Nm1.
  pose proof (SFmul_number _ _ Hp Hpe (PyFloat.sub fw w2) 5629499534213120 (-50)
                eq_refl ltac:(lia) Ns2) as Nm2.
  pose proof (SFmul_monotone _ _ Hp Hpe (PyFloat.sub fw w2) (PyFloat.sub fw w1)
                5629499534213120 (-50) eq_refl ltac:(lia) Ns2 Ns1 Hs) as Hm.
  (* 10000 + ... *)
  assert (PyFloat.valid (PyFloat.of_Z 10000) = true /\
          finite_or_zero (PyFloat.of_Z 10000) = true) as [Vc Fc]
    by (split; vm_compute; reflexivity).
  pose proof (SFadd_number _ _ Hp Hpe (PyFloat.of_Z 10000) _ Vc Fc Nm1) as Na1.
  pose proof (SFadd_number _ _ Hp Hpe (PyFloat.of_Z 10000) _ Vc Fc Nm2) as Na2.
  pose proof (SFadd_monotone _ _ Hp Hpe (PyFloat.of_Z 10000) _ _ Vc Fc Nm2 Nm1 Hm)
    as Ha.
  (* int(...) *)
  rewrite (to_int_value _ z1 (proj1 Na1) E1), (to_int_value _ z2 (proj1 Na2) E2).
  apply Z.quot_le_mono; [|exact Ha].
  apply pow2_pos. pose proof (emin_nonpos _ _ Hp Hpe). lia.
Qed.

(** Two boxes in a 1280-pixel-wide frame: 100 and 250.5 pixels wide. *)
Lemma zoom_value_monotone_witness :
  AIFollower.zoom_value 1280 (PyFloat.of_Z 100) = Ok 15900 /\
  AIFollower.zoom_value 1280 (S754_finite false 8813685208252416 (-45)) = Ok 15147 /\
  15147 <= 15900.
Proof.
  split; [vm_compute; reflexivity|]. split; [vm_compute; reflexivity|].
  refine (zoom_value_monotone 1280 (PyFloat.of_Z 100)
            (S754_finite false 8813685208252416 (-45)) 15900 15147 _ _ _ _ _).
  - vm_compute. reflexivity.
  - vm_compute. reflexivity.
  - vm_compute. reflexivity.
  - vm_compute. reflexivity.
  - vm_compute. reflexivity.
Defined.

(* ===================================================================== *)
(** * Multiplying by 0.1 and truncating *)
(* ===================================================================== *)

Section Tenth.

Local Abbreviation emin64 := (SpecFloat.emin PyFloat.prec PyFloat.emax).
Local Abbreviation value := (value_at PyFloat.emax emin64).
Local Abbreviation round64 := (rounded_value PyFloat.prec PyFloat.emax).

Lemma emin64_eq : emin64 = -1074.
Proof. reflexivity. Qed.

(** An integer below [2^53] converts exactly. *)
Lemma of_int_exact (d : Z) :
  Z.abs d < 2 ^ 53 ->
  exists fd, PyFloat.of_int d = Ok fd /\ PyFloat.valid fd = true /\
             finite_or_zero fd = true /\ value fd = d * 2 ^ 1074.
Proof.
  intros Hd.
  destruct (of_Z_number PyFloat.prec PyFloat.emax prec64_pos prec64_lt_emax d)
    as [V N].
  assert (value (PyFloat.of_Z d) = d * 2 ^ 1074) as Ev.
  { unfold PyFloat.of_Z.
    rewrite <- (binary_normalize_shift PyFloat.prec PyFloat.emax prec64_pos
                  prec64_lt_emax d 0 1074 false) by lia.
    change (0 - 1074) with emin64.
    destruct (binary_normalize_value PyFloat.prec PyFloat.emax prec64_pos
                prec64_lt_emax (d * 2 ^ 1074) emin64 false ltac:(lia))
      as (_ & _ & ->).
    apply rounded_value_dyadic; try reflexivity; [exact Hd|].
    rewrite emin64_eq. unfold PyFloat.emax, PyFloat.prec. lia. }
  fold (PyFloat.of_Z d) in V, N.
  unfold PyFloat.of_int, PyFloat.valid.
  destruct (PyFloat.of_Z d) as [s|s| |s m e] eqn:E; try discriminate.
  - eexists. repeat split; trivial.
  - exfalso. cbn [value_at] in Ev. rewrite emin64_eq in Ev.
    change (PyFloat.emax - -1074) with 2098 in Ev.
    assert (2 ^ 2098 = 2 ^ 1024 * 2 ^ 1074) as E2 by (rewrite <- pow2_split; lia).
    pose proof (pow2_pos 1074 ltac:(lia)). pose proof (pow2_lt 53 1024 ltac:(lia)).
    destruct s; cbn [cond_Zopp] in Ev; nia.
  - eexists. repeat split; trivial.
Qed.

Lemma tenth_bounds (a : Z) :
  0 <= a <= 2 ^ 40 ->
  a / 10 * 2 ^ 1074 <= round64 (a * 7205759403792794 * 2 ^ 1018) emin64
                     < (a / 10 + 1) * 2 ^ 1074.
Proof.
  intros Ha. pose proof (Z.div_mod a 10 ltac:(lia)) as Ed.
  pose proof (Z.mod_pos_bound a 10 ltac:(lia)) as Hr.
  set (k := a / 10) in *. set (r := a mod 10) in *.
  assert (2 ^ 40 = 1099511627776) as E40 by reflexivity.
  assert (2 ^ 53 = 9007199254740992) as E53 by reflexivity.
  assert (2 ^ 56 = 72057594037927936) as E56 by reflexivity.
  assert (2 ^ 46 = 70368744177664) as E46 by reflexivity.
  assert (2 ^ 10 = 1024) as E10 by reflexivity.
  pose proof (pow2_pos 1018 ltac:(lia)) as PB.
  assert (2 ^ 1074 = 2 ^ 56 * 2 ^ 1018) as EP by (rewrite <- pow2_split; lia).
  assert (2 ^ 1064 = 2 ^ 46 * 2 ^ 1018) as EQ by (rewrite <- pow2_split; lia).
  set (B := 2 ^ 1018) in *.
  assert (round64 (k * 2 ^ 1074) emin64 = k * 2 ^ 1074) as EL.
  { apply rounded_value_dyadic; try reflexivity.
    - change (2 ^ PyFloat.prec) with (2 ^ 53). lia.
    - rewrite emin64_eq. unfold PyFloat.emax, PyFloat.prec. lia. }
  assert (round64 (((k + 1) * 1024 - 1) * 2 ^ 1064) emin64 =
          ((k + 1) * 1024 - 1) * 2 ^ 1064) as EU.
  { apply rounded_value_dyadic; try reflexivity.
    - change (2 ^ PyFloat.prec) with (2 ^ 53). lia.
    - rewrite emin64_eq. unfold PyFloat.emax, PyFloat.prec. lia. }
  pose proof (rounded_value_mono PyFloat.prec PyFloat.emax prec64_pos prec64_lt_emax
                (k * 2 ^ 1074) (a * 7205759403792794 * B) emin64 ltac:(lia)) as ML.
  pose proof (rounded_value_mono PyFloat.prec PyFloat.emax prec64_pos prec64_lt_emax
                (a * 7205759403792794 * B) (((k + 1) * 1024 - 1) * 2 ^ 1064)
                emin64 ltac:(lia)) as MU.
  rewrite EL in ML. rewrite EU in MU.
  rewrite EP, EQ in *.
  split.
  - apply ML. rewrite Z.mul_assoc. apply Z.mul_le_mono_nonneg_r; lia.
  - eapply Z.le_lt_trans.
    + apply MU. rewrite Z.mul_assoc. apply Z.mul_le_mono_nonneg_r; lia.
    + rewrite !Z.mul_assoc. apply Z.mul_lt_mono_pos_r; lia.
Qed.

(** [int(d * 0.1)] is the quotient of [d] by ten, truncated toward zero. *)
Lemma proportional_truncates (d : Z) :
  Z.abs d <= 2 ^ 40 -> AIFollower.proportional d = Ok (d ÷ 10).
Proof.
  intros Hd.
  assert (2 ^ 40 = 1099511627776) as E40 by reflexivity.
  assert (2 ^ 53 = 9007199254740992) as E53 by reflexivity.
  destruct (of_int_exact d ltac:(lia)) as (fd & Efd & Vfd & Ffd & Evd).
  unfold AIFollower.proportional. rewrite Efd. cbn [bind Monad_result].
  unfold PyFloat.mul, PyFloat.lit_0_1.
  destruct (SFmul_value PyFloat.prec PyFloat.emax prec64_pos prec64_lt_emax
              fd 7205759403792794 (-56) Vfd Ffd eq_refl ltac:(lia))
    as (Vr & Nr & Er).
  set (r := SFmul PyFloat.prec PyFloat.emax fd
              (S754_finite false 7205759403792794 (-56))) in *.
  rewrite (value_rescale PyFloat.prec PyFloat.emax prec64_pos prec64_lt_emax
             (emin64 + -56) r ltac:(lia) Vr) in Er.
  rewrite Evd in Er.
  replace (emin64 - (emin64 + -56)) with 56 in Er by lia.
  assert (d * 2 ^ 1074 * 7205759403792794 =
          d * 7205759403792794 * 2 ^ 1018 * 2 ^ (emin64 - (emin64 + -56))) as EV.
  { replace (emin64 - (emin64 + -56)) with 56 by lia.
    rewrite <- (Z.mul_assoc _ (2 ^ 1018)), <- pow2_split by lia.
    change (1018 + 56) with 1074. lia. }
  rewrite EV in Er.
  rewrite (rounded_value_scale PyFloat.prec PyFloat.emax prec64_pos prec64_lt_emax)
    in Er by lia.
  replace (emin64 - (emin64 + -56)) with 56 in Er by lia.
  apply Z.mul_cancel_r in Er; [|pose proof (pow2_pos 56 ltac:(lia)); lia].
  pose proof (pow2_pos 1074 ltac:(lia)) as PP.
  assert (2 ^ (PyFloat.emax - emin64) = 2 ^ 1024 * 2 ^ 1074) as Ecap.
  { rewrite emin64_eq. change (PyFloat.emax - -1074) with (1024 + 1074).
    apply pow2_split; lia. }
  pose proof (pow2_lt 53 1024 ltac:(lia)) as P1024.
  assert (value r = cond_Zopp (d <? 0)
                      (round64 (Z.abs d * 7205759403792794 * 2 ^ 1018) emin64)) as Es.
  { rewrite Er. destruct (Z.ltb_spec d 0); cbn [cond_Zopp].
    - rewrite <- rounded_value_opp. f_equal. lia.
    - f_equal. lia. }
  pose proof (tenth_bounds (Z.abs d) ltac:(lia)) as [BL BU].
  set (R := round64 (Z.abs d * 7205759403792794 * 2 ^ 1018) emin64) in *.
  assert (0 <= Z.abs d / 10 <= 2 ^ 40) as [K0 K1].
  { split; [apply Z.div_pos; lia|].
    apply Z.le_trans with (Z.abs d); [|lia]. apply Z.div_le_upper_bound; lia. }
  assert (R ÷ 2 ^ 1074 = Z.abs d / 10) as EQ.
  { rewrite Z.quot_div_nonneg by nia. symmetry.
    apply (Z.div_unique_pos _ _ _ (R - Z.abs d / 10 * 2 ^ 1074)); lia. }
  assert (finite_or_zero r = true) as Fr.
  { destruct r as [s|s| |s m e]; try discriminate; try reflexivity.
    exfalso. cbn [value_at] in Es. rewrite Ecap in Es.
    destruct s, (d <? 0); cbn [cond_Zopp] in Es; nia. }
  assert (exists z, PyFloat.to_int r = Ok z) as (z & Ez)
    by (destruct r; try discriminate; cbn; eauto).
  rewrite Ez. f_equal.
  rewrite (to_int_value r z Vr Ez), Es.
  change (- emin64) with 1074.
  destruct (Z.ltb_spec d 0); cbn [cond_Zopp].
  - rewrite Z.quot_opp_l, EQ by lia.
    rewrite <- (Z.quot_div_nonneg (Z.abs d) 10) by lia.
    rewrite <- Z.quot_opp_l by lia. f_equal. lia.
  - rewrite EQ. rewrite <- Z.quot_div_nonneg by lia. f_equal. lia.
Qed.

End Tenth.

(* ===================================================================== *)
(** * The control law of the follower *)
(* ===================================================================== *)

Section ControlLaw.

Import CameraController AIFollower.

Lemma steps_if (b : bool) (m : Py unit) (cs : list ControlCommand) :
  steps m cs -> steps (if b then m else ret tt) (if b then cs else []).
Proof. destruct b; [trivial|intros _; apply steps_ret]. Qed.

(** What [follow] calls once the centre and the two outputs are computed. *)
Lemma follow_issued (fw fh : Z) (person : Box) (w : World) (cx cy pv tv : Z) :
  center (x1 person) (x2 person) = Ok cx ->
  center (y1 person) (y2 person) = Ok cy ->
  proportional (cx - fw / 2) = Ok pv ->
  proportional (cy - fh / 2) = Ok tv ->
  issued (world_of (follow fw fh person w)) =
    issued w ++
    control_calls pv tv (zoom_value fw (PyFloat.sub (x2 person) (x1 person))).
Proof.
  intros Ex Ey Ep Et. unfold follow, control_calls.
  cbn [bind Monad_Py]. rewrite Ex. cbn [lift]. rewrite Ey. cbn [lift].
  rewrite Ep. cbn [lift]. rewrite Et. cbn [lift].
  destruct (steps_if (1 <? Z.abs pv) (pan pv) [Pan pv] (steps_pan pv) w)
    as ([] & w1 & E1 & _ & I1 & _).
  rewrite E1.
  destruct (steps_if (1 <? Z.abs tv) (tilt tv) [Tilt tv] (steps_tilt tv) w1)
    as ([] & w2 & E2 & _ & I2 & _).
  rewrite E2.
  destruct (zoom_value fw (PyFloat.sub (x2 person) (x1 person))) as [z|e];
    cbn [lift].
  - destruct (steps_set_zoom z w2) as ([] & w3 & E3 & _ & I3 & _).
    rewrite E3. cbn [world_of]. rewrite I3, I2, I1, <- !app_assoc. reflexivity.
  - cbn [world_of]. rewrite I2, I1, app_nil_r, <- app_assoc. reflexivity.
Qed.

End ControlLaw.

(** C1, with [int] truncating where the specification says [round]. For
    a frame whose first person detection has a centre
    [(cx, cy)], the outputs are [int(dx * 0.1)] and [int(dy * 0.1)] for the
    pixel errors [dx = cx - frame_width // 2] and
    [dy = cy - frame_height // 2], which is the quotient by ten truncated
    toward zero (for errors of magnitude up to [2^40]); the frame calls
    [pan] exactly when the pan output exceeds 1 in magnitude, with that
    output as its argument, [tilt] likewise, and then [set_zoom], and
    nothing else. *)
Theorem control_law_truncates
  (fw fh : Z) (frame : AIFollower.Frame) (person : AIFollower.Box)
  (w : World) (cx cy pv tv : Z) :
  AIFollower.first_person (AIFollower.boxes frame) = Ok (Some person) ->
  AIFollower.center (AIFollower.x1 person) (AIFollower.x2 person) = Ok cx ->
  AIFollower.center (AIFollower.y1 person) (AIFollower.y2 person) = Ok cy ->
  AIFollower.proportional (cx - fw / 2) = Ok pv ->
  AIFollower.proportional (cy - fh / 2) = Ok tv ->
  let w' := world_of (AIFollower.step fw fh frame w) in
  issued w' =
    issued w ++
    control_calls pv tv
      (AIFollower.zoom_value fw
         (PyFloat.sub (AIFollower.x2 person) (AIFollower.x1 person))) /\
  (forall v, In (Pan v) (issued_since w w') <-> v = pv /\ 1 < Z.abs pv) /\
  (forall v, In (Tilt v) (issued_since w w') <-> v = tv /\ 1 < Z.abs tv) /\
  (Z.abs (cx - fw / 2) <= 2 ^ 40 -> pv = (cx - fw / 2) ÷ 10) /\
  (Z.abs (cy - fh / 2) <= 2 ^ 40 -> tv = (cy - fh / 2) ÷ 10).
Proof.
  intros Hp Ex Ey Ep Et w'.
  assert (issued w' =
          issued w ++
          control_calls pv tv
            (AIFollower.zoom_value fw
               (PyFloat.sub (AIFollower.x2 person) (AIFollower.x1 person))))
    as Hi.
  { subst w'. unfold AIFollower.step. cbn [bind Monad_Py]. rewrite Hp.
    cbn [lift].
    pose proof (follow_issued fw fh person w cx cy pv tv Ex Ey Ep Et) as H.
    destruct (AIFollower.follow fw fh person w); exact H. }
  split; [exact Hi|].
  assert (issued_since w w' =
          control_calls pv tv
            (AIFollower.zoom_value fw
               (PyFloat.sub (AIFollower.x2 person) (AIFollower.x1 person))))
    as Hs.
  { unfold issued_since. rewrite Hi. now rewrite skipn_app, skipn_all, Nat.sub_diag. }
  rewrite Hs. unfold control_calls.
  split; [|split; [|split]].
  - intros v. split.
    + intros H. apply in_app_or in H as [H|H].
      * destruct (Z.ltb_spec 1 (Z.abs pv)); [|destruct H].
        destruct H as [[= <-]|[]]. now split.
      * apply in_app_or in H as [H|H].
        -- destruct (1 <? Z.abs tv); [destruct H as [[=]|[]]|destruct H].
        -- destruct (AIFollower.zoom_value _ _);
             [destruct H as [[=]|[]]|destruct H].
    + intros (-> & H). apply in_or_app. left.
      destruct (Z.ltb_spec 1 (Z.abs pv)); [now left|lia].
  - intros v. split.
    + intros H. apply in_app_or in H as [H|H].
      * destruct (1 <? Z.abs pv); [destruct H as [[=]|[]]|destruct H].
      * apply in_app_or in H as [H|H].
        -- destruct (Z.ltb_spec 1 (Z.abs tv)); [|destruct H].
           destruct H as [[= <-]|[]]. now split.
        -- destruct (AIFollower.zoom_value _ _);
             [destruct H as [[=]|[]]|destruct H].
    + intros (-> & H). apply in_or_app. right. apply in_or_app. left.
      destruct (Z.ltb_spec 1 (Z.abs tv)); [now left|lia].
  - intros Hb. rewrite (proportional_truncates _ Hb) in Ep. congruence.
  - intros Hb. rewrite (proportional_truncates _ Hb) in Et. congruence.
Qed.

(** C1 does not hold with rounding. In a 1280x720 frame, a person box
    centred at (659, 360) gives the pixel error [dx = 19];
    [round(19 * 0.1)] is 2, which exceeds 1 in magnitude, yet the code
    computes [int(19 * 0.1) = 1] and calls no [pan]: the frame calls
    [set_zoom] only. *)
Lemma control_law_does_not_round :
  let person := person_box 609 310 709 410 in
  let frame := {| AIFollower.boxes := [person]; AIFollower.key := 0 |} in
  AIFollower.first_person (AIFollower.boxes frame) = Ok (Some person) /\
  AIFollower.center (AIFollower.x1 person) (AIFollower.x2 person) = Ok 659 /\
  659 - 1280 / 2 = 19 /\
  proportional_as_specified 19 = Ok 2 /\
  1 < Z.abs 2 /\
  AIFollower.proportional 19 = Ok 1 /\
  issued (world_of (AIFollower.step 1280 720 frame open_world)) =
    [SetZoom 15900] /\
  ~ control_law_rounds.
Proof.
  cbn zeta.
  set (person := person_box 609 310 709 410).
  set (frame := {| AIFollower.boxes := [person]; AIFollower.key := 0 |}).
  assert (AIFollower.first_person (AIFollower.boxes frame) = Ok (Some person))
    as E1 by (vm_compute; reflexivity).
  assert (AIFollower.center (AIFollower.x1 person) (AIFollower.x2 person) = Ok 659)
    as E2 by (vm_compute; reflexivity).
  assert (AIFollower.center (AIFollower.y1 person) (AIFollower.y2 person) = Ok 360)
    as E3 by (vm_compute; reflexivity).
  assert (proportional_as_specified (659 - 1280 / 2) = Ok 2)
    as E4 by (vm_compute; reflexivity).
  assert (proportional_as_specified (360 - 720 / 2) = Ok 0)
    as E5 by (vm_compute; reflexivity).
  assert (issued (world_of (AIFollower.step 1280 720 frame open_world)) =
          [SetZoom 15900]) as E6 by (vm_compute; reflexivity).
  assert (issued_since open_world
            (world_of (AIFollower.step 1280 720 frame open_world)) =
          [SetZoom 15900]) as E7 by (vm_compute; reflexivity).
  split; [exact E1|]. split; [exact E2|]. split; [reflexivity|].
  split; [exact E4|]. split; [reflexivity|].
  split; [vm_compute; reflexivity|]. split; [exact E6|].
  intros H.
  pose proof (H 1280 720 frame person open_world 659 360 2 0 E1 E2 E3 E4 E5)
    as [Hpan _].
  rewrite E7 in Hpan.
  destruct (proj2 (Hpan 2) (conj eq_refl eq_refl)) as [E|[]].
  discriminate E.
Qed.

(** The scenario of a 1280x720 frame with the box (590,330)-(690,430):
    the centre is (640, 380), so [dx = 0] and [dy = 20]; tilt 2 is
    commanded, no pan, and the zoom is 15900. *)
Lemma control_law_truncates_witness :
  let person := person_box 590 330 690 430 in
  let frame := {| AIFollower.boxes := [person]; AIFollower.key := 0 |} in
  issued (world_of (AIFollower.step 1280 720 frame open_world)) =
    issued open_world ++
    control_calls 0 2
      (AIFollower.zoom_value 1280
         (PyFloat.sub (AIFollower.x2 person) (AIFollower.x1 person))).
Proof.
  intros person frame.
  refine (proj1 (control_law_truncates 1280 720 frame person open_world
                   640 380 0 2 _ _ _ _ _)).
  - vm_compute. reflexivity.
  - vm_compute. reflexivity.
  - vm_compute. reflexivity.
  - vm_compute. reflexivity.
  - vm_compute. reflexivity.
Defined.

Example scenario_calls :
  issued (world_of (AIFollower.step 1280 720
                      {| AIFollower.boxes := [person_box 590 330 690 430];
                         AIFollower.key := 0 |} open_world)) =
  [Tilt 2; SetZoom 15900].
Proof. vm_compute. reflexivity. Qed.

(** The outputs of the control law on a few pixel errors. *)
Example proportional_19 : AIFollower.proportional 19 = Ok 1.
Proof. vm_compute. reflexivity. Qed.

Example proportional_20 : AIFollower.proportional 20 = Ok 2.
Proof. vm_compute. reflexivity. Qed.

Example proportional_minus_29 : AIFollower.proportional (-29) = Ok (-2).
Proof. vm_compute. reflexivity. Qed.

(** Beyond the exactness bound the float product no longer gives the
    quotient: [int(8000000000000009 * 0.1)] is not [800000000000000]. *)
Example proportional_beyond_2_40 :
  AIFollower.proportional 8000000000000009 = Ok 800000000000001 /\
  8000000000000009 ÷ 10 = 800000000000000.
Proof. split; vm_compute; reflexivity. Qed.

Example proportional_as_specified_minus_29 :
  proportional_as_specified (-29) = Ok (-3).
Proof. vm_compute. reflexivity. Qed.

(** A command on a controller whose port failed to open. *)
Example closed_send :
  CameraController.send_command (lit "M0 B") closed_world =
  Returns None
    {| serial := None; wire := []; replies := [];
       log := [LogOpenFailed; LogNotOpen]; issued := [] |}.
Proof. reflexivity. Qed.

(** What a tilt by 2 puts on the wire of an open channel. *)
Example tilt_on_the_wire :
  wire (world_of (CameraController.tilt 2 open_world)) =
  [x47; x30; x20; x59; x32; x0d; x0a; x4d; x30; x20; x59; x0d; x0a].
Proof. vm_compute. reflexivity. Qed.

(* ===================================================================== *)
(** * Whatever is called, the wire follows the log *)
(* ===================================================================== *)

Section Orderly.

Import CameraController.

Lemma sent_bytes_app (a b : list LogEntry) :
  sent_bytes (a ++ b) = sent_bytes a ++ sent_bytes b.
Proof. apply flat_map_app. Qed.

Lemma orderly_ret {A} (a : A) : orderly (ret a : Py A).
Proof.
  intros w. cbn. split; [reflexivity|]. split.
  - exists []. now rewrite app_nil_r.
  - exists []. cbn. now rewrite !app_nil_r.
Qed.

Lemma orderly_bind {A B} (m : Py A) (k : A -> Py B) :
  orderly m -> (forall a, orderly (k a)) -> orderly (bind m k).
Proof.
  intros Hm Hk w. specialize (Hm w). cbn [bind Monad_Py].
  destruct (m w) as [a w1|e w1]; cbn [world_of] in *; [|exact Hm].
  destruct Hm as (S1 & (c1 & I1) & l1 & L1 & W1).
  destruct (Hk a w1) as (S2 & (c2 & I2) & l2 & L2 & W2).
  split; [congruence|]. split.
  - exists (c1 ++ c2). now rewrite I2, I1, app_assoc.
  - exists (l1 ++ l2). rewrite L2, L1, W2, W1, sent_bytes_app, !app_assoc.
    now split.
Qed.

Lemma orderly_lift {A} (r : result A) : orderly (lift r).
Proof.
  intros w. unfold lift. destruct r; cbn; (split; [reflexivity|]); split;
    exists []; cbn; now rewrite ?app_nil_r.
Qed.

Lemma orderly_note (c : ControlCommand) : orderly (note c).
Proof.
  intros w. cbn. split; [reflexivity|]. split; [now exists [c]|].
  exists []. cbn. now rewrite !app_nil_r.
Qed.

Lemma orderly_log (e : LogEntry) :
  (forall cmd, e <> LogOut cmd) -> orderly (_log e).
Proof.
  intros He w. cbn. split; [reflexivity|]. split.
  - exists []. now rewrite app_nil_r.
  - exists [e]. split; [reflexivity|].
    destruct e; cbn; rewrite ?app_nil_r; trivial. now contradiction (He cmd).
Qed.

Lemma open_or_not (w : World) :
  channel_open w \/ serial w <> Some {| is_open := true |}.
Proof.
  unfold channel_open. destruct (serial w) as [[[|]]|]; [now left| |];
    right; discriminate.
Qed.

Lemma orderly_send_command (cmd : str) : orderly (send_command cmd).
Proof.
  intros w. destruct (open_or_not w) as [Ho|Hn].
  - rewrite (send_command_open cmd w Ho).
    destruct (encode (strip cmd ++ CRLF)) as [data|e] eqn:E; cbn [world_of].
    + cbn. split; [reflexivity|]. split; [exists []; now rewrite app_nil_r|].
      eexists. split; [reflexivity|]. cbn. rewrite E. now rewrite app_nil_r.
    + split; [reflexivity|]. split; exists []; cbn; now rewrite ?app_nil_r.
  - rewrite send_command_not_open by exact Hn. cbn.
    split; [reflexivity|]. split; [exists []; now rewrite app_nil_r|].
    exists [LogNotOpen]. cbn. now rewrite app_nil_r.
Qed.

Lemma orderly_if {A} (b : bool) (m1 m2 : Py A) :
  orderly m1 -> orderly m2 -> orderly (if b then m1 else m2).
Proof. now destruct b. Qed.

Ltac orderly_tac :=
  repeat match goal with
    | |- orderly (send_command _) => apply orderly_send_command
    | |- orderly (ret _) => apply orderly_ret
    | |- orderly (lift _) => apply orderly_lift
    | |- orderly (_log _) => apply orderly_log; discriminate
    | |- orderly (note _) => apply orderly_note
    | |- orderly (bind _ _) => apply orderly_bind; [|intros ?]
    | |- orderly (if _ then _ else _) => apply orderly_if
    | |- orderly ir_on => unfold ir_on
    | |- orderly ir_off => unfold ir_off
    end.

Lemma orderly_perform (c : ControlCommand) : orderly (perform c).
Proof.
  destruct c; cbn [perform];
    unfold wake_up, autofocus, set_zoom, set_focus,
      set_mode_day, set_mode_night, pan, tilt; orderly_tac.
Qed.

Lemma orderly_sweep (cap : Camera) (candidates : list Z) (best : Best) :
  orderly (sweep cap candidates best).
Proof.
  revert best. induction candidates as [|f rest IH]; intros best; cbn [sweep].
  - apply orderly_ret.
  - apply orderly_bind; [apply (orderly_perform (SetFocus f))|intros _].
    destruct (cap f); [|apply IH].
    apply orderly_bind; [apply orderly_log; discriminate|intros _].
    apply orderly_if; apply IH.
Qed.

Lemma orderly_autofocus_loop video lo hi step :
  orderly (autofocus_loop video lo hi step).
Proof.
  unfold autofocus_loop. destruct video as [cap|]; [|apply orderly_log; discriminate].
  apply orderly_bind; [apply orderly_log; discriminate|intros _].
  apply orderly_bind; [apply orderly_lift|intros candidates].
  apply orderly_bind; [apply orderly_sweep|intros best].
  apply orderly_bind; [apply orderly_log; discriminate|intros _].
  apply (orderly_perform (SetFocus (fst best))).
Qed.

Lemma orderly_follow fw fh person : orderly (AIFollower.follow fw fh person).
Proof.
  unfold AIFollower.follow.
  repeat (apply orderly_bind; [apply orderly_lift|intros ?]).
  apply orderly_bind.
  { apply orderly_if; [apply (orderly_perform (Pan _))|apply orderly_ret]. }
  intros _. apply orderly_bind.
  { apply orderly_if; [apply (orderly_perform (Tilt _))|apply orderly_ret]. }
  intros _. apply orderly_bind; [apply orderly_lift|intros ?].
  apply (orderly_perform (SetZoom _)).
Qed.

Lemma orderly_step fw fh frame : orderly (AIFollower.step fw fh frame).
Proof.
  unfold AIFollower.step.
  apply orderly_bind; [apply orderly_lift|intros person].
  apply orderly_bind; [|intros _; apply orderly_ret].
  destruct person; [apply orderly_follow|apply orderly_ret].
Qed.

Lemma orderly_loop fw fh frames : orderly (AIFollower.loop fw fh frames).
Proof.
  induction frames as [|frame rest IH]; cbn [AIFollower.loop].
  - apply orderly_ret.
  - apply orderly_bind; [apply orderly_step|].
    intros continue. apply orderly_if; [exact IH|apply orderly_ret].
Qed.

Lemma orderly_run video : orderly (AIFollower.run video).
Proof.
  unfold AIFollower.run. destruct video; [apply orderly_loop|apply orderly_ret].
Qed.

Lemma orderly_invoke (c : Call) : orderly (invoke c).
Proof.
  destruct c as [cmd|op|video lo hi step|video]; cbn [invoke].
  - apply orderly_bind; [apply orderly_send_command|intros _; apply orderly_ret].
  - apply orderly_perform.
  - apply orderly_autofocus_loop.
  - apply orderly_run.
Qed.

Lemma after_orderly (calls : list Call) (w : World) :
  serial (after calls w) = serial w /\
  (exists made, issued (after calls w) = issued w ++ made) /\
  exists entries,
    log (after calls w) = log w ++ entries /\
    wire (after calls w) = wire w ++ sent_bytes entries.
Proof.
  unfold after. revert w.
  induction calls as [|c calls IH]; intros w; cbn [fold_left].
  - split; [reflexivity|]. split; exists []; cbn; now rewrite ?app_nil_r.
  - destruct (orderly_invoke c w) as (S1 & (c1 & I1) & l1 & L1 & W1).
    destruct (IH (world_of (invoke c w))) as (S2 & (c2 & I2) & l2 & L2 & W2).
    split; [congruence|]. split.
    + exists (c1 ++ c2). now rewrite I2, I1, app_assoc.
    + exists (l1 ++ l2). rewrite L2, L1, W2, W1, sent_bytes_app, !app_assoc.
      now split.
Qed.

End Orderly.

(** X1. Whatever a caller calls, in whatever world, the channel keeps its
    state (an open port is never closed, a closed one never opened) and
    nothing is taken back: the calls made, the log and the bytes on the
    wire only grow. *)
Theorem calls_keep_channel_and_history (calls : list Call) (w : World) :
  serial (after calls w) = serial w /\
  (exists made, issued (after calls w) = issued w ++ made) /\
  (exists entries, log (after calls w) = log w ++ entries) /\
  (exists data, wire (after calls w) = wire w ++ data).
Proof.
  destruct (after_orderly calls w) as (S & I & l & L & W).
  repeat split; eauto.
Qed.

(** X2. From the construction of the controller on, the bytes the device
    has received are exactly, in order, the encodings of the stripped
    commands the log reports as sent, each with its terminator. *)
Theorem wire_is_what_the_log_tells
  (opened : option Serial) (device_replies : list str) (calls : list Call) :
  let w := after calls (CameraController.init opened device_replies) in
  wire w = sent_bytes (log w).
Proof.
  cbn zeta.
  destruct (after_orderly calls (CameraController.init opened device_replies))
    as (_ & _ & l & L & W).
  rewrite L, W, sent_bytes_app. cbn [CameraController.init wire log].
  now destruct opened.
Qed.

(* ===================================================================== *)
(** * More on the command channel *)
(* ===================================================================== *)

(** X3. A send returns [None] exactly when the channel is not open (no
    port, or a port that is not open), and then nothing is written and no
    reply is read; on an open channel it returns if and only if the
    stripped command with its terminator can be encoded: it then writes
    that encoding and returns the device's pending reply, stripped (the
    empty text when the device said nothing), taking it off the queue;
    otherwise it raises the encoder's [UnicodeEncodeError], and nothing
    has been written or logged. *)
Theorem send_command_result (cmd : str) (w : World) :
  match CameraController.send_command cmd w with
  | Returns r w' =>
      (r = None <-> ~ channel_open w) /\
      (~ channel_open w -> wire w' = wire w /\ replies w' = replies w) /\
      (channel_open w ->
         (exists data, encode (strip cmd ++ CRLF) = Ok data /\
                       wire w' = wire w ++ data) /\
         r = Some (strip (hd [] (replies w))) /\ replies w' = tl (replies w))
  | Raises e w' =>
      channel_open w /\ e = UnicodeEncodeError /\
      encode (strip cmd ++ CRLF) = Err e /\ w' = w
  end.
Proof.
  destruct (open_or_not w) as [Ho|Hn].
  - rewrite (send_command_open cmd w Ho).
    destruct (encode (strip cmd ++ CRLF)) as [data|e] eqn:E.
    + split; [split; [discriminate|now intros []]|].
      split; [now intros []|]. intros _.
      split; [exists data; now split|now split].
    + split; [exact Ho|]. split; [exact (encode_error _ _ E)|now split].
  - rewrite (send_command_not_open cmd w Hn).
    split; [split; trivial|]. split; [now split|]. intros Ho. now contradiction Hn.
Qed.

Section ChannelExtras.

Import CameraController.

Lemma raw_app (a b : str) : raw (a ++ b) = raw a ++ raw b.
Proof. apply map_app. Qed.

Lemma encode_ascii (s : str) :
  Forall (fun c => (c < 128)%N) s -> encode s = Ok (raw s).
Proof.
  induction 1 as [|c s Hc _ IH]; [reflexivity|].
  cbn [encode]. unfold encode_char.
  destruct (N.ltb_spec c 128); [|lia]. rewrite IH. reflexivity.
Qed.

Lemma lstrip_id (c : N) (s : str) : is_space c = false -> lstrip (c :: s) = c :: s.
Proof. intros H. cbn. now rewrite H. Qed.

Lemma rstrip_id (s : str) (c : N) : is_space c = false -> rstrip (s ++ [c]) = s ++ [c].
Proof.
  intros H. unfold rstrip. rewrite rev_app_distr. cbn [rev app].
  rewrite lstrip_id by exact H. cbn [rev]. now rewrite rev_involutive.
Qed.

(** A text that does not start or end with whitespace is its own strip. *)
Lemma strip_id (s : str) :
  match s with [] => True | c :: _ => is_space c = false end ->
  match rev s with [] => True | c :: _ => is_space c = false end ->
  strip s = s.
Proof.
  intros Hh Hl. unfold strip. destruct s as [|c s]; [reflexivity|].
  rewrite lstrip_id by exact Hh.
  destruct (rev (c :: s)) as [|d r] eqn:E.
  - apply (f_equal (@List.length N)) in E. rewrite length_rev in E. discriminate.
  - apply (f_equal (@rev N)) in E. rewrite rev_involutive in E. cbn [rev] in E.
    rewrite E. now apply rstrip_id.
Qed.

Lemma strip_fixed_ends (s : str) :
  strip s = s ->
  match s with [] => True | c :: _ => is_space c = false end /\
  match rev s with [] => True | c :: _ => is_space c = false end.
Proof.
  intros E. destruct (strip_shape s) as [_ [E0|(a & b & mid & mid' & E1 & E2 & Ha & Hb)]].
  - rewrite E in E0. subst s. now split.
  - rewrite E in E1, E2. split.
    + now rewrite E1.
    + rewrite E2, rev_app_distr. exact Hb.
Qed.

Lemma send_command_clean (cmd : str) (w : World) :
  channel_open w -> clean cmd ->
  exists r w', send_command cmd w = Returns r w' /\
               wire w' = wire w ++ line cmd /\ issued w' = issued w /\
               serial w' = serial w.
Proof.
  intros Ho (Ha & Hh & Hl).
  rewrite (send_command_open cmd w Ho), encode_terminated, (strip_id cmd Hh Hl).
  rewrite (encode_ascii cmd Ha). eexists _, _. split; [reflexivity|].
  cbn. now repeat split.
Qed.

End ChannelExtras.

(** X4. A command made of whitespace only (the empty text included) is
    sent as an empty line: the terminator alone goes on the wire. *)
Theorem blank_command_sends_empty_line (cmd : str) (w : World) :
  channel_open w -> blank cmd ->
  exists r w', CameraController.send_command cmd w = Returns r w' /\
               wire w' = wire w ++ [x0d; x0a].
Proof.
  intros Ho Hb.
  rewrite (send_command_open cmd w Ho), encode_terminated.
  assert (strip cmd = []) as ->.
  { unfold strip. now rewrite (lstrip_blank cmd Hb). }
  cbn. eexists _, _. split; reflexivity.
Qed.

Lemma blank_command_sends_empty_line_witness :
  exists r w',
    CameraController.send_command [32; 9; 13; 10]%N open_world = Returns r w' /\
    wire w' = wire open_world ++ [x0d; x0a].
Proof.
  refine (blank_command_sends_empty_line [32; 9; 13; 10]%N open_world _ _).
  - reflexivity.
  - repeat constructor.
Defined.

(** X5. Nothing escapes a terminator inside a command: sending the text
    [a], CR LF, [b] in one command puts on the wire what sending [a] and
    then [b] does ([a] and [b] being non-empty, stripped and encodable). *)
Theorem embedded_terminator_splits_the_command
  (a b : str) (da db : bytes) (w : World) :
  channel_open w ->
  a <> [] -> b <> [] -> strip a = a -> strip b = b ->
  encode a = Ok da -> encode b = Ok db ->
  wire (world_of (CameraController.send_command (a ++ CRLF ++ b) w)) =
  wire (world_of ((CameraController.send_command a ;;
                   CameraController.send_command b) w)) /\
  wire (world_of (CameraController.send_command (a ++ CRLF ++ b) w)) =
  wire w ++ da ++ [x0d; x0a] ++ db ++ [x0d; x0a].
Proof.
  intros Ho Ha Hb Sa Sb Ea Eb.
  destruct (strip_fixed_ends a Sa) as [Ha1 Ha2].
  destruct (strip_fixed_ends b Sb) as [Hb1 Hb2].
  assert (strip (a ++ CRLF ++ b) = a ++ CRLF ++ b) as Sab.
  { apply strip_id.
    - destruct a; [contradiction|exact Ha1].
    - rewrite !rev_app_distr. destruct (rev b) eqn:E; [|exact Hb2].
      apply (f_equal (@rev N)) in E. rewrite rev_involutive in E. contradiction. }
  assert (wire (world_of (CameraController.send_command (a ++ CRLF ++ b) w)) =
          wire w ++ da ++ [x0d; x0a] ++ db ++ [x0d; x0a]) as E1.
  { rewrite (send_command_open _ w Ho), encode_terminated, Sab.
    rewrite !encode_app, Ea, Eb. cbn. now rewrite <- !app_assoc. }
  split; [|exact E1]. rewrite E1.
  cbn [bind Monad_Py].
  rewrite (send_command_open a w Ho), encode_terminated, Sa, Ea.
  match goal with |- context [CameraController.send_command b ?w1] =>
    assert (channel_open w1) as Ho1 by exact Ho;
    rewrite (send_command_open b w1 Ho1) end.
  rewrite encode_terminated, Sb, Eb. cbn. now rewrite <- !app_assoc.
Qed.

Lemma embedded_terminator_splits_the_command_witness :
  wire (world_of (CameraController.send_command
                    (lit "G0 B100" ++ CRLF ++ lit "M0 B") open_world)) =
  wire (world_of ((CameraController.send_command (lit "G0 B100") ;;
                   CameraController.send_command (lit "M0 B")) open_world)).
Proof.
  refine (proj1 (embedded_terminator_splits_the_command
                   (lit "G0 B100") (lit "M0 B")
                   (raw (lit "G0 B100")) (raw (lit "M0 B")) open_world
                   _ _ _ _ _ _ _)).
  - reflexivity.
  - discriminate.
  - discriminate.
  - vm_compute. reflexivity.
  - vm_compute. reflexivity.
  - vm_compute. reflexivity.
  - vm_compute. reflexivity.
Defined.

(* ===================================================================== *)
(** * The lines of the operations that carry a value *)
(* ===================================================================== *)

Section AxisLines.

Import CameraController.

Lemma uint_chars (d : Decimal.uint) :
  Forall numeral_char (lit (NilEmpty.string_of_uint d)).
Proof.
  unfold lit, numeral_char.
  induction d; cbn; constructor; trivial; right; cbn; lia.
Qed.

Lemma of_int_chars (v : Z) : Forall numeral_char (of_int v).
Proof.
  unfold of_int.
  assert (forall d, Forall numeral_char (lit (NilZero.string_of_uint d))) as Hu.
  { intros d. destruct d; try apply uint_chars.
    cbn. constructor; [right; cbn; lia|constructor]. }
  destruct (Z.to_int v) as [d|d]; cbn [NilZero.string_of_int].
  - apply Hu.
  - unfold lit. cbn. constructor; [left; reflexivity|apply Hu].
Qed.

Lemma numeral_char_clean (c : N) :
  numeral_char c -> (c < 128)%N /\ is_space c = false.
Proof.
  unfold numeral_char, is_space. intros [->|[H1 H2]]; [now split|].
  split; [lia|].
  repeat match goal with
    | |- context [(?a <=? ?b)%N] => destruct (N.leb_spec a b); try lia
    | |- context [(?a =? ?b)%N] => destruct (N.eqb_spec a b); try lia
    end; reflexivity.
Qed.

(** A command made of a clean literal and a numeral is clean. *)
Lemma clean_command (prefix : string) (v : Z) :
  clean (lit prefix) -> lit prefix <> [] -> clean (lit prefix ++ of_int v).
Proof.
  intros (Ha & Hh & Hl) Hne.
  pose proof (of_int_chars v) as Hc.
  assert (Forall (fun c => (c < 128)%N /\ is_space c = false) (of_int v)) as Hc'.
  { eapply Forall_impl; [|exact Hc]. intros c. apply numeral_char_clean. }
  split; [|split].
  - apply Forall_app. split; [exact Ha|].
    eapply Forall_impl; [|exact Hc']. now intros c [].
  - destruct (lit prefix); [contradiction|exact Hh].
  - rewrite rev_app_distr.
    destruct (rev (of_int v)) as [|d r] eqn:E; [exact Hl|].
    assert (In d (of_int v)) as Hin by (apply in_rev; rewrite E; now left).
    rewrite Forall_forall in Hc'. apply (Hc' d Hin).
Qed.

Lemma two_lines (c : ControlCommand) (cmd1 cmd2 : str) (w : World) :
  channel_open w -> clean cmd1 -> clean cmd2 ->
  exists w',
    (note c ;; send_command cmd1 ;; send_command cmd2 ;; ret tt) w = Returns tt w' /\
    wire w' = wire w ++ line cmd1 ++ line cmd2 /\ channel_open w'.
Proof.
  intros Ho H1 H2. cbn [bind Monad_Py note].
  match goal with |- context [send_command cmd1 ?w1] =>
    destruct (send_command_clean cmd1 w1 Ho H1) as (r1 & w2 & E1 & W1 & _ & S1);
    rewrite E1 end.
  assert (channel_open w2) as Ho2 by (unfold channel_open; rewrite S1; exact Ho).
  destruct (send_command_clean cmd2 w2 Ho2 H2) as (r2 & w3 & E2 & W2 & _ & S2).
  rewrite E2. exists w3. split; [reflexivity|]. split.
  - rewrite W2, W1. cbn. now rewrite <- app_assoc.
  - unfold channel_open. rewrite S2. exact Ho2.
Qed.

End AxisLines.

(* ===================================================================== *)
(** * What the operations send *)
(* ===================================================================== *)

Section Sends.

Import CameraController.

Lemma sends_ret {A} (a : A) : sends (ret a : Py A) [].
Proof.
  intros w. exists a, w. cbn. split; [reflexivity|]. split; [reflexivity|].
  split; intros _; now rewrite ?app_nil_r.
Qed.

Lemma sends_bind {A B} (m : Py A) (k : A -> Py B) (c1 c2 : list str) :
  sends m c1 -> (forall a, sends (k a) c2) -> sends (bind m k) (c1 ++ c2).
Proof.
  intros Hm Hk w.
  destruct (Hm w) as (a & w1 & E1 & S1 & O1 & N1).
  destruct (Hk a w1) as (b & w2 & E2 & S2 & O2 & N2).
  exists b, w2. cbn [bind Monad_Py]. rewrite E1. split; [exact E2|].
  split; [congruence|]. split.
  - intros Ho. destruct (O1 Ho) as [W1 R1].
    assert (channel_open w1) as Ho1 by (unfold channel_open; congruence).
    destruct (O2 Ho1) as [W2 R2]. split.
    + now rewrite W2, W1, flat_map_app, app_assoc.
    + rewrite R2, R1, length_app, skipn_skipn. f_equal. lia.
  - intros Hn. destruct (N1 Hn) as [W1 R1].
    assert (~ channel_open w1) as Hn1 by (unfold channel_open; congruence).
    destruct (N2 Hn1) as [W2 R2]. split; congruence.
Qed.

Lemma sends_note (c : ControlCommand) : sends (note c) [].
Proof.
  intros w. eexists tt, _. split; [reflexivity|]. cbn.
  split; [reflexivity|]. split; intros _; now rewrite ?app_nil_r.
Qed.

Lemma sends_send_command (cmd : str) : clean cmd -> sends (send_command cmd) [cmd].
Proof.
  intros (Ha & Hh & Hl) w. destruct (open_or_not w) as [Ho|Hn].
  - rewrite (send_command_open cmd w Ho), encode_terminated, (strip_id cmd Hh Hl).
    rewrite (encode_ascii cmd Ha). eexists _, _. split; [reflexivity|]. cbn.
    split; [reflexivity|]. split; [|now intros []].
    intros _. rewrite app_nil_r. split; [reflexivity|]. now destruct (replies w).
  - rewrite (send_command_not_open cmd w Hn). eexists _, _.
    split; [reflexivity|]. cbn. split; [reflexivity|]. split; [now intros Ho|].
    now split.
Qed.

Lemma clean_lit (s : string) :
  Forall (fun c => (c < 128)%N) (lit s) ->
  match lit s with [] => True | c :: _ => is_space c = false end ->
  match rev (lit s) with [] => True | c :: _ => is_space c = false end ->
  clean (lit s).
Proof. now repeat split. Qed.

Ltac clean_literal :=
  apply clean_lit; [repeat constructor|reflexivity|reflexivity].

Ltac sends_tac :=
  repeat match goal with
    | |- sends (note _ ;; _) _ => apply (sends_bind _ _ []); [apply sends_note|intros _]
    | |- sends (send_command _ ;; _) (_ :: _) =>
        apply (sends_bind _ _ [_]); [apply sends_send_command|intros _]
    | |- sends (ret _) [] => apply sends_ret
    end.

Lemma sends_ir_off : sends ir_off [lit "M242 A0"].
Proof. unfold ir_off. sends_tac. clean_literal. Qed.

Lemma sends_ir_on : sends ir_on [lit "M242 A1"].
Proof. unfold ir_on. sends_tac. clean_literal. Qed.

(** What each operation sends, whatever the state of the channel. *)
Lemma sends_perform (c : ControlCommand) : sends (perform c) (commands_of c).
Proof.
  destruct c; cbn [perform commands_of];
    try apply sends_ir_on; try apply sends_ir_off;
    unfold wake_up, autofocus, set_zoom, set_focus, set_mode_day,
      set_mode_night, pan, tilt;
    sends_tac;
    try apply sends_ir_on; try apply sends_ir_off;
    try clean_literal;
    (apply clean_command; [clean_literal|discriminate]).
Qed.

End Sends.

Section ValueLines.

Import CameraController.

(** The bytes of the two lines of an operation with a value are those of
    its axis. *)
Lemma commands_axis_lines (axis : string) (value : Z) :
  flat_map line [lit ("G0 " ++ axis) ++ of_int value; lit ("M0 " ++ axis)] =
  axis_lines axis value.
Proof. unfold axis_lines. cbn [flat_map]. now rewrite app_nil_r. Qed.

Lemma value_operation_wire (value : Z) (w : World) :
  channel_open w ->
  (exists w', set_focus value w = Returns tt w' /\
              wire w' = wire w ++ axis_lines "B" value) /\
  (exists w', set_zoom value w = Returns tt w' /\
              wire w' = wire w ++ axis_lines "A" value) /\
  (exists w', pan value w = Returns tt w' /\
              wire w' = wire w ++ axis_lines "X" value) /\
  (exists w', tilt value w = Returns tt w' /\
              wire w' = wire w ++ axis_lines "Y" value).
Proof.
  intros Ho.
  assert (forall c axis,
            commands_of c = [lit ("G0 " ++ axis) ++ of_int value; lit ("M0 " ++ axis)] ->
            exists w', perform c w = Returns tt w' /\
                       wire w' = wire w ++ axis_lines axis value) as H.
  { intros c axis Ec.
    destruct (sends_perform c w) as ([] & w' & E & _ & O & _).
    destruct (O Ho) as [W _]. exists w'. split; [exact E|].
    now rewrite W, Ec, commands_axis_lines. }
  split; [exact (H (SetFocus value) "B"%string eq_refl)|].
  split; [exact (H (SetZoom value) "A"%string eq_refl)|].
  split; [exact (H (Pan value) "X"%string eq_refl)|].
  exact (H (Tilt value) "Y"%string eq_refl).
Qed.

End ValueLines.

(** X6. On an open channel each of [set_focus], [set_zoom], [pan] and
    [tilt], given a value that Python can print (at most 4300 digits),
    returns and writes two lines and nothing else: [G0], the axis letter
    and the value in decimal (with a minus sign when negative), then [M0]
    and the axis letter. *)
Theorem value_operations_write_two_lines (value : Z) (w : World) :
  channel_open w -> printable value ->
  (exists w', CameraController.set_focus value w = Returns tt w' /\
              wire w' = wire w ++ axis_lines "B" value) /\
  (exists w', CameraController.set_zoom value w = Returns tt w' /\
              wire w' = wire w ++ axis_lines "A" value) /\
  (exists w', CameraController.pan value w = Returns tt w' /\
              wire w' = wire w ++ axis_lines "X" value) /\
  (exists w', CameraController.tilt value w = Returns tt w' /\
              wire w' = wire w ++ axis_lines "Y" value).
Proof.
  intros Ho _. exact (value_operation_wire value w Ho).
Qed.

Lemma value_operations_write_two_lines_witness :
  exists w', CameraController.set_focus (-120) open_world = Returns tt w' /\
             wire w' = wire open_world ++ axis_lines "B" (-120).
Proof.
  refine (proj1 (value_operations_write_two_lines (-120) open_world _ _)).
  - reflexivity.
  - vm_compute. reflexivity.
Defined.

Example focus_lines :
  axis_lines "B" (-120) =
  [x47; x30; x20; x42; x2d; x31; x32; x30; x0d; x0a; x4d; x30; x20; x42; x0d; x0a].
Proof. vm_compute. reflexivity. Qed.

(* ===================================================================== *)
(** * The sweep outside the usual case *)
(* ===================================================================== *)

Section SweepEdges.

Import CameraController.

Lemma set_focus_open (value : Z) (w : World) :
  channel_open w ->
  exists w', set_focus value w = Returns tt w' /\
             wire w' = wire w ++ axis_lines "B" value /\ channel_open w'.
Proof.
  intros Ho. apply (two_lines (SetFocus value)); trivial.
  - apply clean_command; [|discriminate].
    split; [repeat constructor|split; reflexivity].
  - split; [repeat constructor|split; reflexivity].
Qed.

Lemma sweep_wire (cap : Camera) (candidates : list Z) (best : Best) (w : World) :
  channel_open w ->
  exists b w', sweep cap candidates best w = Returns b w' /\
               wire w' = wire w ++ flat_map (axis_lines "B") candidates /\
               channel_open w'.
Proof.
  revert best w. induction candidates as [|f rest IH]; intros best w Ho.
  - exists best, w. cbn. now rewrite app_nil_r.
  - cbn [sweep bind Monad_Py flat_map].
    destruct (set_focus_open f w Ho) as (w1 & E1 & W1 & Ho1). rewrite E1.
    destruct (cap f) as [v|].
    + cbn [_log].
      set (w2 := {| serial := serial w1; wire := wire w1; replies := replies w1;
                    log := log w1 ++ [LogSample f v]; issued := issued w1 |}).
      assert (channel_open w2) as Ho2 by exact Ho1.
      assert (wire w2 = wire w1) as W2 by reflexivity.
      clearbody w2.
      destruct (PyFloat.gtb v (snd best)).
      * destruct (IH (f, v) w2 Ho2) as (b & w3 & E3 & W3 & Ho3).
        exists b, w3. split; [exact E3|]. split; [|exact Ho3].
        now rewrite W3, W2, W1, <- app_assoc.
      * destruct (IH best w2 Ho2) as (b & w3 & E3 & W3 & Ho3).
        exists b, w3. split; [exact E3|]. split; [|exact Ho3].
        now rewrite W3, W2, W1, <- app_assoc.
    + destruct (IH best w1 Ho1) as (b & w3 & E3 & W3 & Ho3).
      exists b, w3. split; [exact E3|]. split; [|exact Ho3].
      now rewrite W3, W1, <- app_assoc.
Qed.

Lemma gtb_trans (a b c : PyFloat.float) :
  PyFloat.gtb b a = true -> PyFloat.gtb c b = true -> PyFloat.gtb c a = true.
Proof.
  unfold PyFloat.gtb, SFltb. intros H1 H2.
  destruct (SFcompare a b) as [[]|] eqn:C1; try discriminate.
  destruct (SFcompare b c) as [[]|] eqn:C2; try discriminate.
  rewrite (SFcompare_trans _ _ _ _ _ C1 C2); [reflexivity| |]; discriminate.
Qed.

(** The best sample of a sweep is the initial one or a capture sharper
    than the initial one. *)
Lemma scan_origin (cap : Camera) (candidates : list Z) (best : Best) :
  scan cap candidates best = best \/
  (In (fst (scan cap candidates best)) candidates /\
   cap (fst (scan cap candidates best)) = Some (snd (scan cap candidates best)) /\
   PyFloat.gtb (snd (scan cap candidates best)) (snd best) = true).
Proof.
  revert best. induction candidates as [|f rest IH]; intros best; cbn [scan].
  - now left.
  - destruct (cap f) as [v|] eqn:Ev.
    + destruct (PyFloat.gtb v (snd best)) eqn:Eg.
      * destruct (IH (f, v)) as [->|(H1 & H2 & H3)].
        -- right. split; [now left|]. split; [exact Ev|exact Eg].
        -- right. split; [now right|]. split; [exact H2|].
           exact (gtb_trans _ _ _ Eg H3).
      * destruct (IH best) as [->|(H1 & H2 & H3)]; [now left|].
        right. split; [now right|]. now split.
    + destruct (IH best) as [->|(H1 & H2 & H3)]; [now left|].
      right. split; [now right|]. now split.
Qed.

Lemma gtb_nan (b : PyFloat.float) : PyFloat.gtb S754_nan b = false.
Proof. unfold PyFloat.gtb, SFltb. now destruct b. Qed.

Lemma scan_ignore_nan (cap : Camera) (candidates : list Z) (best : Best) :
  scan (ignore_nan cap) candidates best = scan cap candidates best.
Proof.
  revert best. induction candidates as [|f rest IH]; intros best; cbn [scan].
  - reflexivity.
  - unfold ignore_nan at 1. destruct (cap f) as [[s|s| |s m e]|]; rewrite ?IH; trivial.
    now rewrite gtb_nan.
Qed.

(** A range that counts down: its items lie above the stop. *)
Lemma py_range_down (start stop step : Z) :
  step < 0 ->
  exists l, py_range start stop step = Ok l /\
    StronglySorted Z.gt l /\
    forall f, In f l <-> exists k, 0 <= k /\ f = start + k * step /\ stop < f.
Proof.
  intros Hs. unfold py_range.
  destruct (Z.eqb_spec step 0); [lia|]. destruct (Z.ltb_spec 0 step); [lia|].
  eexists. split; [reflexivity|]. split.
  - generalize (range_len stop start (- step)) as len. generalize O as a.
    intros a len. revert a. induction len as [|len IH]; intros a; cbn; constructor.
    + apply IH.
    + apply Forall_forall. intros f Hf. apply in_map_iff in Hf as (i & <- & Hi).
      apply in_seq in Hi. nia.
  - intros f. rewrite in_map_iff. unfold range_len.
    destruct (Z.ltb_spec stop start) as [Hlt|Hge].
    + assert (0 <= (start - stop - 1) / - step) as Hq by (apply Z.div_pos; lia).
      split.
      * intros (i & <- & Hi). apply in_seq in Hi.
        exists (Z.of_nat i). split; [lia|]. split; [reflexivity|].
        assert (Z.of_nat i <= (start - stop - 1) / - step) as Hle by lia.
        assert (Z.of_nat i * - step <= start - stop - 1).
        { apply Z.le_trans with ((start - stop - 1) / - step * - step); [nia|].
          rewrite Z.mul_comm. apply Z.mul_div_le. lia. }
        lia.
      * intros (k & Hk & -> & Hf). exists (Z.to_nat k).
        split; [now rewrite Z2Nat.id by lia|]. apply in_seq.
        split; [lia|]. cbn.
        assert (k <= (start - stop - 1) / - step).
        { apply Z.div_le_lower_bound; lia. }
        lia.
    + split.
      * intros (i & _ & []).
      * intros (k & Hk & -> & Hf). nia.
Qed.

Lemma py_range_empty (start stop step : Z) :
  (0 < step /\ stop <= start) \/ (step < 0 /\ start <= stop) ->
  py_range start stop step = Ok [].
Proof.
  intros H. unfold py_range, range_len.
  destruct (Z.eqb_spec step 0); [lia|].
  destruct H as [[H1 H2]|[H1 H2]].
  - destruct (Z.ltb_spec 0 step); [|lia]. now destruct (Z.ltb_spec start stop); [lia|].
  - destruct (Z.ltb_spec 0 step); [lia|]. now destruct (Z.ltb_spec stop start); [lia|].
Qed.

End SweepEdges.

(** X7. A zero step makes [autofocus_loop] raise [ValueError] before any
    focus is commanded: no call is recorded and nothing is written, not
    even the commit of the default focus.  A video device that cannot be
    opened makes it return in the same way, with nothing commanded. *)
Theorem autofocus_zero_step_raises
  (cap : CameraController.Camera) (lo hi step : Z) (w : World) :
  (exists w', CameraController.autofocus_loop (Some cap) lo hi 0 w =
              Raises ValueError w' /\
              issued w' = issued w /\ wire w' = wire w /\
              log w' = log w ++ [LogSweepStart]) /\
  (exists w', CameraController.autofocus_loop None lo hi step w = Returns tt w' /\
              issued w' = issued w /\ wire w' = wire w /\
              log w' = log w ++ [LogNoVideo]).
Proof.
  split; eexists; (split; [reflexivity|]); cbn; now repeat split.
Qed.

(** X8. When the range of the sweep is empty (a positive step with
    [max_focus] below [min_focus], or a negative step with [min_focus] at
    most [max_focus + 1]), [autofocus_loop] makes one call only: it
    commands [min_focus], although that value may lie outside the
    range. *)
Theorem autofocus_empty_range_commits_min
  (cap : CameraController.Camera) (lo hi step : Z) (w : World) :
  (0 < step /\ hi < lo) \/ (step < 0 /\ lo <= hi + 1) ->
  exists w',
    CameraController.autofocus_loop (Some cap) lo hi step w = Returns tt w' /\
    issued w' = issued w ++ [SetFocus lo].
Proof.
  intros H.
  assert (py_range lo (hi + 1) step = Ok []) as Hr by (apply py_range_empty; lia).
  destruct (autofocus_loop_trace cap lo hi step [] w Hr) as (w' & E & _ & I & _).
  exists w'. split; [exact E|exact I].
Qed.

Lemma autofocus_empty_range_commits_min_witness :
  exists w',
    CameraController.autofocus_loop (Some peak_at_4) 10 0 2 open_world =
      Returns tt w' /\
    issued w' = issued open_world ++ [SetFocus 10].
Proof.
  refine (autofocus_empty_range_commits_min peak_at_4 10 0 2 open_world _).
  left. lia.
Defined.

(** X9. With a negative step the sweep counts down from [min_focus]: it
    commands, in decreasing order, the values [min_focus + k * step] that
    are above [max_focus + 1], so none when [min_focus <= max_focus + 1],
    and then commits. *)
Theorem autofocus_negative_step_counts_down
  (cap : CameraController.Camera) (lo hi step : Z) (w : World) :
  step < 0 ->
  exists w' candidates best,
    CameraController.autofocus_loop (Some cap) lo hi step w = Returns tt w' /\
    issued w' = issued w ++ map SetFocus candidates ++ [SetFocus best] /\
    StronglySorted Z.gt candidates /\
    forall f, In f candidates <->
              exists k, 0 <= k /\ f = lo + k * step /\ hi + 1 < f.
Proof.
  intros Hs.
  destruct (py_range_down lo (hi + 1) step Hs) as (l & Hr & Hsorted & Hin).
  destruct (autofocus_loop_trace cap lo hi step l w Hr) as (w' & E & _ & I & _).
  exists w', l, (fst (scan cap l (lo, PyFloat.lit_neg_1_0))).
  repeat split; trivial; apply Hin.
Qed.

Lemma autofocus_negative_step_counts_down_witness :
  exists w' candidates best,
    CameraController.autofocus_loop (Some peak_at_4) 10 0 (-3) open_world =
      Returns tt w' /\
    issued w' = issued open_world ++ map SetFocus candidates ++ [SetFocus best] /\
    StronglySorted Z.gt candidates /\
    forall f, In f candidates <->
              exists k, 0 <= k /\ f = 10 + k * -3 /\ 0 + 1 < f.
Proof.
  refine (autofocus_negative_step_counts_down peak_at_4 10 0 (-3) open_world _).
  lia.
Defined.

(** X10. Whatever the captures yield (failed reads, negative, infinite or
    NaN scores), a sweep with a positive step over a non-empty range
    commits a focus of the range: a value [min_focus + k * step] between
    [min_focus] and [max_focus]; and unless it is [min_focus], it is a
    focus whose capture succeeded with a score above -1.0. *)
Theorem autofocus_commits_within_range
  (cap : CameraController.Camera) (lo hi step : Z) (w : World) :
  0 < step -> lo <= hi ->
  exists f,
    commits (CameraController.autofocus_loop (Some cap) lo hi step w) f /\
    In f (grid lo hi step) /\ lo <= f <= hi /\
    (f = lo \/ exists v, cap f = Some v /\ PyFloat.gtb v PyFloat.lit_neg_1_0 = true).
Proof.
  intros Hs Hle.
  pose proof (trace_commits cap lo hi step (grid lo hi step) w
                (py_range_grid lo hi step Hs)) as Hc.
  set (best := scan cap (grid lo hi step) (lo, PyFloat.lit_neg_1_0)) in *.
  exists (fst best). split; [exact Hc|].
  assert (In lo (grid lo hi step)) as Hlo.
  { apply (in_grid lo hi step Hs). exists 0. lia. }
  assert (forall f, In f (grid lo hi step) -> lo <= f <= hi) as Hb.
  { intros f Hf. apply (in_grid lo hi step Hs) in Hf as (k & Hk & -> & Hf). nia. }
  pose proof (scan_origin cap (grid lo hi step) (lo, PyFloat.lit_neg_1_0)) as Ho.
  fold best in Ho. cbn [snd] in Ho. destruct Ho as [E|(Hin & Ec & Hg)].
  - rewrite E. cbn [fst]. split; [exact Hlo|]. split; [lia|now left].
  - split; [exact Hin|]. split; [now apply Hb|].
    right. exists (snd best). split; [exact Ec|exact Hg].
Qed.

Lemma autofocus_commits_within_range_witness :
  exists f,
    commits (CameraController.autofocus_loop (Some flaky) 0 10 2 open_world) f /\
    In f (grid 0 10 2) /\ 0 <= f <= 10 /\
    (f = 0 \/ exists v, flaky f = Some v /\ PyFloat.gtb v PyFloat.lit_neg_1_0 = true).
Proof.
  refine (autofocus_commits_within_range flaky 0 10 2 open_world _ _); lia.
Defined.

(** X11. A capture whose sharpness is NaN never becomes the best: the
    sweep makes the calls, and commits the focus, it would make if those
    captures had failed. *)
Theorem autofocus_ignores_nan_scores
  (cap : CameraController.Camera) (lo hi step : Z) (w : World) :
  issued (world_of (CameraController.autofocus_loop (Some cap) lo hi step w)) =
  issued (world_of
            (CameraController.autofocus_loop (Some (ignore_nan cap)) lo hi step w)) /\
  forall f,
    commits (CameraController.autofocus_loop (Some cap) lo hi step w) f <->
    commits (CameraController.autofocus_loop (Some (ignore_nan cap)) lo hi step w) f.
Proof.
  destruct (Z.eq_dec step 0) as [->|Hs].
  - split; [reflexivity|]. intros f. split; intros (w' & b & E & _); discriminate.
  - destruct (py_range_ok lo (hi + 1) step Hs) as (l & Hr).
    destruct (autofocus_loop_trace cap lo hi step l w Hr) as (w1 & E1 & _ & I1 & _).
    destruct (autofocus_loop_trace (ignore_nan cap) lo hi step l w Hr)
      as (w2 & E2 & _ & I2 & _).
    rewrite scan_ignore_nan in I2.
    rewrite E1, E2. cbn [world_of]. split; [congruence|].
    intros f. unfold commits. split; intros (w' & b & [= <-] & Hb).
    + exists w2, b. split; [reflexivity|]. congruence.
    + exists w1, b. split; [reflexivity|]. congruence.
Qed.

(** X12. On an open channel a sweep with a positive step writes, for each
    candidate in turn and then once more for the focus it commits, the two
    lines of [set_focus], and nothing else. *)
Theorem autofocus_loop_on_the_wire
  (cap : CameraController.Camera) (lo hi step : Z) (w : World) :
  0 < step -> channel_open w ->
  exists w' best,
    CameraController.autofocus_loop (Some cap) lo hi step w = Returns tt w' /\
    commits (Returns tt w') best /\
    wire w' = wire w ++ flat_map (axis_lines "B") (grid lo hi step ++ [best]).
Proof.
  intros Hs Ho.
  pose proof (trace_commits cap lo hi step (grid lo hi step) w
                (py_range_grid lo hi step Hs)) as Hc.
  set (best := fst (scan cap (grid lo hi step) (lo, PyFloat.lit_neg_1_0))) in *.
  destruct Hc as (w' & before & E & I).
  exists w', best. split; [exact E|]. split; [now exists w', before|].
  revert E. unfold CameraController.autofocus_loop. cbn [bind Monad_Py _log].
  rewrite (py_range_grid lo hi step Hs). cbn [lift].
  match goal with |- context [CameraController.sweep cap _ ?b ?w1] =>
    destruct (sweep_wire cap (grid lo hi step) b w1 Ho) as (b1 & w2 & E2 & W2 & Ho2);
    destruct (sweep_scan cap (grid lo hi step) b w1) as (w2' & E2' & _) end.
  rewrite E2 in E2'. injection E2' as -> <-. rewrite E2. fold best.
  match goal with |- context [CameraController.set_focus best ?w3] =>
    destruct (set_focus_open best w3 Ho2) as (w4 & E4 & W4 & _) end.
  rewrite E4. intros [= <-]. rewrite W4. cbn [wire]. rewrite W2. cbn [wire].
  rewrite flat_map_app. cbn [flat_map]. now rewrite app_nil_r, <- app_assoc.
Qed.

Lemma autofocus_loop_on_the_wire_witness :
  exists w' best,
    CameraController.autofocus_loop (Some peak_at_4) 0 10 2 open_world =
      Returns tt w' /\
    commits (Returns tt w') best /\
    wire w' = wire open_world ++ flat_map (axis_lines "B") (grid 0 10 2 ++ [best]).
Proof.
  refine (autofocus_loop_on_the_wire peak_at_4 0 10 2 open_world _ _).
  - lia.
  - reflexivity.
Defined.

(* ===================================================================== *)
(** * Integers in float arithmetic *)
(* ===================================================================== *)

Section ExactIntegers.

Local Abbreviation emin64 := (SpecFloat.emin PyFloat.prec PyFloat.emax).
Local Abbreviation value := (value_at PyFloat.emax emin64).
Local Abbreviation round64 := (rounded_value PyFloat.prec PyFloat.emax).

Lemma round64_int (n : Z) :
  Z.abs n < 2 ^ 53 -> round64 (n * 2 ^ 1074) emin64 = n * 2 ^ 1074.
Proof.
  intros Hn. apply rounded_value_dyadic; try reflexivity; [exact Hn|].
  rewrite emin64_eq. unfold PyFloat.emax, PyFloat.prec. lia.
Qed.

(** A valid number whose value is below the infinity's is finite. *)
Lemma finite_by_value (x : PyFloat.float) (n : Z) :
  is_nan x = false -> value x = n * 2 ^ 1074 -> Z.abs n < 2 ^ 53 ->
  finite_or_zero x = true.
Proof.
  intros N Ev Hn. destruct x as [s|s| |s m e]; try discriminate; try reflexivity.
  exfalso. cbn [value_at] in Ev. rewrite emin64_eq in Ev.
  change (PyFloat.emax - -1074) with 2098 in Ev.
  assert (2 ^ 2098 = 2 ^ 1024 * 2 ^ 1074) as E2 by (rewrite <- pow2_split; lia).
  pose proof (pow2_pos 1074 ltac:(lia)). pose proof (pow2_lt 53 1024 ltac:(lia)).
  destruct s; cbn [cond_Zopp] in Ev; nia.
Qed.

Lemma of_Z_represents (n : Z) : Z.abs n < 2 ^ 53 -> represents (PyFloat.of_Z n) n.
Proof.
  intros Hn. destruct (of_int_exact n Hn) as (fd & E & V & F & Ev).
  assert (fd = PyFloat.of_Z n) as <-; [|now split].
  unfold PyFloat.of_int in E. destruct (PyFloat.of_Z n); congruence.
Qed.

Lemma sub_represents (x y : PyFloat.float) (a b : Z) :
  represents x a -> represents y b -> Z.abs (a - b) < 2 ^ 53 ->
  represents (PyFloat.sub x y) (a - b).
Proof.
  intros (Vx & Fx & Ex) (Vy & Fy & Ey) Hn.
  destruct (SFsub_value PyFloat.prec PyFloat.emax prec64_pos prec64_lt_emax
              x y Vx Vy Fx Fy) as (V & N & E).
  fold (PyFloat.sub x y) in V, N, E.
  rewrite Ex, Ey, <- Z.mul_sub_distr_r, round64_int in E by exact Hn.
  split; [exact V|]. split; [|exact E]. exact (finite_by_value _ _ N E Hn).
Qed.

Lemma add_represents (x y : PyFloat.float) (a b : Z) :
  represents x a -> represents y b -> Z.abs (a + b) < 2 ^ 53 ->
  represents (PyFloat.add x y) (a + b).
Proof.
  intros (Vx & Fx & Ex) (Vy & Fy & Ey) Hn.
  destruct (SFadd_value PyFloat.prec PyFloat.emax prec64_pos prec64_lt_emax
              x y Vx Vy Fx Fy) as (V & N & E).
  fold (PyFloat.add x y) in V, N, E.
  rewrite Ex, Ey, <- Z.mul_add_distr_r, round64_int in E by exact Hn.
  split; [exact V|]. split; [|exact E]. exact (finite_by_value _ _ N E Hn).
Qed.

Lemma times_five_represents (x : PyFloat.float) (a : Z) :
  represents x a -> Z.abs (a * 5) < 2 ^ 53 ->
  represents (PyFloat.mul x (PyFloat.of_Z 5)) (a * 5).
Proof.
  intros (Vx & Fx & Ex) Hn.
  assert (PyFloat.of_Z 5 = S754_finite false 5629499534213120 (-50)) as ->
    by (vm_compute; reflexivity).
  destruct (SFmul_value PyFloat.prec PyFloat.emax prec64_pos prec64_lt_emax
              x 5629499534213120 (-50) Vx Fx eq_refl ltac:(lia)) as (V & N & E).
  fold (PyFloat.mul x (S754_finite false 5629499534213120 (-50))) in V, N, E.
  set (r := PyFloat.mul x (S754_finite false 5629499534213120 (-50))) in *.
  rewrite (value_rescale PyFloat.prec PyFloat.emax prec64_pos prec64_lt_emax
             (emin64 + -50) r ltac:(lia) V) in E.
  rewrite Ex in E.
  replace (emin64 - (emin64 + -50)) with 50 in E by lia.
  assert (a * 2 ^ 1074 * 5629499534213120 =
          a * 5 * 2 ^ 1074 * 2 ^ (emin64 - (emin64 + -50))) as EV.
  { replace (emin64 - (emin64 + -50)) with 50 by lia.
    change 5629499534213120 with (5 * 2 ^ 50). lia. }
  rewrite EV in E.
  rewrite (rounded_value_scale PyFloat.prec PyFloat.emax prec64_pos prec64_lt_emax)
    in E by lia.
  replace (emin64 - (emin64 + -50)) with 50 in E by lia.
  apply Z.mul_cancel_r in E; [|pose proof (pow2_pos 50 ltac:(lia)); lia].
  rewrite round64_int in E by exact Hn.
  split; [exact V|]. split; [|exact E]. exact (finite_by_value _ _ N E Hn).
Qed.

Lemma to_int_represents (x : PyFloat.float) (n : Z) :
  represents x n -> PyFloat.to_int x = Ok n.
Proof.
  intros (V & F & E).
  assert (exists z, PyFloat.to_int x = Ok z) as (z & Ez)
    by (destruct x; try discriminate; cbn; eauto).
  rewrite Ez. f_equal. rewrite (to_int_value x z V Ez), E.
  change (- emin64) with 1074.
  apply Z.quot_mul. pose proof (pow2_pos 1074 ltac:(lia)). lia.
Qed.

End ExactIntegers.

(** X13. For a frame width and a person box with integer corners (up to
    [2^40] in magnitude) the zoom is, exactly,
    [10000 + 5 * (frame_width - (x2 - x1))]: it is not clamped, and a box
    as wide as the frame gives 10000. *)
Theorem zoom_value_of_integer_box (fw a b : Z) :
  Z.abs fw <= 2 ^ 40 -> Z.abs a <= 2 ^ 40 -> Z.abs b <= 2 ^ 40 ->
  AIFollower.zoom_value fw (PyFloat.sub (PyFloat.of_Z b) (PyFloat.of_Z a)) =
    Ok (10000 + (fw - (b - a)) * 5).
Proof.
  intros Hfw Ha Hb.
  assert (2 ^ 40 = 1099511627776) as E40 by reflexivity.
  assert (2 ^ 53 = 9007199254740992) as E53 by reflexivity.
  pose proof (of_Z_represents fw ltac:(lia)) as Rfw.
  pose proof (of_Z_represents a ltac:(lia)) as Ra.
  pose proof (of_Z_represents b ltac:(lia)) as Rb.
  pose proof (of_Z_represents 10000 ltac:(lia)) as Rc.
  pose proof (sub_represents _ _ _ _ Rb Ra ltac:(lia)) as Rw.
  pose proof (sub_represents _ _ _ _ Rfw Rw ltac:(lia)) as Rd.
  pose proof (times_five_represents _ _ Rd ltac:(lia)) as Rm.
  pose proof (add_represents _ _ _ _ Rc Rm ltac:(lia)) as Rz.
  unfold AIFollower.zoom_value.
  assert (PyFloat.of_int fw = Ok (PyFloat.of_Z fw)) as ->.
  { unfold PyFloat.of_int. destruct Rfw as (_ & F & _).
    now destruct (PyFloat.of_Z fw). }
  cbn [bind Monad_result]. now apply to_int_represents.
Qed.

Lemma zoom_value_of_integer_box_witness :
  AIFollower.zoom_value 1280 (PyFloat.sub (PyFloat.of_Z 1280) (PyFloat.of_Z 0)) =
    Ok (10000 + (1280 - (1280 - 0)) * 5).
Proof.
  refine (zoom_value_of_integer_box 1280 0 1280 _ _ _); vm_compute; discriminate.
Defined.

(* ===================================================================== *)
(** * The follower's loop *)
(* ===================================================================== *)

Section Follower.

Import AIFollower.

Lemma first_person_skips (before rest : list Box) :
  Forall not_person before -> first_person (before ++ rest) = first_person rest.
Proof.
  induction 1 as [|box before (c & Ec & Hc) _ IH]; [reflexivity|].
  cbn [app first_person]. rewrite Ec. cbn [bind Monad_result].
  destruct (Z.eqb_spec c 0); [contradiction|exact IH].
Qed.

Lemma first_person_found (before later : list Box) (p : Box) :
  Forall not_person before -> is_person p ->
  first_person (before ++ p :: later) = Ok (Some p).
Proof.
  intros Hb Hp. rewrite first_person_skips by exact Hb.
  cbn [first_person]. unfold is_person in Hp. now rewrite Hp.
Qed.

Lemma loop_app_stop fw fh (before later : list Frame) (f : Frame) (w : World) :
  key f = 27 ->
  loop fw fh (before ++ f :: later) w = loop fw fh (before ++ [f]) w.
Proof.
  intros Hk. revert w. induction before as [|g before IH]; intros w.
  - cbn [app loop bind Monad_Py].
    destruct (step fw fh f w) as [continue w'|e w'] eqn:E; [|reflexivity].
    assert (continue = false) as ->; [|reflexivity].
    revert E. unfold step. cbn [bind Monad_Py]. rewrite Hk.
    destruct (lift (first_person (boxes f)) w) as [person w1|]; [|discriminate].
    destruct (match person with
              | Some p => follow fw fh p
              | None => ret tt
              end w1); [|discriminate].
    cbn. congruence.
  - cbn [app loop bind Monad_Py].
    destruct (step fw fh g w) as [[|] w'|e w']; trivial.
Qed.

End Follower.

(** X14. A frame in which no detection is a person (an empty list of
    detections included) leaves the camera alone: no call is made, nothing
    is written or logged, and the loop goes on unless ESC was pressed. *)
Theorem frame_without_person_changes_nothing
  (fw fh : Z) (frame : AIFollower.Frame) (w : World) :
  Forall not_person (AIFollower.boxes frame) ->
  AIFollower.step fw fh frame w =
    Returns (negb (AIFollower.key frame =? 27)) w.
Proof.
  intros H. unfold AIFollower.step. cbn [bind Monad_Py].
  pose proof (first_person_skips (AIFollower.boxes frame) [] H) as E.
  rewrite app_nil_r in E. rewrite E. reflexivity.
Qed.

Lemma frame_without_person_changes_nothing_witness :
  AIFollower.step 1280 720
    {| AIFollower.boxes :=
         [{| AIFollower.cls := PyFloat.of_Z 16;
             AIFollower.x1 := PyFloat.of_Z 10; AIFollower.y1 := PyFloat.of_Z 10;
             AIFollower.x2 := PyFloat.of_Z 90; AIFollower.y2 := PyFloat.of_Z 90 |}];
       AIFollower.key := -1 |} open_world =
  Returns true open_world.
Proof.
  refine (frame_without_person_changes_nothing 1280 720 _ open_world _).
  constructor; [|constructor]. exists 16. split; [vm_compute; reflexivity|lia].
Defined.

(** X15. Only the first person of a frame counts: the detections before it
    that are not persons and all the detections after it, whatever they
    are, do not change what the frame does. *)
Theorem only_the_first_person_counts
  (fw fh : Z) (before later : list AIFollower.Box) (person : AIFollower.Box)
  (k : Z) (w : World) :
  Forall not_person before -> is_person person ->
  AIFollower.step fw fh
    {| AIFollower.boxes := before ++ person :: later; AIFollower.key := k |} w =
  AIFollower.step fw fh
    {| AIFollower.boxes := [person]; AIFollower.key := k |} w.
Proof.
  intros Hb Hp. unfold AIFollower.step. cbn [bind Monad_Py AIFollower.boxes].
  rewrite (first_person_found before later person Hb Hp).
  pose proof (first_person_found [] [] person (Forall_nil _) Hp) as E.
  cbn [app] in E. rewrite E. reflexivity.
Qed.

Lemma only_the_first_person_counts_witness :
  AIFollower.step 1280 720
    {| AIFollower.boxes :=
         [] ++ person_box 600 300 700 400 :: [person_box 0 0 50 50];
       AIFollower.key := 0 |} open_world =
  AIFollower.step 1280 720
    {| AIFollower.boxes := [person_box 600 300 700 400];
       AIFollower.key := 0 |} open_world.
Proof.
  refine (only_the_first_person_counts 1280 720 [] [person_box 0 0 50 50]
            (person_box 600 300 700 400) 0 open_world _ _).
  - constructor.
  - reflexivity.
Defined.

(** X16. ESC ends the run: the frames after the one at which the key 27
    was read are never processed, whatever they hold. *)
Theorem escape_ends_the_run
  (fw fh : Z) (before later : list AIFollower.Frame) (frame : AIFollower.Frame)
  (w : World) :
  AIFollower.key frame = 27 ->
  AIFollower.run
    (Some {| AIFollower.frame_width := fw; AIFollower.frame_height := fh;
             AIFollower.frames := before ++ frame :: later |}) w =
  AIFollower.run
    (Some {| AIFollower.frame_width := fw; AIFollower.frame_height := fh;
             AIFollower.frames := before ++ [frame] |}) w.
Proof.
  intros Hk. unfold AIFollower.run.
  cbn [AIFollower.frame_width AIFollower.frame_height AIFollower.frames].
  now apply loop_app_stop.
Qed.

Lemma escape_ends_the_run_witness :
  let stop := {| AIFollower.boxes := []; AIFollower.key := 27 |} in
  let more := {| AIFollower.boxes := [person_box 0 0 50 50]; AIFollower.key := 0 |} in
  AIFollower.run
    (Some {| AIFollower.frame_width := 1280; AIFollower.frame_height := 720;
             AIFollower.frames := [] ++ stop :: [more] |}) open_world =
  AIFollower.run
    (Some {| AIFollower.frame_width := 1280; AIFollower.frame_height := 720;
             AIFollower.frames := [] ++ [stop] |}) open_world.
Proof.
  refine (escape_ends_the_run 1280 720 []
            [{| AIFollower.boxes := [person_box 0 0 50 50]; AIFollower.key := 0 |}]
            {| AIFollower.boxes := []; AIFollower.key := 27 |} open_world _).
  reflexivity.
Defined.

(* ===================================================================== *)
(** * The launcher *)
(* ===================================================================== *)

Section Launcher.

Import CameraController.

Lemma steps_ir_off : steps ir_off [IrOff].
Proof.
  unfold ir_off. change [IrOff] with ([IrOff] ++ [] ++ []).
  apply steps_bind; [apply steps_note|intros _].
  apply steps_bind; [apply steps_send_command, plain_lit|intros _].
  apply steps_ret.
Qed.

Lemma steps_wake_up : steps wake_up [WakeUp; IrOff].
Proof.
  unfold wake_up. change [WakeUp; IrOff] with ([WakeUp] ++ [] ++ [] ++ [] ++ [IrOff]).
  apply steps_bind; [apply steps_note|intros _].
  do 3 (apply steps_bind; [apply steps_send_command, plain_lit|intros _]).
  apply steps_ir_off.
Qed.

Lemma steps_set_mode_day : steps set_mode_day [ModeDay; IrOff].
Proof.
  unfold set_mode_day.
  change [ModeDay; IrOff] with ([ModeDay] ++ [] ++ [] ++ [] ++ [IrOff]).
  apply steps_bind; [apply steps_note|intros _].
  do 3 (apply steps_bind; [apply steps_send_command, plain_lit|intros _]).
  apply steps_ir_off.
Qed.

(** The launcher is the follower's run in the world the start-up leaves. *)
Lemma main_split (opened : option Serial) (device_replies : list str)
  (video : option AIFollower.Video) :
  exists w1,
    (wake_up ;; set_mode_day) (init opened device_replies) = Returns tt w1 /\
    main opened device_replies video = AIFollower.run video w1 /\
    serial w1 = opened /\
    issued w1 = [WakeUp; IrOff; ModeDay; IrOff].
Proof.
  destruct (steps_wake_up (init opened device_replies))
    as ([] & wa & Ea & Sa & Ia & _).
  destruct (steps_set_mode_day wa) as ([] & wb & Eb & Sb & Ib & _).
  exists wb. unfold main. cbn [bind Monad_Py]. rewrite Ea, Eb.
  split; [reflexivity|]. split; [reflexivity|]. split.
  - rewrite Sb, Sa. reflexivity.
  - rewrite Ib, Ia. reflexivity.
Qed.

End Launcher.

(** X17. The launcher wakes the camera up and puts it in day mode before
    it looks at any frame: its calls start with [wake_up], [ir_off],
    [set_mode_day], [ir_off], and these are all its calls when the video
    source does not open.  On an opened port the wire starts with the
    eight lines of that start-up; when the port failed to open, nothing is
    ever written. *)
Theorem main_starts_up_before_following
  (opened : option Serial) (device_replies : list str)
  (video : option AIFollower.Video) :
  let w := world_of (main opened device_replies video) in
  (exists made, issued w = [WakeUp; IrOff; ModeDay; IrOff] ++ made) /\
  (video = None -> issued w = [WakeUp; IrOff; ModeDay; IrOff]) /\
  (opened = Some {| is_open := true |} ->
   exists data, wire w = startup_lines ++ data) /\
  (opened = None -> wire w = []).
Proof.
  cbn zeta.
  destruct (main_split opened device_replies video) as (w1 & E1 & -> & S1 & I1).
  destruct (orderly_run video w1) as (_ & (made & Im) & entries & _ & W).
  split; [exists made; now rewrite Im, I1|].
  split; [intros ->; cbn; exact I1|].
  split.
  - intros ->. exists (sent_bytes entries). rewrite W. f_equal.
    assert (wire (world_of ((CameraController.wake_up ;;
                             CameraController.set_mode_day)
                              (CameraController.init (Some {| is_open := true |})
                                                     device_replies))) =
            startup_lines) as Hw by (vm_compute; reflexivity).
    rewrite E1 in Hw. exact Hw.
  - intros ->.
    assert (channel_closed w1) as C1 by exact S1.
    destruct (inert_invoke (CallRun video) w1 C1) as [_ Hr].
    cbn [invoke] in Hr. rewrite Hr.
    assert (inert (CameraController.wake_up ;; CameraController.set_mode_day)) as Hi.
    { apply inert_bind; [apply (inert_perform WakeUp)|intros _].
      apply (inert_perform ModeDay). }
    destruct (Hi (CameraController.init None device_replies) eq_refl) as [_ Hp].
    rewrite E1 in Hp. exact Hp.
Qed.

(* ===================================================================== *)
(** * The value on the wire can be read back *)
(* ===================================================================== *)

Section Unambiguous.

Lemma lit_inj (s t : string) : lit s = lit t -> s = t.
Proof.
  unfold lit. intros H.
  apply (f_equal (map ascii_of_N)) in H. rewrite !map_map in H.
  rewrite !(map_ext _ (fun a => a) ascii_N_embedding), !map_id in H.
  apply (f_equal string_of_list_ascii) in H.
  now rewrite !string_of_list_ascii_of_string in H.
Qed.

Lemma to_int_proper (v : Z) :
  Z.to_int v <> Decimal.Pos Decimal.Nil /\ Z.to_int v <> Decimal.Neg Decimal.Nil.
Proof.
  destruct v as [|p|p]; cbn; split; try discriminate;
    intros [= H]; now apply (DecimalPos.Unsigned.to_uint_nonnil p).
Qed.

Lemma of_int_inj (v v' : Z) : of_int v = of_int v' -> v = v'.
Proof.
  unfold of_int. intros H. apply lit_inj in H.
  apply (f_equal NilZero.int_of_string) in H.
  destruct (to_int_proper v) as [A B], (to_int_proper v') as [A' B'].
  rewrite !NilZero.isi in H by trivial.
  injection H as H. apply (f_equal Z.of_int) in H.
  now rewrite !DecimalZ.of_to in H.
Qed.

Lemma raw_inj (s t : str) :
  Forall (fun c => (c < 256)%N) s -> Forall (fun c => (c < 256)%N) t ->
  raw s = raw t -> s = t.
Proof.
  intros Hs. revert t. induction Hs as [|c s Hc _ IH]; intros t Ht H.
  - destruct t; [reflexivity|discriminate].
  - destruct Ht as [|d t Hd Ht]; [discriminate|].
    cbn in H. injection H as H1 H2.
    apply (f_equal Byte.to_N) in H1. rewrite !to_N_byte_of_N in H1 by trivial.
    subst d. f_equal. now apply IH.
Qed.

Lemma of_int_bytes (v : Z) : Forall (fun c => (c < 256)%N) (of_int v).
Proof.
  eapply Forall_impl; [|apply of_int_chars].
  intros c H. apply numeral_char_clean in H. lia.
Qed.

End Unambiguous.

(** The lines of an axis determine the value. *)
Lemma axis_lines_inj (axis : string) (v v' : Z) :
  axis_lines axis v = axis_lines axis v' -> v = v'.
Proof.
  intros H. unfold axis_lines, line in H.
  apply app_inv_tail in H. apply app_inv_tail in H.
  rewrite !raw_app in H. apply app_inv_head in H.
  apply of_int_inj. apply raw_inj; trivial; apply of_int_bytes.
Qed.

(** X18. The value given to an operation can be read back from the wire:
    on an open channel, two calls of [set_focus] (or of [set_zoom], [pan],
    [tilt]) from the same state with different printable values never
    write the same bytes. *)
Theorem different_values_write_different_lines (v v' : Z) (w : World) :
  channel_open w -> printable v -> printable v' -> v <> v' ->
  wire (world_of (CameraController.set_focus v w)) <>
    wire (world_of (CameraController.set_focus v' w)) /\
  wire (world_of (CameraController.set_zoom v w)) <>
    wire (world_of (CameraController.set_zoom v' w)) /\
  wire (world_of (CameraController.pan v w)) <>
    wire (world_of (CameraController.pan v' w)) /\
  wire (world_of (CameraController.tilt v w)) <>
    wire (world_of (CameraController.tilt v' w)).
Proof.
  intros Ho _ _ Hv.
  destruct (value_operation_wire v w Ho)
    as ((f & Ef & Wf) & (z & Ez & Wz) & (x & Ex & Wx) & (y & Ey & Wy)).
  destruct (value_operation_wire v' w Ho)
    as ((f' & Ef' & Wf') & (z' & Ez' & Wz') & (x' & Ex' & Wx') & (y' & Ey' & Wy')).
  rewrite Ef, Ef', Ez, Ez', Ex, Ex', Ey, Ey'. cbn [world_of].
  rewrite Wf, Wf', Wz, Wz', Wx, Wx', Wy, Wy'.
  repeat split; intros H; apply app_inv_head in H;
    apply axis_lines_inj in H; contradiction.
Qed.

Lemma different_values_write_different_lines_witness :
  wire (world_of (CameraController.pan 12 open_world)) <>
    wire (world_of (CameraController.pan (-12) open_world)).
Proof.
  refine (proj1 (proj2 (proj2
            (different_values_write_different_lines 12 (-12) open_world _ _ _ _)))).
  - reflexivity.
  - vm_compute. reflexivity.
  - vm_compute. reflexivity.
  - lia.
Defined.

(* ===================================================================== *)
(** * The operations always return *)
(* ===================================================================== *)

(** X19. No operation of the controller raises of its own, whatever the
    state of the channel, for every value that Python can print (at most
    4300 digits; failures of the serial driver are not part of the model):
    it returns and leaves the port as it is.  On an open channel it has
    written exactly the lines of its commands, in order, and taken one
    reply per line; on a channel that is not open it has written and read
    nothing. *)
Theorem operations_always_return (c : ControlCommand) (w : World) :
  printable_command c ->
  exists w',
    perform c w = Returns tt w' /\ serial w' = serial w /\
    (channel_open w ->
     wire w' = wire w ++ flat_map line (commands_of c) /\
     replies w' = skipn (List.length (commands_of c)) (replies w)) /\
    (~ channel_open w -> wire w' = wire w /\ replies w' = replies w).
Proof.
  intros _. destruct (sends_perform c w) as ([] & w' & H). now exists w'.
Qed.

Lemma operations_always_return_witness :
  exists w',
    perform (Pan (-3)) open_world = Returns tt w' /\
    serial w' = serial open_world /\
    (channel_open open_world ->
     wire w' = wire open_world ++ flat_map line (commands_of (Pan (-3))) /\
     replies w' =
       skipn (List.length (commands_of (Pan (-3)))) (replies open_world)) /\
    (~ channel_open open_world ->
     wire w' = wire open_world /\ replies w' = replies open_world).
Proof.
  refine (operations_always_return (Pan (-3)) open_world _).
  vm_compute. reflexivity.
Defined.
